(** * 128-bit integer engine of the geometry package: model and properties

    The Go package [geometry] carries a 128-bit unsigned type [Uint128] and a
    128-bit two's-complement type [Int128], both stored as a pair of 64-bit
    words [hi], [lo].  This development embeds the arithmetic, division,
    rotation and conversion code as Rocq functions over [Z] with every
    wrap-around written out, and proves the properties the specification
    states about them.

    Conventions of the embedding:
    - a [uint64] is a [Z] in [[0, 2^64)]; an [int64] / [int] is a [Z] in
      [[-2^63, 2^63)]; [uint] and [int] are 64 bits wide ([intSize = 64]);
    - a run-time panic is [None]; a returned value is [Some];
    - Go's shifts by a count of 64 or more yield 0. *)

From Stdlib Require Import ZArith List Lia Bool Ascii String DecimalString.
From Stdlib Require Import Floats.SpecFloat.
From Stdlib Require DecimalPos.
From coqutil Require Import Z.bitblast.
Import ListNotations.
Local Open Scope Z_scope.

(** ** Machine words and the [math/bits] primitives *)

Module Bits.

Definition wrap64 (z : Z) : Z := z mod 2 ^ 64.

(** Reinterpretation of a 64-bit pattern as [int64] / [int]. *)
Definition signed64 (z : Z) : Z := (z + 2 ^ 63) mod 2 ^ 64 - 2 ^ 63.

Definition maxUint64 : Z := 2 ^ 64 - 1.
Definition maxInt64 : Z := 2 ^ 63 - 1.
Definition minInt64 : Z := - 2 ^ 63.

(** [x << n] and [x >> n] on [uint64] with an unsigned count. *)
Definition shl64 (x n : Z) : Z :=
  if 64 <=? n then 0 else wrap64 (Z.shiftl x n).

Definition shr64 (x n : Z) : Z :=
  if 64 <=? n then 0 else Z.shiftr x n.

(** [^x] on [uint64]. *)
Definition not64 (x : Z) : Z := maxUint64 - x.

(** [x &^ y] on [uint64]. *)
Definition andnot64 (x y : Z) : Z := Z.land x (not64 y).

(** [bits.Add64]: sum with carry; the carry out is 0 or 1. *)
Definition Add64 (x y carry : Z) : Z * Z :=
  let s := x + y + carry in (wrap64 s, s / 2 ^ 64).

(** [bits.Sub64]: difference with borrow; the borrow out is 0 or 1. *)
Definition Sub64 (x y borrow : Z) : Z * Z :=
  let d := x - y - borrow in (wrap64 d, if d <? 0 then 1 else 0).

(** [bits.Mul64]: the 128-bit product as (hi, lo). *)
Definition Mul64 (x y : Z) : Z * Z :=
  let p := x * y in (p / 2 ^ 64, wrap64 p).

(** [bits.Div64]: panics for [y == 0] (division by zero) and for [y <= hi]
    (quotient overflow). *)
Definition Div64 (hi lo y : Z) : option (Z * Z) :=
  if y =? 0 then None
  else if y <=? hi then None
  else Some ((hi * 2 ^ 64 + lo) / y, (hi * 2 ^ 64 + lo) mod y).

(** Go's [x / y] and [x % y] on [uint64]: a zero divisor panics. *)
Definition div64 (x y : Z) : option Z :=
  if y =? 0 then None else Some (x / y).

Definition mod64 (x y : Z) : option Z :=
  if y =? 0 then None else Some (x mod y).

(** [bits.Len64]: number of bits needed to represent [x]; 0 for [x == 0]. *)
Definition Len64 (x : Z) : Z :=
  if x <=? 0 then 0 else Z.log2 x + 1.

(** [bits.LeadingZeros64]: 64 for [x == 0]. *)
Definition LeadingZeros64 (x : Z) : Z := 64 - Len64 x.

Fixpoint ctz_pos (p : positive) : Z :=
  match p with
  | xO p' => Z.succ (ctz_pos p')
  | _ => 0
  end.

(** [bits.TrailingZeros64]: 64 for [x == 0]. *)
Definition TrailingZeros64 (x : Z) : Z :=
  match x with
  | Zpos p => ctz_pos p
  | _ => 64
  end.

(** [bits.OnesCount64]: the number of one bits ("population count"). *)
Fixpoint popcount_pos (p : positive) : Z :=
  match p with
  | xH => 1
  | xO p' => popcount_pos p'
  | xI p' => Z.succ (popcount_pos p')
  end.

Definition OnesCount64 (x : Z) : Z :=
  match x with
  | Zpos p => popcount_pos p
  | _ => 0
  end.

(** [bits.Reverse64]: the bits of [x] in reversed order.  [reverse_bits n x
    acc] pushes the [n] low bits of [x], lowest first, onto the low end of
    [acc]. *)
Fixpoint reverse_bits (n : nat) (x acc : Z) : Z :=
  match n with
  | O => acc
  | S n' => reverse_bits n' (Z.shiftr x 1) (Z.lor (Z.shiftl acc 1) (Z.land x 1))
  end.

Definition Reverse64 (x : Z) : Z := reverse_bits 64 x 0.

(** The number of one bits among the [n] low bits of [z]: the count that
    [OnesCount64] and [Uint128.OnesCount] are measured against. *)
Fixpoint count_ones (n : nat) (z : Z) : Z :=
  match n with
  | O => 0
  | S n' => Z.b2z (Z.testbit z (Z.of_nat n')) + count_ones n' z
  end.

End Bits.

Import Bits.

(** ** Byte slices *)

Module Bytes.

(** [byte(x)]: truncation to the low 8 bits. *)
Definition byte (x : Z) : Z := Z.land x 0xff.

(** A byte slice is a list of bytes; [store b i x] is [b[i] = x] on an
    index in range (the callers below check the length first, as the
    bounds-check [_ = b[15]] of the source does). *)
Fixpoint store (b : list Z) (i : nat) (x : Z) : list Z :=
  match b, i with
  | [], _ => []
  | _ :: tl, O => x :: tl
  | h :: tl, S i' => h :: store tl i' x
  end.

(** [b[i]] on an index in range. *)
Definition load (b : list Z) (i : nat) : Z := nth i b 0.

(** [bits.ReverseBytes64]: the bytes of [x] in reversed order. *)
Definition ReverseBytes64 (x : Z) : Z :=
  Z.lor (Z.lor (Z.lor (Z.lor (Z.lor (Z.lor (Z.lor
    (byte (shr64 x 56))
    (shl64 (byte (shr64 x 48)) 8))
    (shl64 (byte (shr64 x 40)) 16))
    (shl64 (byte (shr64 x 32)) 24))
    (shl64 (byte (shr64 x 24)) 32))
    (shl64 (byte (shr64 x 16)) 40))
    (shl64 (byte (shr64 x 8)) 48))
    (shl64 (byte x) 56).

End Bytes.

Import Bytes.

(** ** [math/big]: an arbitrary-precision integer is a [Z] *)

Module Big.

Definition digit_of (c : ascii) : option Z :=
  let n := Z.of_N (N_of_ascii c) in
  if (48 <=? n) && (n <=? 57) then Some (n - 48) else None.

Fixpoint parse_digits (s : string) (acc : Z) : option Z :=
  match s with
  | EmptyString => Some acc
  | String c s' =>
    match digit_of c with
    | Some d => parse_digits s' (10 * acc + d)
    | None => None
    end
  end.

(** [new(big.Int).SetString(s, 10)]: an optional sign, then one or more
    decimal digits, and nothing else; [None] is the [ok == false] result. *)
Definition SetString10 (s : string) : option Z :=
  let '(neg, body) :=
    match s with
    | String "-"%char s' => (true, s')
    | String "+"%char s' => (false, s')
    | _ => (false, s)
    end in
  match body with
  | EmptyString => None
  | _ =>
    match parse_digits body 0 with
    | Some v => Some (if neg then - v else v)
    | None => None
    end
  end.

(** [big.Int.String()]: the decimal representation. *)
Definition BigString (v : Z) : string := NilZero.string_of_int (Z.to_int v).

(** [len(v.Bits())] with 64-bit words, and the [k]-th word of [|v|]. *)
Definition words_len (v : Z) : Z :=
  if v =? 0 then 0 else Z.log2 (Z.abs v) / 64 + 1.

Definition word_at (v : Z) (k : Z) : Z := wrap64 (Z.shiftr (Z.abs v) (64 * k)).

End Big.

Import Big.

(** ** [float64]: IEEE 754 binary64, round to nearest even *)

Module Float64.

Definition float64 : Type := spec_float.
Definition f64_of_uint64 (x : Z) : float64 := binary_normalize 53 1024 x 0 false.
Definition f64_mul : float64 -> float64 -> float64 := SFmul 53 1024.
Definition f64_add : float64 -> float64 -> float64 := SFadd 53 1024.
Definition f64_neg : float64 -> float64 := SFopp.

(** [maxUint64Float = float64(maxUint64)] and
    [wrapUint64Float = float64(maxUint64) + 1]; both are [2^64]. *)
Definition maxUint64Float : float64 := f64_of_uint64 maxUint64.
Definition wrapUint64Float : float64 := f64_add maxUint64Float (f64_of_uint64 1).

End Float64.

Import Float64.

(** Outcome of a decoder that can return an error or panic. *)
Inductive outcome (A : Type) : Type :=
  | Decoded (a : A)
  | Failed
  | Panicked.
Arguments Decoded {A} a.
Arguments Failed {A}.
Arguments Panicked {A}.


(** The error monad of panicking code. *)
Definition bind {A B : Type} (m : option A) (k : A -> option B) : option B :=
  match m with
  | Some a => k a
  | None => None
  end.

Notation "x <- m ;; k" := (bind m (fun x => k))
  (at level 61, m at next level, right associativity).
Notation "' p <- m ;; k" := (bind m (fun x => let p := x in k))
  (at level 61, p pattern, m at next level, right associativity).

(** ** The unsigned engine: [type Uint128 struct { hi, lo uint64 }] *)

Module Uint128.

Record t : Type := mk { hi : Z; lo : Z }.

Definition zeroUint128 : t := mk 0 0.
Definition MaxUint128 : t := mk maxUint64 maxUint64.

Definition Uint128FromRaw (h l : Z) : t := mk h l.
Definition Uint128From64 (v : Z) : t := mk 0 v.

Definition Inc (u : t) : t :=
  let '(l, carry) := Bits.Add64 (lo u) 1 0 in
  mk (wrap64 (hi u + carry)) l.

Definition Dec (u : t) : t :=
  let '(l, borrowed) := Bits.Sub64 (lo u) 1 0 in
  mk (wrap64 (hi u - borrowed)) l.

Definition Add (u n : t) : t :=
  let '(l, carry) := Bits.Add64 (lo u) (lo n) 0 in
  let '(h, _) := Bits.Add64 (hi u) (hi n) carry in
  mk h l.

Definition Add64 (u : t) (n : Z) : t :=
  let '(l, carry) := Bits.Add64 (lo u) n 0 in
  mk (wrap64 (hi u + carry)) l.

Definition Sub (u n : t) : t :=
  let '(l, borrowed) := Bits.Sub64 (lo u) (lo n) 0 in
  let '(h, _) := Bits.Sub64 (hi u) (hi n) borrowed in
  mk h l.

Definition Sub64 (u : t) (n : Z) : t :=
  let '(l, borrowed) := Bits.Sub64 (lo u) n 0 in
  mk (wrap64 (hi u - borrowed)) l.

Definition Cmp (u n : t) : Z :=
  if hi u =? hi n then
    if lo n <? lo u then 1
    else if lo u <? lo n then -1
    else 0
  else
    if hi n <? hi u then 1
    else if hi u <? hi n then -1
    else 0.

Definition Cmp64 (u : t) (n : Z) : Z :=
  if (0 <? hi u) || (n <? lo u) then 1
  else if lo u <? n then -1
  else 0.

Definition Equal (u n : t) : bool := (hi u =? hi n) && (lo u =? lo n).

Definition And (u n : t) : t := mk (Z.land (hi u) (hi n)) (Z.land (lo u) (lo n)).

Definition Lsh (u : t) (n : Z) : t :=
  if n =? 0 then u
  else if 64 <? n then mk (shl64 (lo u) (wrap64 (n - 64))) 0
  else if n <? 64 then
    mk (Z.lor (shl64 (hi u) n) (shr64 (lo u) (wrap64 (64 - n)))) (shl64 (lo u) n)
  else if n =? 64 then mk (lo u) 0
  else mk 0 0.

Definition Rsh (u : t) (n : Z) : t :=
  if n =? 0 then u
  else if 64 <? n then mk 0 (shr64 (hi u) (wrap64 (n - 64)))
  else if n <? 64 then
    mk (shr64 (hi u) n) (Z.lor (shr64 (lo u) n) (shl64 (hi u) (wrap64 (64 - n))))
  else if n =? 64 then mk 0 (hi u)
  else mk 0 0.

Definition Mul (u n : t) : t :=
  let '(h, l) := Bits.Mul64 (lo u) (lo n) in
  mk (wrap64 (h + wrap64 (wrap64 (hi u * lo n) + wrap64 (lo u * hi n)))) l.

Definition LeadingZeros (u : t) : Z :=
  if hi u =? 0 then wrap64 (LeadingZeros64 (lo u) + 64)
  else LeadingZeros64 (hi u).

Definition TrailingZeros (u : t) : Z :=
  if lo u =? 0 then wrap64 (TrailingZeros64 (hi u) + 64)
  else TrailingZeros64 (lo u).

(** [RotateLeft(k int)]: [uint(k)] reinterprets the [int] as 64 bits. *)
Definition RotateLeft (u : t) (k : Z) : t :=
  let s := Z.land (wrap64 k) 127 in
  if 64 <? s then
    let s := wrap64 (128 - s) in
    let l := wrap64 (64 - s) in
    mk (Z.lor (shr64 (hi u) s) (shl64 (lo u) l))
       (Z.lor (shr64 (lo u) s) (shl64 (hi u) l))
  else
    let l := wrap64 (64 - s) in
    mk (Z.lor (shl64 (hi u) s) (shr64 (lo u) l))
       (Z.lor (shl64 (lo u) s) (shr64 (hi u) l)).

(** See BenchmarkUint128QuoRemTZ in the source for this constant. *)
Definition divAlgoLeading0Spill : Z := 16.

(** The [again1] / [again2] label of the Hacker's Delight [divlu] routine:
    [if (q >= b) || (left > right) { q--; rhat += vn1;
         if rhat < b { left -= vn0; right = (rhat << 32) | un; goto again } }].
    Each jump back adds [vn1] to [rhat] below [b]; [fuel] bounds the number
    of jumps and is chosen by the caller from [b / vn1]. *)
Fixpoint again (fuel : nat) (b vn1 vn0 un q rhat left right : Z) : option Z :=
  match fuel with
  | O => None
  | S fuel' =>
    if (b <=? q) || (right <? left) then
      let q := wrap64 (q - 1) in
      let rhat := wrap64 (rhat + vn1) in
      if rhat <? b then
        let left := wrap64 (left - vn0) in
        let right := Z.lor (shl64 rhat 32) un in
        again fuel' b vn1 vn0 un q rhat left right
      else Some q
    else Some q
  end.

Definition again_fuel (b vn1 : Z) : nat := S (Z.to_nat (b / vn1)).

(** Hacker's Delight 9-4, [divlu], quotient only. *)
Definition quo128by64 (u1 u0 v vLeading0 : Z) : option Z :=
  let b := shl64 1 32 in
  let vs := shl64 v vLeading0 in
  let vn1 := shr64 vs 32 in
  let vn0 := Z.land vs 0xffffffff in
  let un32 :=
    if 0 <? vLeading0
    then Z.lor (shl64 u1 vLeading0) (shr64 u0 (wrap64 (64 - vLeading0)))
    else u1 in
  let un10 := if 0 <? vLeading0 then shl64 u0 vLeading0 else u0 in
  let un1 := shr64 un10 32 in
  let un0 := Z.land un10 0xffffffff in
  q1 <- div64 un32 vn1 ;;
  rhat <- mod64 un32 vn1 ;;
  let left := wrap64 (q1 * vn0) in
  let right := Z.lor (shl64 rhat 32) un1 in
  q1 <- again (again_fuel b vn1) b vn1 vn0 un1 q1 rhat left right ;;
  let un21 := wrap64 (shl64 un32 32 + wrap64 (un1 - wrap64 (q1 * vs))) in
  q0 <- div64 un21 vn1 ;;
  rhat <- mod64 un21 vn1 ;;
  let left := wrap64 (q0 * vn0) in
  let right := Z.lor (shl64 rhat 32) un0 in
  q0 <- again (again_fuel b vn1) b vn1 vn0 un0 q0 rhat left right ;;
  Some (Z.lor (shl64 q1 32) q0).

(** Hacker's Delight 9-4, [divlu], quotient and remainder. *)
Definition quorem128by64 (u1 u0 v vLeading0 : Z) : option (Z * Z) :=
  let b := shl64 1 32 in
  let v := shl64 v vLeading0 in
  let vn1 := shr64 v 32 in
  let vn0 := Z.land v 0xffffffff in
  let un32 :=
    if 0 <? vLeading0
    then Z.lor (shl64 u1 vLeading0) (shr64 u0 (wrap64 (64 - vLeading0)))
    else u1 in
  let un10 := if 0 <? vLeading0 then shl64 u0 vLeading0 else u0 in
  let un1 := shr64 un10 32 in
  let un0 := Z.land un10 0xffffffff in
  q1 <- div64 un32 vn1 ;;
  rhat <- mod64 un32 vn1 ;;
  let left := wrap64 (q1 * vn0) in
  let right := wrap64 (shl64 rhat 32 + un1) in
  q1 <- again (again_fuel b vn1) b vn1 vn0 un1 q1 rhat left right ;;
  let un21 := wrap64 (shl64 un32 32 + wrap64 (un1 - wrap64 (q1 * v))) in
  q0 <- div64 un21 vn1 ;;
  rhat <- mod64 un21 vn1 ;;
  let left := wrap64 (q0 * vn0) in
  let right := Z.lor (shl64 rhat 32) un0 in
  q0 <- again (again_fuel b vn1) b vn1 vn0 un0 q0 rhat left right ;;
  Some (Z.lor (shl64 q1 32) q0,
        shr64 (wrap64 (shl64 un21 32 + wrap64 (un0 - wrap64 (q0 * v)))) vLeading0).

Definition quorem128by128 (m v : t) (vHiLeading0 vLoLeading0 : Z) : option (t * t) :=
  if hi v =? 0 then
    if hi m <? lo v then
      '(ql, rl) <- quorem128by64 (hi m) (lo m) (lo v) vLoLeading0 ;;
      Some (mk 0 ql, mk 0 rl)
    else
      qh <- div64 (hi m) (lo v) ;;
      rh <- mod64 (hi m) (lo v) ;;
      '(ql, rl) <- quorem128by64 rh (lo m) (lo v) vLoLeading0 ;;
      Some (mk qh ql, mk 0 rl)
  else
    let v1 := Lsh v vHiLeading0 in
    let u1 := Rsh m 1 in
    q1lo <- quo128by64 (hi u1) (lo u1) (hi v1) vLoLeading0 ;;
    let q1 := Rsh (mk 0 q1lo) (wrap64 (63 - vHiLeading0)) in
    let q1 := if Z.lor (hi q1) (lo q1) =? 0 then q1 else Dec q1 in
    let q := q1 in
    let q1 := Mul q1 v in
    let r := Sub m q1 in
    if 0 <=? Cmp r v then Some (Inc q, Sub r v) else Some (q, r).

(** The body of the [for] loop shared by [quorem128bin] and [quo128bin];
    [n] is the number of further iterations after this one, i.e. the value
    of [shift] when it is positive and 0 otherwise. *)
Fixpoint bin_loop (n : nat) (q u by_ : t) : t * t :=
  let q := mk (Z.lor (shl64 (hi q) 1) (shr64 (lo q) 63)) (shl64 (lo q) 1) in
  let '(u, q) :=
    if (hi by_ <? hi u) || ((hi u =? hi by_) && (lo by_ <=? lo u))
    then (Sub u by_, mk (hi q) (Z.lor (lo q) 1))
    else (u, q) in
  let by_ := mk (shr64 (hi by_) 1) (Z.lor (shr64 (lo by_) 1) (shl64 (hi by_) 63)) in
  match n with
  | O => (q, u)
  | S n' => bin_loop n' q u by_
  end.

Definition quorem128bin (u by_ : t) (uLeading0 byLeading0 : Z) : t * t :=
  let shift := signed64 (wrap64 (byLeading0 - uLeading0)) in
  let by_ := Lsh by_ (wrap64 shift) in
  bin_loop (Z.to_nat shift) zeroUint128 u by_.

Definition quo128bin (u by_ : t) (uLeading0 byLeading0 : Z) : t :=
  let shift := signed64 (wrap64 (byLeading0 - uLeading0)) in
  let by_ := Lsh by_ (wrap64 shift) in
  fst (bin_loop (Z.to_nat shift) zeroUint128 u by_).

Definition QuoRem (u by_ : t) : option (t * t) :=
  if (lo by_ =? 0) && (hi by_ =? 0) then None
  else if Z.lor (hi u) (hi by_) =? 0 then
    q <- div64 (lo u) (lo by_) ;;
    r <- mod64 (lo u) (lo by_) ;;
    Some (mk 0 q, mk 0 r)
  else
    let '(byLoLeading0, byHiLeading0, byLeading0) :=
      if hi by_ =? 0
      then (LeadingZeros64 (lo by_), 64, wrap64 (LeadingZeros64 (lo by_) + 64))
      else (0, LeadingZeros64 (hi by_), LeadingZeros64 (hi by_)) in
    if byLeading0 =? 127 then Some (u, zeroUint128)
    else
      let byTrailing0 := TrailingZeros by_ in
      if wrap64 (byLeading0 + byTrailing0) =? 127 then
        Some (Rsh u byTrailing0, And (Dec by_) u)
      else
        let cmp := Cmp u by_ in
        if cmp <? 0 then Some (zeroUint128, u)
        else if cmp =? 0 then Some (mk 0 1, zeroUint128)
        else
          let uLeading0 := LeadingZeros u in
          if divAlgoLeading0Spill <? wrap64 (byLeading0 - uLeading0)
          then quorem128by128 u by_ byHiLeading0 byLoLeading0
          else Some (quorem128bin u by_ uLeading0 byLeading0).

Definition Quo (u by_ : t) : option t :=
  if (lo by_ =? 0) && (hi by_ =? 0) then None
  else if Z.lor (hi u) (hi by_) =? 0 then
    q <- div64 (lo u) (lo by_) ;;
    Some (mk 0 q)
  else
    let '(byLoLeading0, byHiLeading0, byLeading0) :=
      if hi by_ =? 0
      then (LeadingZeros64 (lo by_), 64, wrap64 (LeadingZeros64 (lo by_) + 64))
      else (0, LeadingZeros64 (hi by_), LeadingZeros64 (hi by_)) in
    if byLeading0 =? 127 then Some u
    else
      let byTrailing0 := TrailingZeros by_ in
      if wrap64 (byLeading0 + byTrailing0) =? 127 then
        Some (Rsh u byTrailing0)
      else
        let cmp := Cmp u by_ in
        if cmp <? 0 then Some zeroUint128
        else if cmp =? 0 then Some (mk 0 1)
        else
          let uLeading0 := LeadingZeros u in
          if divAlgoLeading0Spill <? wrap64 (byLeading0 - uLeading0)
          then '(q, _) <- quorem128by128 u by_ byHiLeading0 byLoLeading0 ;; Some q
          else Some (quo128bin u by_ uLeading0 byLeading0).

Definition Rem (u by_ : t) : option t :=
  '(_, r) <- QuoRem u by_ ;; Some r.

Definition Quo64 (u : t) (by_ : Z) : option t :=
  if hi u <? by_ then
    '(ql, _) <- Div64 (hi u) (lo u) by_ ;;
    Some (mk 0 ql)
  else
    qh <- div64 (hi u) by_ ;;
    rh <- mod64 (hi u) by_ ;;
    '(ql, _) <- Div64 rh (lo u) by_ ;;
    Some (mk qh ql).

Definition QuoRem64 (u : t) (by_ : Z) : option (t * t) :=
  if hi u <? by_ then
    '(ql, rl) <- Div64 (hi u) (lo u) by_ ;;
    Some (mk 0 ql, mk 0 rl)
  else
    '(qh, rl) <- Div64 0 (hi u) by_ ;;
    '(ql, rl) <- Div64 rl (lo u) by_ ;;
    Some (mk qh ql, mk 0 rl).

Definition Rem64 (u : t) (by_ : Z) : option t :=
  if hi u <? by_ then
    '(_, rl) <- Div64 (hi u) (lo u) by_ ;;
    Some (mk 0 rl)
  else
    '(_, rl) <- Div64 0 (hi u) by_ ;;
    '(_, rl) <- Div64 rl (lo u) by_ ;;
    Some (mk 0 rl).

(** The number a [Uint128] stands for, and the range of its two words. *)
Definition toZ (u : t) : Z := hi u * 2 ^ 64 + lo u.
Definition ofZ (z : Z) : t := mk (wrap64 (z / 2 ^ 64)) (wrap64 z).
Definition wf (u : t) : Prop := 0 <= hi u < 2 ^ 64 /\ 0 <= lo u < 2 ^ 64.

(** [divides_as u by_ q r]: [q] and [r] are the quotient and remainder of
    the numbers [u] and [by_] stand for. *)
Definition divides_as (u by_ q r : t) : Prop :=
  wf q /\ wf r /\ toZ u = toZ by_ * toZ q + toZ r /\ toZ r < toZ by_.

Definition PutBigEndian (u : t) (b : list Z) : option (list Z) :=
  if (List.length b <? 16)%nat then None
  else
    let b := store b 0 (byte (shr64 (hi u) 56)) in
    let b := store b 1 (byte (shr64 (hi u) 48)) in
    let b := store b 2 (byte (shr64 (hi u) 40)) in
    let b := store b 3 (byte (shr64 (hi u) 32)) in
    let b := store b 4 (byte (shr64 (hi u) 24)) in
    let b := store b 5 (byte (shr64 (hi u) 16)) in
    let b := store b 6 (byte (shr64 (hi u) 8)) in
    let b := store b 7 (byte (hi u)) in
    let b := store b 8 (byte (shr64 (lo u) 56)) in
    let b := store b 9 (byte (shr64 (lo u) 48)) in
    let b := store b 10 (byte (shr64 (lo u) 40)) in
    let b := store b 11 (byte (shr64 (lo u) 32)) in
    let b := store b 12 (byte (shr64 (lo u) 24)) in
    let b := store b 13 (byte (shr64 (lo u) 16)) in
    let b := store b 14 (byte (shr64 (lo u) 8)) in
    let b := store b 15 (byte (lo u)) in
    Some b.

Definition or8 (b0 b1 b2 b3 b4 b5 b6 b7 : Z) : Z :=
  Z.lor (Z.lor (Z.lor (Z.lor (Z.lor (Z.lor (Z.lor
    b0 (shl64 b1 8)) (shl64 b2 16)) (shl64 b3 24))
    (shl64 b4 32)) (shl64 b5 40)) (shl64 b6 48)) (shl64 b7 56).

Definition MustUint128FromBigEndian (b : list Z) : option t :=
  if (List.length b <? 16)%nat then None
  else Some (mk
    (or8 (load b 7) (load b 6) (load b 5) (load b 4)
         (load b 3) (load b 2) (load b 1) (load b 0))
    (or8 (load b 15) (load b 14) (load b 13) (load b 12)
         (load b 11) (load b 10) (load b 9) (load b 8))).

Definition PutLittleEndian (u : t) (b : list Z) : option (list Z) :=
  if (List.length b <? 16)%nat then None
  else
    let b := store b 0 (byte (lo u)) in
    let b := store b 1 (byte (shr64 (lo u) 8)) in
    let b := store b 2 (byte (shr64 (lo u) 16)) in
    let b := store b 3 (byte (shr64 (lo u) 24)) in
    let b := store b 4 (byte (shr64 (lo u) 32)) in
    let b := store b 5 (byte (shr64 (lo u) 40)) in
    let b := store b 6 (byte (shr64 (lo u) 48)) in
    let b := store b 7 (byte (shr64 (lo u) 56)) in
    let b := store b 8 (byte (hi u)) in
    let b := store b 9 (byte (shr64 (hi u) 8)) in
    let b := store b 10 (byte (shr64 (hi u) 16)) in
    let b := store b 11 (byte (shr64 (hi u) 24)) in
    let b := store b 12 (byte (shr64 (hi u) 32)) in
    let b := store b 13 (byte (shr64 (hi u) 40)) in
    let b := store b 14 (byte (shr64 (hi u) 48)) in
    let b := store b 15 (byte (shr64 (hi u) 56)) in
    Some b.

Definition MustUint128FromLittleEndian (b : list Z) : option t :=
  if (List.length b <? 16)%nat then None
  else Some (mk
    (or8 (load b 8) (load b 9) (load b 10) (load b 11)
         (load b 12) (load b 13) (load b 14) (load b 15))
    (or8 (load b 0) (load b 1) (load b 2) (load b 3)
         (load b 4) (load b 5) (load b 6) (load b 7))).

(** [Uint128FromBigInt] on a 64-bit platform: [(out, inRange)]. *)
Definition Uint128FromBigInt (v : Z) : t * bool :=
  if v <? 0 then (zeroUint128, false)
  else
    let lw := words_len v in
    if lw =? 0 then (mk 0 0, true)
    else if lw =? 1 then (mk 0 (word_at v 0), true)
    else if lw =? 2 then (mk (word_at v 1) (word_at v 0), true)
    else (MaxUint128, false).

(** [Uint128FromString]: [None] is the returned error. *)
Definition Uint128FromString (s : string) : option (t * bool) :=
  match SetString10 s with
  | None => None
  | Some b => Some (Uint128FromBigInt b)
  end.

(** [AsBigInt] (through [IntoBigInt] with 64-bit words): the two words
    of the value, low word first. *)
Definition AsBigInt (u : t) : Z := Z.lor (Z.shiftl (hi u) 64) (lo u).

(** [String]; [strconv.FormatUint(u.lo, 10)] is the decimal text of a
    word. *)
Definition String (u : t) : string :=
  if (lo u =? 0) && (hi u =? 0) then "0"%string
  else if hi u =? 0 then BigString (lo u)
  else BigString (AsBigInt u).

Definition MarshalText (u : t) : string := String u.

(** [UnmarshalText]: the [inRange] result of [Uint128FromString] is
    dropped ([v, _, err := ...]). *)
Definition UnmarshalText (bts : string) : outcome t :=
  match Uint128FromString bts with
  | None => Failed
  | Some (v, _) => Decoded v
  end.

Definition quote : ascii := ascii_of_nat 34.

(** [`"` + s + `"`]. *)
Definition quoted (s : string) : string :=
  String.String quote (s ++ String.String quote EmptyString)%string.

Definition MarshalJSON (u : t) : string := quoted (String u).

(** [bts[1 : ln-1]] for [ln >= 2]: drop the first and the last byte. *)
Definition strip_ends (bts : string) : string :=
  substring 1 (String.length bts - 2) bts.

(** [UnmarshalJSON]: [bts[0]] panics on an empty payload; a lone quote has
    [ln == 1], and [bts[1:0]] panics. *)
Definition UnmarshalJSON (bts : string) : outcome t :=
  match bts with
  | EmptyString => Panicked
  | String.String c _ =>
    if Ascii.eqb c quote then
      match String.get (String.length bts - 1) bts with
      | Some last =>
        if negb (Ascii.eqb last quote) then Failed
        else if (String.length bts <? 2)%nat then Panicked
        else UnmarshalText (strip_ends bts)
      | None => Panicked
      end
    else UnmarshalText bts
  end.

(** [AsFloat64]. *)
Definition AsFloat64 (u : t) : float64 :=
  if (hi u =? 0) && (lo u =? 0) then S754_zero false
  else if hi u =? 0 then f64_of_uint64 (lo u)
  else f64_add (f64_mul (f64_of_uint64 (hi u)) wrapUint64Float) (f64_of_uint64 (lo u)).

(** *** Constructors and checked conversions *)

(** [Uint128FromI64]: [(out, inRange)]. *)
Definition Uint128FromI64 (v : Z) : t * bool :=
  if v <? 0 then (zeroUint128, false) else (mk 0 (wrap64 v), true).

Definition MustUint128FromI64 (v : Z) : option t :=
  let '(out, inRange) := Uint128FromI64 v in
  if negb inRange then None else Some out.

(** [MustUint128FromString] panics on a parse error and on an out-of-range
    number. *)
Definition MustUint128FromString (s : string) : option t :=
  match Uint128FromString s with
  | None => None
  | Some (out, inRange) => if negb inRange then None else Some out
  end.

Definition MustUint128FromBigInt (b : Z) : option t :=
  let '(out, inRange) := Uint128FromBigInt b in
  if negb inRange then None else Some out.

(** [Scan]: [tok] is what [state.Token(true, nil)] yields, [None] when it
    returns an error.  The receiver is assigned only on [Decoded]. *)
Definition Scan (tok : option string) : outcome t :=
  match tok with
  | None => Failed
  | Some ts =>
    match Uint128FromString ts with
    | None => Failed
    | Some (v, inRange) => if negb inRange then Failed else Decoded v
    end
  end.

Definition IsZero (u : t) : bool := (lo u =? 0) && (hi u =? 0).

Definition Raw (u : t) : Z * Z := (hi u, lo u).

Definition AsUint64 (u : t) : Z := lo u.

Definition IsUint64 (u : t) : bool := hi u =? 0.

Definition MustUint64 (u : t) : option Z :=
  if negb (hi u =? 0) then None else Some (lo u).

(** *** Ordering predicates *)

Definition Equal64 (u : t) (n : Z) : bool := (hi u =? 0) && (lo u =? n).

Definition GreaterThan (u n : t) : bool :=
  (hi n <? hi u) || ((hi u =? hi n) && (lo n <? lo u)).

Definition GreaterThan64 (u : t) (n : Z) : bool :=
  (0 <? hi u) || (n <? lo u).

Definition GreaterOrEqualTo (u n : t) : bool :=
  (hi n <? hi u) || ((hi u =? hi n) && (lo n <=? lo u)).

Definition GreaterOrEqualTo64 (u : t) (n : Z) : bool :=
  (0 <? hi u) || (n <=? lo u).

Definition LessThan (u n : t) : bool :=
  (hi u <? hi n) || ((hi u =? hi n) && (lo u <? lo n)).

Definition LessThan64 (u : t) (n : Z) : bool :=
  (hi u =? 0) && (lo u <? n).

Definition LessOrEqualTo (u n : t) : bool :=
  (hi u <? hi n) || ((hi u =? hi n) && (lo u <=? lo n)).

Definition LessOrEqualTo64 (u : t) (n : Z) : bool :=
  (hi u =? 0) && (lo u <=? n).

(** *** Bitwise operations *)

Definition And64 (u : t) (n : Z) : t := mk 0 (Z.land (lo u) n).

Definition AndNot (u n : t) : t :=
  mk (andnot64 (hi u) (hi n)) (andnot64 (lo u) (lo n)).

Definition Not (u : t) : t := mk (not64 (hi u)) (not64 (lo u)).

Definition Or (u n : t) : t := mk (Z.lor (hi u) (hi n)) (Z.lor (lo u) (lo n)).

Definition Or64 (u : t) (n : Z) : t := mk (hi u) (Z.lor (lo u) n).

Definition Xor (u v : t) : t := mk (Z.lxor (hi u) (hi v)) (Z.lxor (lo u) (lo v)).

Definition Xor64 (u : t) (v : Z) : t := mk (Z.lxor (hi u) 0) (Z.lxor (lo u) v).

Definition BitLen (u : t) : Z :=
  if 0 <? hi u then Len64 (hi u) + 64 else Len64 (lo u).

Definition OnesCount (u : t) : Z :=
  if 0 <? hi u then OnesCount64 (hi u) + 64 else OnesCount64 (lo u).

(** [Bit(i int)]: panics for [i] outside [[0, 128)]. *)
Definition Bit (u : t) (i : Z) : option Z :=
  if (i <? 0) || (128 <=? i) then None
  else if 64 <=? i then Some (Z.land (shr64 (hi u) (wrap64 (i - 64))) 1)
  else Some (Z.land (shr64 (lo u) (wrap64 i)) 1).

(** [SetBit(i int, b uint)]: panics for [i] outside [[0, 128)] and for [b]
    other than 0 and 1. *)
Definition SetBit (u : t) (i : Z) (b : Z) : option t :=
  if (i <? 0) || (128 <=? i) then None
  else if b =? 0 then
    if 64 <=? i
    then Some (mk (andnot64 (hi u) (shl64 1 (wrap64 (i - 64)))) (lo u))
    else Some (mk (hi u) (andnot64 (lo u) (shl64 1 (wrap64 i))))
  else if b =? 1 then
    if 64 <=? i
    then Some (mk (Z.lor (hi u) (shl64 1 (wrap64 (i - 64)))) (lo u))
    else Some (mk (hi u) (Z.lor (lo u) (shl64 1 (wrap64 i))))
  else None.

Definition Mul64 (u : t) (n : Z) : t :=
  let '(h, l) := Bits.Mul64 (lo u) n in
  mk (wrap64 (h + wrap64 (hi u * n))) l.

Definition Reverse (u : t) : t := mk (Reverse64 (lo u)) (Reverse64 (hi u)).

Definition ReverseBytes (u : t) : t :=
  mk (ReverseBytes64 (lo u)) (ReverseBytes64 (hi u)).

(** *** Difference, larger, smaller *)

Definition DifferenceUint128 (a b : t) : t :=
  if hi b <? hi a then Sub a b
  else if hi a <? hi b then Sub b a
  else if lo b <? lo a then Sub a b
  else if lo a <? lo b then Sub b a
  else mk 0 0.

Definition LargerUint128 (a b : t) : t :=
  if hi b <? hi a then a
  else if hi a <? hi b then b
  else if lo b <? lo a then a
  else if lo a <? lo b then b
  else a.

Definition SmallerUint128 (a b : t) : t :=
  if hi a <? hi b then a
  else if hi b <? hi a then b
  else if lo a <? lo b then a
  else if lo b <? lo a then b
  else a.

End Uint128.

(** ** The package's word helpers

    The signed engine is written over the package's own [Uint64] and
    [Int64] types and its [Add64], [Sub64] and [Div64] functions, whose
    declarations are not among the sources. *)

Module Geometry.

(** Modelled from the spec: the conversion [Uint64(v)] to the package's
    [Uint64] type, whose declaration is missing; a word is "a 64-bit
    unsigned machine integer", so converting an [int64] reinterprets its
    64 bits. *)
Definition Uint64 (v : Z) : Z := wrap64 v.

(** Modelled from the spec: the package's [Add64] on [Uint64], missing
    from the sources; "64-bit word addition with explicit carry propagated
    from lo to hi", the signed [Add] being "carry propagation identical to
    unsigned", which calls [bits.Add64] at the same place. *)
Definition Add64 (x y carry : Z) : Z * Z := Bits.Add64 x y carry.

(** Modelled from the spec: the package's [Sub64] on [Uint64], missing
    from the sources; "64-bit word subtraction with explicit borrow
    propagated from lo to hi", as [bits.Sub64] in the unsigned engine. *)
Definition Sub64 (x y borrow : Z) : Z * Z := Bits.Sub64 x y borrow.

(** Modelled from the spec: the package's [Div64] on [Uint64], missing
    from the sources; the 128-by-64 division primitive that the unsigned
    64-bit variants take from [bits.Div64], with its two panics (zero
    divisor, quotient overflow). *)
Definition Div64 (hi lo y : Z) : option (Z * Z) := Bits.Div64 hi lo y.

(** Modelled from the spec: the package's [Mul64] on [Uint64], missing
    from the sources; the "64x64->128 partial products" of [Mul/Mul64],
    which the unsigned engine takes from [bits.Mul64] at the same place. *)
Definition Mul64 (x y : Z) : Z * Z := Bits.Mul64 x y.

End Geometry.

(** ** The signed engine: [type Int128 struct { hi, lo Uint64 }] *)

Module Int128.

Record t : Type := mk { hi : Z; lo : Z }.

Definition int128SignBit : Z := 0x8000000000000000.

Definition MaxInt128 : t := mk 0x7FFFFFFFFFFFFFFF 0xFFFFFFFFFFFFFFFF.
Definition MinInt128 : t := mk 0x8000000000000000 0.
Definition zeroInt128 : t := mk 0 0.
Definition minusOne : t := mk 0xFFFFFFFFFFFFFFFF 0xFFFFFFFFFFFFFFFF.

(** Struct equality [i == n]. *)
Definition eqb (i n : t) : bool := (hi i =? hi n) && (lo i =? lo n).

Definition Int128FromInt64 (v : Z) : t :=
  mk (if v <? 0 then maxUint64 else 0) (Geometry.Uint64 v).

(** [Int128.AsUint128] and [Uint128.AsInt128]: direct casts. *)
Definition AsUint128 (i : t) : Uint128.t := Uint128.mk (hi i) (lo i).
Definition AsInt128 (u : Uint128.t) : t := mk (Uint128.hi u) (Uint128.lo u).

Definition Add (i n : t) : t :=
  let '(l, carry) := Geometry.Add64 (lo i) (lo n) 0 in
  let '(h, _) := Geometry.Add64 (hi i) (hi n) carry in
  mk h l.

Definition Add64 (i : t) (n : Z) : t :=
  let '(l, carry) := Geometry.Add64 (lo i) (Geometry.Uint64 n) 0 in
  if n <? 0
  then mk (wrap64 (wrap64 (hi i + maxUint64) + carry)) l
  else mk (wrap64 (hi i + carry)) l.

Definition Sub (i n : t) : t :=
  let '(l, borrowed) := Geometry.Sub64 (lo i) (lo n) 0 in
  let '(h, _) := Geometry.Sub64 (hi i) (hi n) borrowed in
  mk h l.

Definition Sub64 (i : t) (n : Z) : t :=
  if n <? 0 then
    let '(l, borrowed) := Geometry.Sub64 (lo i) (Geometry.Uint64 n) 0 in
    mk (wrap64 (wrap64 (hi i - maxUint64) - borrowed)) l
  else
    let '(l, borrowed) := Geometry.Sub64 (lo i) (Geometry.Uint64 n) 0 in
    mk (wrap64 (hi i - borrowed)) l.

Definition Neg (i : t) : t :=
  if (hi i =? 0) && (lo i =? 0) then zeroInt128
  else if eqb i MinInt128 then i
  else
    let v :=
      if negb (Z.land (hi i) int128SignBit =? 0)
      then mk (not64 (hi i)) (not64 (wrap64 (lo i - 1)))
      else mk (not64 (hi i)) (wrap64 (not64 (lo i) + 1)) in
    if lo v =? 0 then mk (wrap64 (hi v + 1)) (lo v) else v.

Definition Cmp (i n : t) : Z :=
  if (hi i =? hi n) && (lo i =? lo n) then 0
  else if Z.land (hi i) int128SignBit =? Z.land (hi n) int128SignBit then
    if (hi n <? hi i) || ((hi i =? hi n) && (lo n <? lo i)) then 1 else -1
  else if Z.land (hi i) int128SignBit =? 0 then 1
  else -1.

Definition Cmp64 (i : t) (n : Z) : Z :=
  let nlo := Geometry.Uint64 n in
  let nhi := if n <? 0 then maxUint64 else 0 in
  if (hi i =? nhi) && (lo i =? nlo) then 0
  else if Z.land (hi i) int128SignBit =? Z.land nhi int128SignBit then
    if (nhi <? hi i) || ((hi i =? nhi) && (nlo <? lo i)) then 1 else -1
  else if Z.land (hi i) int128SignBit =? 0 then 1
  else -1.

Definition LessThan (i n : t) : bool :=
  if Z.land (hi i) int128SignBit =? Z.land (hi n) int128SignBit then
    (hi i <? hi n) || ((hi i =? hi n) && (lo i <? lo n))
  else if negb (Z.land (hi i) int128SignBit =? 0) then true
  else false.

Definition QuoRem (i by_ : t) : option (t * t) :=
  let '(qSign, rSign, i) :=
    if LessThan i zeroInt128 then (-1, -1, Neg i) else (1, 1, i) in
  let '(qSign, by_) :=
    if LessThan by_ zeroInt128 then (- qSign, Neg by_) else (qSign, by_) in
  '(qu, ru) <- Uint128.QuoRem (AsUint128 i) (AsUint128 by_) ;;
  let q := AsInt128 qu in
  let r := AsInt128 ru in
  let q := if qSign <? 0 then Neg q else q in
  let r := if rSign <? 0 then Neg r else r in
  Some (q, r).

Definition Quo (i by_ : t) : option t :=
  let '(qSign, i) :=
    if LessThan i zeroInt128 then (-1, Neg i) else (1, i) in
  let '(qSign, by_) :=
    if LessThan by_ zeroInt128 then (- qSign, Neg by_) else (qSign, by_) in
  qu <- Uint128.Quo (AsUint128 i) (AsUint128 by_) ;;
  let q := AsInt128 qu in
  Some (if qSign <? 0 then Neg q else q).

Definition Rem (i by_ : t) : option t :=
  '(_, r) <- QuoRem i by_ ;; Some r.

(** [by = -by] on [int64] wraps for [minInt64]; [Uint64(by)] reinterprets. *)
Definition QuoRem64 (i : t) (by_ : Z) : option (t * t) :=
  let ineg := negb (Z.land (hi i) int128SignBit =? 0) in
  let i := if ineg then Neg i else i in
  let byneg := by_ <? 0 in
  let by_ := if byneg then signed64 (wrap64 (- by_)) else by_ in
  let n := Geometry.Uint64 by_ in
  '(q, r) <-
    (if hi i <? n then
       '(ql, rl) <- Geometry.Div64 (hi i) (lo i) n ;;
       Some (mk 0 ql, mk 0 rl)
     else
       '(qh, rl) <- Geometry.Div64 0 (hi i) n ;;
       '(ql, rl) <- Geometry.Div64 rl (lo i) n ;;
       Some (mk qh ql, mk 0 rl)) ;;
  let q := if xorb ineg byneg then Neg q else q in
  let r := if ineg then Neg r else r in
  Some (q, r).

Definition Quo64 (i : t) (by_ : Z) : option t :=
  let ineg := negb (Z.land (hi i) int128SignBit =? 0) in
  let i := if ineg then Neg i else i in
  let byneg := by_ <? 0 in
  let by_ := if byneg then signed64 (wrap64 (- by_)) else by_ in
  let n := Geometry.Uint64 by_ in
  q <-
    (if hi i <? n then
       '(ql, _) <- Geometry.Div64 (hi i) (lo i) n ;;
       Some (mk 0 ql)
     else
       '(qh, rlo) <- Geometry.Div64 0 (hi i) n ;;
       '(ql, _) <- Geometry.Div64 rlo (lo i) n ;;
       Some (mk qh ql)) ;;
  Some (if xorb ineg byneg then Neg q else q).

Definition Rem64 (i : t) (by_ : Z) : option t :=
  let ineg := negb (Z.land (hi i) int128SignBit =? 0) in
  let i := if ineg then Neg i else i in
  let by_ := if by_ <? 0 then signed64 (wrap64 (- by_)) else by_ in
  let n := Geometry.Uint64 by_ in
  r <-
    (if hi i <? n then
       '(_, rl) <- Geometry.Div64 (hi i) (lo i) n ;;
       Some (mk 0 rl)
     else
       '(_, rl) <- Geometry.Div64 0 (hi i) n ;;
       '(_, rl) <- Geometry.Div64 rl (lo i) n ;;
       Some (mk 0 rl)) ;;
  Some (if ineg then Neg r else r).

(** The number an [Int128] stands for (two's complement). *)
Definition toZ (i : t) : Z :=
  let u := hi i * 2 ^ 64 + lo i in
  if u <? 2 ^ 127 then u else u - 2 ^ 128.
Definition wf (i : t) : Prop := 0 <= hi i < 2 ^ 64 /\ 0 <= lo i < 2 ^ 64.

(** [truncates A B Q R]: [Q] and [R] are the quotient and remainder of
    the truncated (T-) division of [A] by [B]: the quotient is rounded
    toward zero and the remainder has the sign of the dividend. *)
Definition truncates (A B Q R : Z) : Prop :=
  A = B * Q + R /\
  Z.abs Q = Z.abs A / Z.abs B /\
  Q = Z.quot A B /\
  Z.abs R < Z.abs B /\
  (R = 0 \/ Z.sgn R = Z.sgn A).

Definition minInt128AsAbsUint128 : Uint128.t := Uint128.mk 0x8000000000000000 0.
Definition maxInt128AsUint128 : Uint128.t :=
  Uint128.mk 0x7FFFFFFFFFFFFFFF 0xFFFFFFFFFFFFFFFF.

(** [Int128FromBigInt] on a 64-bit platform: [(out, accurate)]. *)
Definition Int128FromBigInt (v : Z) : t * bool :=
  let neg := v <? 0 in
  let lw := words_len v in
  let '(u, accurate) :=
    if lw =? 0 then (Uint128.mk 0 0, true)
    else if lw =? 1 then (Uint128.mk 0 (word_at v 0), true)
    else if lw =? 2 then (Uint128.mk (word_at v 1) (word_at v 0), true)
    else (Uint128.MaxUint128, false) in
  if negb neg then
    let cmp := Uint128.Cmp u maxInt128AsUint128 in
    if cmp =? 0 then (MaxInt128, accurate)
    else if 0 <? cmp then (MaxInt128, false)
    else (AsInt128 u, accurate)
  else
    let cmp := Uint128.Cmp u minInt128AsAbsUint128 in
    if cmp =? 0 then (MinInt128, accurate)
    else if 0 <? cmp then (MinInt128, false)
    else (Neg (AsInt128 u), accurate).

Definition Int128FromString (s : string) : option (t * bool) :=
  match SetString10 s with
  | None => None
  | Some b => Some (Int128FromBigInt b)
  end.

(** [AsBigInt]: [hi << 64 + lo], and for a set sign bit
    [-((b xor maxBigUint128) + 1)]. *)
Definition AsBigInt (i : t) : Z :=
  let neg := negb (Z.land (hi i) int128SignBit =? 0) in
  let b := if 0 <? hi i then Z.shiftl (hi i) 64 else 0 in
  let b := b + lo i in
  if neg then - (Z.lxor b (2 ^ 128 - 1) + 1) else b.

Definition String (i : t) : string := BigString (AsBigInt i).

Definition MarshalText (i : t) : string := String i.

Definition MarshalJSON (i : t) : string := Uint128.quoted (String i).

Definition UnmarshalText (bts : string) : outcome t :=
  match Int128FromString bts with
  | None => Failed
  | Some (v, _) => Decoded v
  end.

Definition UnmarshalJSON (bts : string) : outcome t :=
  match bts with
  | EmptyString => Panicked
  | String.String c _ =>
    if Ascii.eqb c Uint128.quote then
      match String.get (String.length bts - 1) bts with
      | Some last =>
        if negb (Ascii.eqb last Uint128.quote) then Failed
        else if (String.length bts <? 2)%nat then Panicked
        else UnmarshalText (Uint128.strip_ends bts)
      | None => Panicked
      end
    else UnmarshalText bts
  end.

(** [AsFloat64]; [(^i.lo) + 1] is a [Uint64] sum and wraps. *)
Definition AsFloat64 (i : t) : float64 :=
  if hi i =? 0 then
    if lo i =? 0 then S754_zero false else f64_of_uint64 (lo i)
  else if hi i =? maxUint64 then
    f64_neg (f64_of_uint64 (wrap64 (not64 (lo i) + 1)))
  else if Z.land (hi i) int128SignBit =? 0 then
    f64_add (f64_mul (f64_of_uint64 (hi i)) maxUint64Float) (f64_of_uint64 (lo i))
  else
    f64_add (f64_mul (f64_neg (f64_of_uint64 (not64 (hi i)))) maxUint64Float)
            (f64_neg (f64_of_uint64 (not64 (lo i)))).

(** *** Constructors and checked conversions *)

Definition Int128FromRaw (h l : Z) : t := mk h l.

Definition Int128FromUint64 (v : Z) : t := mk 0 v.

Definition MustInt128FromString (s : string) : option t :=
  match Int128FromString s with
  | None => None
  | Some (out, inRange) => if negb inRange then None else Some out
  end.

Definition MustInt128FromBigInt (b : Z) : option t :=
  let '(out, inRange) := Int128FromBigInt b in
  if negb inRange then None else Some out.

(** [Scan]: [tok] is what [state.Token(true, nil)] yields, [None] when it
    returns an error.  The receiver is assigned only on [Decoded]. *)
Definition Scan (tok : option string) : outcome t :=
  match tok with
  | None => Failed
  | Some ts =>
    match Int128FromString ts with
    | None => Failed
    | Some (v, inRange) => if negb inRange then Failed else Decoded v
    end
  end.

Definition IsZero (i : t) : bool := (lo i =? 0) && (hi i =? 0).

Definition Raw (i : t) : Z * Z := (hi i, lo i).

(** [Int128.IsUint128] and [Uint128.IsInt128]: the sign-bit tests that go
    with the direct casts. *)
Definition IsUint128 (i : t) : bool := Z.land (hi i) int128SignBit =? 0.

Definition IsInt128 (u : Uint128.t) : bool :=
  Z.land (Uint128.hi u) int128SignBit =? 0.

(** [AsInt64]: [-int64(^(i.lo - 1))] for a set sign bit, [int64(i.lo)]
    otherwise; the negation is on [int64] and wraps. *)
Definition AsInt64 (i : t) : Z :=
  if negb (Z.land (hi i) int128SignBit =? 0)
  then signed64 (wrap64 (- signed64 (not64 (wrap64 (lo i - 1)))))
  else signed64 (lo i).

Definition IsInt64 (i : t) : bool :=
  if negb (Z.land (hi i) int128SignBit =? 0)
  then (hi i =? maxUint64) && (0x8000000000000000 <=? lo i)
  else (hi i =? 0) && (lo i <=? maxInt64).

Definition MustInt64 (i : t) : option Z :=
  if negb (Z.land (hi i) int128SignBit =? 0) then
    if (hi i =? maxUint64) && (0x8000000000000000 <=? lo i)
    then Some (signed64 (wrap64 (- signed64 (not64 (wrap64 (lo i - 1))))))
    else None
  else
    if (hi i =? 0) && (lo i <=? maxInt64)
    then Some (signed64 (lo i))
    else None.

Definition AsUint64 (i : t) : Z := lo i.

Definition IsUint64 (i : t) : bool := hi i =? 0.

Definition MustUint64 (i : t) : option Z :=
  if negb (hi i =? 0) then None else Some (lo i).

Definition Sign (i : t) : Z :=
  if eqb i zeroInt128 then 0
  else if Z.land (hi i) int128SignBit =? 0 then 1
  else -1.

(** *** Increment, decrement, absolute value *)

Definition Inc (i : t) : t :=
  let l := wrap64 (lo i + 1) in
  if l <? lo i then mk (wrap64 (hi i + 1)) l else mk (hi i) l.

Definition Dec (i : t) : t :=
  let l := wrap64 (lo i - 1) in
  if lo i <? l then mk (wrap64 (hi i - 1)) l else mk (hi i) l.

Definition Abs (i : t) : t :=
  if negb (Z.land (hi i) int128SignBit =? 0) then
    let h := not64 (hi i) in
    let l := not64 (wrap64 (lo i - 1)) in
    if l =? 0 then mk (wrap64 (h + 1)) l else mk h l
  else i.

Definition minInt128AsUint128 : Uint128.t := Uint128.mk 0x8000000000000000 0.

Definition AbsUint128 (i : t) : Uint128.t :=
  if eqb i MinInt128 then minInt128AsUint128
  else if negb (Z.land (hi i) int128SignBit =? 0) then
    let h := not64 (hi i) in
    let l := not64 (wrap64 (lo i - 1)) in
    if l =? 0 then Uint128.mk (wrap64 (h + 1)) l else Uint128.mk h l
  else Uint128.mk (hi i) (lo i).

(** *** Ordering predicates *)

Definition Equal (i n : t) : bool := (hi i =? hi n) && (lo i =? lo n).

Definition Equal64 (i : t) (n : Z) : bool :=
  let nlo := Geometry.Uint64 n in
  let nhi := if n <? 0 then maxUint64 else 0 in
  (hi i =? nhi) && (lo i =? nlo).

Definition GreaterThan (i n : t) : bool :=
  if Z.land (hi i) int128SignBit =? Z.land (hi n) int128SignBit then
    (hi n <? hi i) || ((hi i =? hi n) && (lo n <? lo i))
  else if Z.land (hi i) int128SignBit =? 0 then true
  else false.

Definition GreaterThan64 (i : t) (n : Z) : bool :=
  let nlo := Geometry.Uint64 n in
  let nhi := if n <? 0 then maxUint64 else 0 in
  if Z.land (hi i) int128SignBit =? Z.land nhi int128SignBit then
    (nhi <? hi i) || ((hi i =? nhi) && (nlo <? lo i))
  else if Z.land (hi i) int128SignBit =? 0 then true
  else false.

Definition GreaterOrEqualTo (i n : t) : bool :=
  if (hi i =? hi n) && (lo i =? lo n) then true
  else if Z.land (hi i) int128SignBit =? Z.land (hi n) int128SignBit then
    (hi n <? hi i) || ((hi i =? hi n) && (lo n <? lo i))
  else if Z.land (hi i) int128SignBit =? 0 then true
  else false.

Definition GreaterOrEqualTo64 (i : t) (n : Z) : bool :=
  let nlo := Geometry.Uint64 n in
  let nhi := if n <? 0 then maxUint64 else 0 in
  if (hi i =? nhi) && (lo i =? nlo) then true
  else if Z.land (hi i) int128SignBit =? Z.land nhi int128SignBit then
    (nhi <? hi i) || ((hi i =? nhi) && (nlo <? lo i))
  else if Z.land (hi i) int128SignBit =? 0 then true
  else false.

Definition LessThan64 (i : t) (n : Z) : bool :=
  let nlo := Geometry.Uint64 n in
  let nhi := if n <? 0 then maxUint64 else 0 in
  if Z.land (hi i) int128SignBit =? Z.land nhi int128SignBit then
    (hi i <? nhi) || ((hi i =? nhi) && (lo i <? nlo))
  else if negb (Z.land (hi i) int128SignBit =? 0) then true
  else false.

Definition LessOrEqualTo (i n : t) : bool :=
  if (hi i =? hi n) && (lo i =? lo n) then true
  else if Z.land (hi i) int128SignBit =? Z.land (hi n) int128SignBit then
    (hi i <? hi n) || ((hi i =? hi n) && (lo i <? lo n))
  else if negb (Z.land (hi i) int128SignBit =? 0) then true
  else false.

Definition LessOrEqualTo64 (i : t) (n : Z) : bool :=
  let nlo := Geometry.Uint64 n in
  let nhi := if n <? 0 then maxUint64 else 0 in
  if (hi i =? nhi) && (lo i =? nlo) then true
  else if Z.land (hi i) int128SignBit =? Z.land nhi int128SignBit then
    (hi i <? nhi) || ((hi i =? nhi) && (lo i <? nlo))
  else if negb (Z.land (hi i) int128SignBit =? 0) then true
  else false.

(** *** Multiplication *)

Definition Mul (i n : t) : t :=
  let '(h, l) := Geometry.Mul64 (lo i) (lo n) in
  mk (wrap64 (h + wrap64 (wrap64 (hi i * lo n) + wrap64 (lo i * hi n)))) l.

Definition Mul64 (i : t) (n : Z) : t :=
  let nlo := Geometry.Uint64 n in
  let nhi := if n <? 0 then maxUint64 else 0 in
  let '(h, l) := Geometry.Mul64 (lo i) nlo in
  mk (wrap64 (h + wrap64 (wrap64 (hi i * nlo) + wrap64 (lo i * nhi)))) l.

(** [DifferenceInt128]: the words are compared as unsigned [Uint64]s. *)
Definition DifferenceInt128 (a b : t) : t :=
  if hi b <? hi a then Sub a b
  else if hi a <? hi b then Sub b a
  else if lo b <? lo a then Sub a b
  else if lo a <? lo b then Sub b a
  else mk 0 0.

End Int128.

(** * Properties *)

(** ** Word arithmetic *)

Ltac pow_consts :=
  change (2 ^ 128) with 340282366920938463463374607431768211456 in *;
  change (2 ^ 127) with 170141183460469231731687303715884105728 in *;
  change (2 ^ 64) with 18446744073709551616 in *;
  change (2 ^ 63) with 9223372036854775808 in *;
  change (2 ^ 32) with 4294967296 in *.

Ltac unfold_words :=
  unfold Geometry.Add64, Geometry.Sub64, Geometry.Uint64,
    Bits.Add64, Bits.Sub64, Bits.Mul64, not64, wrap64, signed64,
    maxUint64, maxInt64, minInt64 in *.

(** Closes goals of linear word arithmetic with fixed moduli. *)
Ltac word_lia := unfold_words; pow_consts; Z.div_mod_to_equations; lia.

(** Case analysis on the innermost comparison of the goal. *)
Ltac no_if t :=
  lazymatch t with
  | context [if _ then _ else _] => fail
  | _ => idtac
  end.

Ltac case_test :=
  match goal with
  | |- context [Z.eqb ?a ?b] => no_if a; no_if b; destruct (Z.eqb_spec a b)
  | |- context [Z.ltb ?a ?b] => no_if a; no_if b; destruct (Z.ltb_spec a b)
  | |- context [Z.leb ?a ?b] => no_if a; no_if b; destruct (Z.leb_spec a b)
  end.

Lemma wrap64_range z : 0 <= wrap64 z < 2 ^ 64.
Proof. unfold wrap64. apply Z.mod_pos_bound. reflexivity. Qed.

Lemma wrap64_small z : 0 <= z < 2 ^ 64 -> wrap64 z = z.
Proof. intros H. unfold wrap64. apply Z.mod_small. exact H. Qed.

Lemma wrap64_idem z : wrap64 (wrap64 z) = wrap64 z.
Proof. apply wrap64_small, wrap64_range. Qed.

Lemma u128_eq (a b : Uint128.t) :
  Uint128.hi a = Uint128.hi b -> Uint128.lo a = Uint128.lo b -> a = b.
Proof. destruct a, b; simpl; intros -> ->; reflexivity. Qed.

Lemma i128_eq (a b : Int128.t) :
  Int128.hi a = Int128.hi b -> Int128.lo a = Int128.lo b -> a = b.
Proof. destruct a, b; simpl; intros -> ->; reflexivity. Qed.

Lemma u128_toZ_range u : Uint128.wf u -> 0 <= Uint128.toZ u < 2 ^ 128.
Proof. unfold Uint128.wf, Uint128.toZ. pow_consts. lia. Qed.

Lemma u128_toZ_inj a b :
  Uint128.wf a -> Uint128.wf b -> Uint128.toZ a = Uint128.toZ b -> a = b.
Proof.
  unfold Uint128.wf, Uint128.toZ. intros Ha Hb H.
  apply u128_eq; pow_consts; lia.
Qed.

Lemma u128_Add_spec a b :
  Uint128.wf a -> Uint128.wf b ->
  Uint128.wf (Uint128.Add a b) /\
  Uint128.toZ (Uint128.Add a b) = (Uint128.toZ a + Uint128.toZ b) mod 2 ^ 128.
Proof.
  unfold Uint128.wf, Uint128.toZ, Uint128.Add. intros Ha Hb. simpl.
  split; word_lia.
Qed.

Lemma u128_Sub_spec a b :
  Uint128.wf a -> Uint128.wf b ->
  Uint128.wf (Uint128.Sub a b) /\
  Uint128.toZ (Uint128.Sub a b) = (Uint128.toZ a - Uint128.toZ b) mod 2 ^ 128.
Proof.
  unfold Uint128.wf, Uint128.toZ, Uint128.Sub. intros Ha Hb. simpl.
  destruct (Uint128.lo a - Uint128.lo b - 0 <? 0) eqn:E;
    [apply Z.ltb_lt in E | apply Z.ltb_ge in E]; simpl; split; word_lia.
Qed.

Lemma u128_Inc_spec a :
  Uint128.wf a ->
  Uint128.wf (Uint128.Inc a) /\
  Uint128.toZ (Uint128.Inc a) = (Uint128.toZ a + 1) mod 2 ^ 128.
Proof.
  unfold Uint128.wf, Uint128.toZ, Uint128.Inc. intros Ha. simpl.
  split; word_lia.
Qed.

Lemma u128_Dec_spec a :
  Uint128.wf a ->
  Uint128.wf (Uint128.Dec a) /\
  Uint128.toZ (Uint128.Dec a) = (Uint128.toZ a - 1) mod 2 ^ 128.
Proof.
  unfold Uint128.wf, Uint128.toZ, Uint128.Dec. intros Ha. simpl.
  destruct (Uint128.lo a - 1 - 0 <? 0) eqn:E;
    [apply Z.ltb_lt in E | apply Z.ltb_ge in E]; simpl; split; word_lia.
Qed.

(** ** Wrap-around of addition *)

(** C4: arithmetic wraps modulo 2^128.  [Add] is addition modulo 2^128;
    adding [MaxUint128] and then 1 gives back the operand; [MaxUint128.Inc()]
    is zero; [MaxInt128.Add64(1)] is [MinInt128]. *)
Theorem add_wraps_mod_2_128 (a b : Uint128.t) :
  Uint128.wf a -> Uint128.wf b ->
  Uint128.toZ (Uint128.Add a b) = (Uint128.toZ a + Uint128.toZ b) mod 2 ^ 128 /\
  Uint128.Add (Uint128.Add a Uint128.MaxUint128) (Uint128.Uint128From64 1) = a /\
  Uint128.Inc Uint128.MaxUint128 = Uint128.zeroUint128 /\
  Int128.Add64 Int128.MaxInt128 1 = Int128.MinInt128.
Proof.
  intros Ha Hb. split; [apply u128_Add_spec; assumption|].
  split; [|split; reflexivity].
  unfold Uint128.wf in Ha.
  unfold Uint128.Add, Uint128.MaxUint128, Uint128.Uint128From64. simpl.
  apply u128_eq; simpl; word_lia.
Qed.

Lemma add_wraps_mod_2_128_witness :
  Uint128.toZ (Uint128.Add (Uint128.mk 7 (2 ^ 64 - 1)) (Uint128.mk (2 ^ 64 - 1) 9))
  = (Uint128.toZ (Uint128.mk 7 (2 ^ 64 - 1)) + Uint128.toZ (Uint128.mk (2 ^ 64 - 1) 9))
      mod 2 ^ 128 /\
  Uint128.Add (Uint128.Add (Uint128.mk 7 (2 ^ 64 - 1)) Uint128.MaxUint128)
    (Uint128.Uint128From64 1) = Uint128.mk 7 (2 ^ 64 - 1) /\
  Uint128.Inc Uint128.MaxUint128 = Uint128.zeroUint128 /\
  Int128.Add64 Int128.MaxInt128 1 = Int128.MinInt128.
Proof.
  apply (add_wraps_mod_2_128 (Uint128.mk 7 (2 ^ 64 - 1)) (Uint128.mk (2 ^ 64 - 1) 9));
    unfold Uint128.wf; simpl; lia.
Defined.

(** ** The 64-bit operand variants *)

(** C10: the 64-bit-operand variants agree with promoting the operand to
    128 bits first, on both engines. *)
Theorem op64_agrees_with_promotion (i : Int128.t) (n : Z) (u : Uint128.t) (m : Z) :
  Uint128.wf u ->
  Int128.Add64 i n = Int128.Add i (Int128.Int128FromInt64 n) /\
  Int128.Sub64 i n = Int128.Sub i (Int128.Int128FromInt64 n) /\
  Int128.Cmp64 i n = Int128.Cmp i (Int128.Int128FromInt64 n) /\
  Uint128.Add64 u m = Uint128.Add u (Uint128.Uint128From64 m) /\
  Uint128.Sub64 u m = Uint128.Sub u (Uint128.Uint128From64 m) /\
  Uint128.Cmp64 u m = Uint128.Cmp u (Uint128.Uint128From64 m).
Proof.
  intros [Hh Hl].
  refine (conj _ (conj _ (conj _ (conj _ (conj _ _))))).
  - unfold Int128.Add64, Int128.Add, Int128.Int128FromInt64. simpl.
    destruct (n <? 0); apply i128_eq; simpl; try reflexivity; word_lia.
  - unfold Int128.Sub64, Int128.Sub, Int128.Int128FromInt64. simpl.
    destruct (n <? 0); simpl;
      destruct (Int128.lo i - Geometry.Uint64 n - 0 <? 0); simpl;
      apply i128_eq; simpl; try reflexivity; word_lia.
  - unfold Int128.Cmp64, Int128.Cmp, Int128.Int128FromInt64. simpl. reflexivity.
  - unfold Uint128.Add64, Uint128.Add, Uint128.Uint128From64. simpl.
    apply u128_eq; simpl; try reflexivity; word_lia.
  - unfold Uint128.Sub64, Uint128.Sub, Uint128.Uint128From64. simpl.
    destruct (Uint128.lo u - m - 0 <? 0); simpl;
      apply u128_eq; simpl; try reflexivity; word_lia.
  - unfold Uint128.Cmp64, Uint128.Cmp, Uint128.Uint128From64. simpl.
    destruct (Z.eqb_spec (Uint128.hi u) 0) as [E|E].
    + rewrite E. simpl. reflexivity.
    + destruct (Z.ltb_spec 0 (Uint128.hi u)); [reflexivity | lia].
Qed.

Lemma op64_agrees_with_promotion_witness :
  Int128.Add64 (Int128.mk 3 5) (-9) = Int128.Add (Int128.mk 3 5) (Int128.Int128FromInt64 (-9)) /\
  Int128.Sub64 (Int128.mk 3 5) (-9) = Int128.Sub (Int128.mk 3 5) (Int128.Int128FromInt64 (-9)) /\
  Int128.Cmp64 (Int128.mk 3 5) (-9) = Int128.Cmp (Int128.mk 3 5) (Int128.Int128FromInt64 (-9)) /\
  Uint128.Add64 (Uint128.mk 1 2) 7 = Uint128.Add (Uint128.mk 1 2) (Uint128.Uint128From64 7) /\
  Uint128.Sub64 (Uint128.mk 1 2) 7 = Uint128.Sub (Uint128.mk 1 2) (Uint128.Uint128From64 7) /\
  Uint128.Cmp64 (Uint128.mk 1 2) 7 = Uint128.Cmp (Uint128.mk 1 2) (Uint128.Uint128From64 7).
Proof.
  apply (op64_agrees_with_promotion (Int128.mk 3 5) (-9) (Uint128.mk 1 2) 7).
  unfold Uint128.wf; simpl; lia.
Defined.

(** ** Negation *)

Lemma signbit_land h :
  0 <= h < 2 ^ 64 ->
  Z.land h Int128.int128SignBit = if h <? 2 ^ 63 then 0 else 2 ^ 63.
Proof.
  intros Hh. change Int128.int128SignBit with (2 ^ 63).
  destruct (Z.ltb_spec h (2 ^ 63)) as [Hlt|Hge].
  - apply Z.bits_inj'. intros k Hk.
    rewrite Z.land_spec, Z.pow2_bits_eqb, Z.testbit_0_l by lia.
    destruct (Z.eqb_spec 63 k) as [<-|]; [|apply andb_false_r].
    rewrite andb_true_r. apply Z.testbit_false; [lia|].
    rewrite Z.div_small by lia. reflexivity.
  - apply Z.bits_inj'. intros k Hk.
    rewrite Z.land_spec, Z.pow2_bits_eqb by lia.
    destruct (Z.eqb_spec 63 k) as [<-|]; [|apply andb_false_r].
    rewrite andb_true_r. apply Z.testbit_true; [lia|].
    pow_consts. Z.div_mod_to_equations. lia.
Qed.

Lemma i128_toZ_range i :
  Int128.wf i -> - 2 ^ 127 <= Int128.toZ i < 2 ^ 127.
Proof.
  unfold Int128.wf, Int128.toZ. intros H.
  destruct (Z.ltb_spec (Int128.hi i * 2 ^ 64 + Int128.lo i) (2 ^ 127));
    pow_consts; lia.
Qed.

Lemma i128_toZ_inj a b :
  Int128.wf a -> Int128.wf b -> Int128.toZ a = Int128.toZ b -> a = b.
Proof.
  unfold Int128.wf, Int128.toZ. intros Ha Hb.
  destruct (Z.ltb_spec (Int128.hi a * 2 ^ 64 + Int128.lo a) (2 ^ 127));
  destruct (Z.ltb_spec (Int128.hi b * 2 ^ 64 + Int128.lo b) (2 ^ 127));
    intros Heq; apply i128_eq; pow_consts; lia.
Qed.

(** [Neg] is negation modulo 2^128 on the bit pattern. *)
Lemma i128_Neg_spec i :
  Int128.wf i ->
  Int128.wf (Int128.Neg i) /\
  Int128.hi (Int128.Neg i) * 2 ^ 64 + Int128.lo (Int128.Neg i)
  = (- (Int128.hi i * 2 ^ 64 + Int128.lo i)) mod 2 ^ 128.
Proof.
  intros [Hh Hl].
  unfold Int128.wf, Int128.Neg, Int128.eqb, Int128.MinInt128, Int128.zeroInt128.
  rewrite signbit_land by assumption.
  cbn [Int128.hi Int128.lo].
  repeat (case_test; cbn [Int128.hi Int128.lo negb andb orb]).
  all: try (exfalso; word_lia).
  all: split; word_lia.
Qed.

Lemma i128_Neg_toZ i :
  Int128.wf i -> i <> Int128.MinInt128 ->
  Int128.toZ (Int128.Neg i) = - Int128.toZ i.
Proof.
  intros Hw Hne. destruct (i128_Neg_spec i Hw) as [Hw' Hv].
  assert (Hm : Int128.hi i * 2 ^ 64 + Int128.lo i <> 2 ^ 127).
  { intros E. apply Hne. destruct Hw. apply i128_eq; simpl; pow_consts; lia. }
  unfold Int128.toZ. rewrite Hv. destruct Hw as [Hh Hl].
  destruct (Z.ltb_spec (Int128.hi i * 2 ^ 64 + Int128.lo i) (2 ^ 127));
  destruct (Z.ltb_spec ((- (Int128.hi i * 2 ^ 64 + Int128.lo i)) mod 2 ^ 128) (2 ^ 127));
    pow_consts; Z.div_mod_to_equations; lia.
Qed.

(** C5: negation is an involution; on every value but [MinInt128] it is
    the arithmetic negation, and [MinInt128] is the one value on which it
    overflows and returns its operand. *)
Theorem neg_involution_min_fixed (a : Int128.t) :
  Int128.wf a ->
  (a <> Int128.MinInt128 ->
     Int128.Neg (Int128.Neg a) = a /\ Int128.toZ (Int128.Neg a) = - Int128.toZ a) /\
  Int128.Neg Int128.MinInt128 = Int128.MinInt128 /\
  (Int128.toZ (Int128.Neg a) <> - Int128.toZ a <-> a = Int128.MinInt128).
Proof.
  intros Hw. split; [|split].
  - intros Hne. split; [|apply i128_Neg_toZ; assumption].
    destruct (i128_Neg_spec a Hw) as [Hw1 Hv1].
    destruct (i128_Neg_spec _ Hw1) as [Hw2 Hv2].
    rewrite Hv1 in Hv2. destruct Hw as [Hh Hl], Hw2 as [Hh2 Hl2].
    apply i128_eq; pow_consts; Z.div_mod_to_equations; lia.
  - reflexivity.
  - split.
    + intros Hd. destruct (Int128.eqb a Int128.MinInt128) eqn:E.
      * unfold Int128.eqb in E. apply andb_true_iff in E. destruct E as [E1 E2].
        apply Z.eqb_eq in E1, E2. apply i128_eq; assumption.
      * exfalso. apply Hd. apply i128_Neg_toZ; [assumption|].
        intros ->. discriminate E.
    + intros ->. vm_compute. discriminate.
Qed.

Lemma neg_involution_min_fixed_witness :
  (Int128.mk 0xFFFFFFFFFFFFFFFF 0 <> Int128.MinInt128 ->
     Int128.Neg (Int128.Neg (Int128.mk 0xFFFFFFFFFFFFFFFF 0)) = Int128.mk 0xFFFFFFFFFFFFFFFF 0 /\
     Int128.toZ (Int128.Neg (Int128.mk 0xFFFFFFFFFFFFFFFF 0))
     = - Int128.toZ (Int128.mk 0xFFFFFFFFFFFFFFFF 0)) /\
  Int128.Neg Int128.MinInt128 = Int128.MinInt128 /\
  (Int128.toZ (Int128.Neg (Int128.mk 0xFFFFFFFFFFFFFFFF 0))
     <> - Int128.toZ (Int128.mk 0xFFFFFFFFFFFFFFFF 0)
   <-> Int128.mk 0xFFFFFFFFFFFFFFFF 0 = Int128.MinInt128).
Proof.
  apply (neg_involution_min_fixed (Int128.mk 0xFFFFFFFFFFFFFFFF 0)).
  unfold Int128.wf; simpl; lia.
Defined.

(** ** Bits of words *)

Lemma testbit_high64 w e : 0 <= w < 2 ^ 64 -> 64 <= e -> Z.testbit w e = false.
Proof.
  intros Hw He. destruct (Z.eq_dec w 0) as [->|Hn]; [apply Z.testbit_0_l|].
  apply Z.bits_above_log2; [lia|].
  assert (Z.log2 w < 64) by (apply Z.log2_lt_pow2; lia). lia.
Qed.

Lemma shl64_testbit x n j :
  0 <= j ->
  Z.testbit (shl64 x n) j =
  if 64 <=? n then false else (j <? 64) && Z.testbit x (j - n).
Proof.
  intros Hj. unfold shl64, wrap64. destruct (64 <=? n); [apply Z.testbit_0_l|].
  rewrite Z.testbit_mod_pow2 by lia. rewrite Z.shiftl_spec by lia. reflexivity.
Qed.

Lemma shr64_testbit x n j :
  0 <= j ->
  Z.testbit (shr64 x n) j = if 64 <=? n then false else Z.testbit x (j + n).
Proof.
  intros Hj. unfold shr64. destruct (64 <=? n); [apply Z.testbit_0_l|].
  apply Z.shiftr_spec. exact Hj.
Qed.

Lemma hi_lo_lor h l :
  0 <= l < 2 ^ 64 -> h * 2 ^ 64 + l = Z.lor (Z.shiftl h 64) l.
Proof.
  intros Hl. rewrite Z.shiftl_mul_pow2 by lia.
  symmetry. apply Z.or_to_plus.
  apply Z.bits_inj'. intros k Hk.
  rewrite Z.land_spec, Z.testbit_0_l.
  destruct (Z.ltb_spec k 64).
  - rewrite Z.mul_pow2_bits_low by lia. reflexivity.
  - rewrite (testbit_high64 l k) by lia. apply andb_false_r.
Qed.

Lemma u128_testbit u j :
  Uint128.wf u -> 0 <= j ->
  Z.testbit (Uint128.toZ u) j =
  if j <? 64 then Z.testbit (Uint128.lo u) j else Z.testbit (Uint128.hi u) (j - 64).
Proof.
  intros [Hh Hl] Hj. unfold Uint128.toZ. rewrite hi_lo_lor by assumption.
  rewrite Z.lor_spec, Z.shiftl_spec by lia.
  destruct (Z.ltb_spec j 64).
  - rewrite (Z.testbit_neg_r _ (j - 64)) by lia. reflexivity.
  - rewrite (testbit_high64 (Uint128.lo u) j) by lia. apply orb_false_r.
Qed.

Lemma lor_range64 a b : 0 <= a < 2 ^ 64 -> 0 <= b < 2 ^ 64 -> 0 <= Z.lor a b < 2 ^ 64.
Proof.
  intros Ha Hb. split; [apply Z.lor_nonneg; lia|].
  destruct (Z.eq_dec (Z.lor a b) 0) as [->|Hn]; [lia|].
  assert (0 <= Z.lor a b) by (apply Z.lor_nonneg; lia).
  apply Z.log2_lt_cancel. rewrite Z.log2_lor by lia.
  rewrite Z.log2_pow2 by lia.
  assert (Z.log2 a < 64).
  { destruct (Z.eq_dec a 0) as [->|]; [simpl; lia|]. apply Z.log2_lt_pow2; lia. }
  assert (Z.log2 b < 64).
  { destruct (Z.eq_dec b 0) as [->|]; [simpl; lia|]. apply Z.log2_lt_pow2; lia. }
  lia.
Qed.

Lemma shl64_range x n : 0 <= shl64 x n < 2 ^ 64.
Proof. unfold shl64. destruct (64 <=? n); [lia | apply wrap64_range]. Qed.

Lemma shr64_range x n : 0 <= x < 2 ^ 64 -> 0 <= n -> 0 <= shr64 x n < 2 ^ 64.
Proof.
  intros Hx Hn. unfold shr64. destruct (64 <=? n); [lia|].
  rewrite Z.shiftr_div_pow2 by lia.
  assert (0 < 2 ^ n) by (apply Z.pow_pos_nonneg; lia).
  split; [apply Z.div_pos; lia|].
  apply Z.le_lt_trans with x; [|lia]. apply Z.div_le_upper_bound; nia.
Qed.

(** ** Rotation *)

Lemma rot_amount k : Z.land (wrap64 k) 127 = k mod 128.
Proof.
  change 127 with (Z.ones 7). rewrite Z.land_ones by lia.
  unfold wrap64. pow_consts. change (2 ^ 7) with 128.
  Z.div_mod_to_equations. lia.
Qed.

Lemma u128_RotateLeft_wf x k : Uint128.wf x -> Uint128.wf (Uint128.RotateLeft x k).
Proof.
  intros [Hh Hl]. unfold Uint128.RotateLeft.
  assert (R : forall z, 0 <= wrap64 z) by (intros z; apply wrap64_range).
  destruct (64 <? Z.land (wrap64 k) 127); split; cbn [Uint128.hi Uint128.lo];
    apply lor_range64;
    first [apply shl64_range | apply shr64_range; [assumption | apply R]].
Qed.

(** Removes the bits read below position 0 or above a 64-bit word. *)
Ltac kill_bits :=
  repeat match goal with
  | |- context [Z.testbit ?w ?e] => rewrite (Z.testbit_neg_r w e) by lia
  | |- context [Z.testbit ?w ?e] => rewrite (testbit_high64 w e) by lia
  end.

Lemma u128_RotateLeft_bits x k j :
  Uint128.wf x -> 0 <= j < 128 ->
  Z.testbit (Uint128.toZ (Uint128.RotateLeft x k)) j
  = Z.testbit (Uint128.toZ x) ((j - k) mod 128).
Proof.
  intros Hx Hj.
  assert (Hm : 0 <= (j - k) mod 128 < 128) by (apply Z.mod_pos_bound; lia).
  rewrite (u128_testbit _ j (u128_RotateLeft_wf x k Hx)) by lia.
  rewrite (u128_testbit x _ Hx) by lia.
  destruct Hx as [Hh Hl].
  assert (Hs : 0 <= k mod 128 < 128) by (apply Z.mod_pos_bound; lia).
  assert (Hjk : (j - k) mod 128 = (j - k mod 128) mod 128).
  { rewrite Zminus_mod_idemp_r. reflexivity. }
  unfold Uint128.RotateLeft. rewrite rot_amount. rewrite Hjk.
  remember (k mod 128) as s eqn:Es. clear Es Hjk Hm k.
  assert (W1 : forall z, 0 <= z < 2 ^ 64 -> wrap64 z = z) by apply wrap64_small.
  assert (Hmod : (s <= j /\ (j - s) mod 128 = j - s) \/
                 (j < s /\ (j - s) mod 128 = j - s + 128)).
  { Z.div_mod_to_equations. lia. }
  destruct (Z.ltb_spec 64 s) as [Hgt|Hle]; cbn [Uint128.hi Uint128.lo];
    destruct (Z.ltb_spec j 64) as [Hj64|Hj64];
    rewrite !Z.lor_spec, ?shl64_testbit, ?shr64_testbit by lia;
    rewrite ?(W1 (128 - s)), ?(W1 (64 - s)), ?(W1 (64 - (128 - s))) by (pow_consts; lia);
    destruct Hmod as [[Hc ->]|[Hc ->]];
    repeat (case_test; cbn [negb andb orb]); try lia;
    kill_bits; cbn [orb andb]; rewrite ?orb_false_r;
    try reflexivity; try (f_equal; lia).
Qed.

Lemma u128_bits_ext a b :
  Uint128.wf a -> Uint128.wf b ->
  (forall j, 0 <= j < 128 ->
     Z.testbit (Uint128.toZ a) j = Z.testbit (Uint128.toZ b) j) ->
  a = b.
Proof.
  intros Ha Hb H. apply u128_toZ_inj; try assumption.
  apply Z.bits_inj'. intros j Hj.
  destruct (Z.ltb_spec j 128); [apply H; lia|].
  rewrite !u128_testbit by (assumption || lia).
  destruct Ha as [Ha1 Ha2], Hb as [Hb1 Hb2].
  destruct (Z.ltb_spec j 64); [lia|].
  rewrite !testbit_high64 by lia. reflexivity.
Qed.

(** C7: [RotateLeft(k)] moves bit [j - k] (mod 128) to position [j], for
    every [int] [k]; it is undone by [RotateLeft(-k)] (with Go's wrapping
    [-k]); a rotation by 128 is the identity; and [RotateLeft(-j)] for
    [0 <= j < 128] is the right rotation by [j], bit by bit. *)
Theorem rotate_left_bijection (x : Uint128.t) (k : Z) :
  Uint128.wf x -> - 2 ^ 63 <= k < 2 ^ 63 ->
  Uint128.wf (Uint128.RotateLeft x k) /\
  (forall i, 0 <= i < 128 ->
     Z.testbit (Uint128.toZ (Uint128.RotateLeft x k)) i
     = Z.testbit (Uint128.toZ x) ((i - k) mod 128)) /\
  Uint128.RotateLeft (Uint128.RotateLeft x k) (signed64 (wrap64 (- k))) = x /\
  Uint128.RotateLeft x 128 = x /\
  (forall j i, 0 <= j < 128 -> 0 <= i < 128 ->
     Z.testbit (Uint128.toZ (Uint128.RotateLeft x (- j))) i
     = Z.testbit (Uint128.toZ x) ((i + j) mod 128)).
Proof.
  intros Hx Hk.
  split; [apply u128_RotateLeft_wf; assumption|].
  split; [intros i Hi; apply u128_RotateLeft_bits; assumption|].
  split; [|split].
  - apply u128_bits_ext; try assumption.
    { apply u128_RotateLeft_wf, u128_RotateLeft_wf; assumption. }
    intros j Hj.
    rewrite u128_RotateLeft_bits by (try apply u128_RotateLeft_wf; assumption).
    rewrite u128_RotateLeft_bits
      by (try assumption; apply Z.mod_pos_bound; lia).
    f_equal. unfold signed64, wrap64. pow_consts.
    Z.div_mod_to_equations. lia.
  - apply u128_bits_ext; try assumption.
    { apply u128_RotateLeft_wf; assumption. }
    intros j Hj. rewrite u128_RotateLeft_bits by assumption.
    f_equal. Z.div_mod_to_equations. lia.
  - intros j i Hj Hi. rewrite u128_RotateLeft_bits by assumption.
    f_equal. f_equal. lia.
Qed.

Lemma rotate_left_bijection_witness :
  let x := Uint128.mk 0 0x123456789ABCDEF0 in
  Uint128.wf (Uint128.RotateLeft x 4) /\
  (forall i, 0 <= i < 128 ->
     Z.testbit (Uint128.toZ (Uint128.RotateLeft x 4)) i
     = Z.testbit (Uint128.toZ x) ((i - 4) mod 128)) /\
  Uint128.RotateLeft (Uint128.RotateLeft x 4) (signed64 (wrap64 (- 4))) = x /\
  Uint128.RotateLeft x 128 = x /\
  (forall j i, 0 <= j < 128 -> 0 <= i < 128 ->
     Z.testbit (Uint128.toZ (Uint128.RotateLeft x (- j))) i
     = Z.testbit (Uint128.toZ x) ((i + j) mod 128)).
Proof.
  apply (rotate_left_bijection (Uint128.mk 0 0x123456789ABCDEF0) 4).
  - unfold Uint128.wf; simpl; lia.
  - lia.
Defined.

(** ** Byte encodings *)

Lemma byte_testbit x j :
  0 <= j -> Z.testbit (byte x) j = Z.testbit x j && (j <? 8).
Proof.
  intros Hj. unfold byte. change 255 with (Z.ones 8).
  rewrite Z.land_spec, Z.testbit_ones_nonneg by lia. reflexivity.
Qed.

Lemma or8_bytes h :
  0 <= h < 2 ^ 64 ->
  Uint128.or8 (byte h) (byte (shr64 h 8)) (byte (shr64 h 16)) (byte (shr64 h 24))
    (byte (shr64 h 32)) (byte (shr64 h 40)) (byte (shr64 h 48)) (byte (shr64 h 56))
  = h.
Proof.
  intros Hh. apply Z.bits_inj'. intros j Hj. unfold Uint128.or8.
  rewrite !Z.lor_spec, !shl64_testbit by lia.
  cbn [Z.leb Z.compare Pos.compare Pos.compare_cont].
  destruct (Z.ltb_spec j 64) as [Hlt|Hge].
  - destruct (Z.ltb_spec j 8); [|destruct (Z.ltb_spec j 16);
      [|destruct (Z.ltb_spec j 24); [|destruct (Z.ltb_spec j 32);
      [|destruct (Z.ltb_spec j 40); [|destruct (Z.ltb_spec j 48);
      [|destruct (Z.ltb_spec j 56)]]]]]].
    all: repeat match goal with
         | |- context [Z.testbit (byte ?x) ?e] =>
           first [ rewrite (Z.testbit_neg_r (byte x) e) by lia
                 | rewrite (byte_testbit x e) by lia ]
         end.
    all: rewrite ?shr64_testbit by lia;
         cbn [Z.leb Z.compare Pos.compare Pos.compare_cont].
    all: repeat (case_test; cbn [negb andb orb]); try lia.
    all: rewrite ?andb_true_r, ?andb_false_r, ?orb_false_r; cbn [orb andb];
         rewrite ?orb_false_r; f_equal; lia.
  - rewrite (testbit_high64 h j) by lia.
    rewrite byte_testbit by lia.
    destruct (Z.ltb_spec j 8); [lia|]. rewrite andb_false_r. reflexivity.
Qed.

Lemma byte_range x : 0 <= byte x < 256.
Proof.
  unfold byte. change 255 with (Z.ones 8). rewrite Z.land_ones by lia.
  apply Z.mod_pos_bound. reflexivity.
Qed.

Lemma short_buffer_ltb (b : list Z) : (List.length b < 16)%nat -> (List.length b <? 16)%nat = true.
Proof. intros H. apply Nat.ltb_lt. exact H. Qed.

(** C6: the 16-byte encodings round-trip.  On a buffer of at least 16
    bytes, [PutBigEndian] / [PutLittleEndian] overwrite exactly the first 16
    entries with bytes, and the matching decoder returns the encoded value
    (from the whole buffer and from its 16-byte prefix alone); on a shorter
    buffer all four functions panic. *)
Theorem bytes_round_trip (a : Uint128.t) (b c : list Z) :
  Uint128.wf a -> (16 <= List.length b)%nat -> (List.length c < 16)%nat ->
  (exists b',
     Uint128.PutBigEndian a b = Some b' /\
     List.length b' = List.length b /\
     skipn 16 b' = skipn 16 b /\
     Forall (fun x => 0 <= x < 256) (firstn 16 b') /\
     Uint128.MustUint128FromBigEndian b' = Some a /\
     Uint128.MustUint128FromBigEndian (firstn 16 b') = Some a) /\
  (exists b',
     Uint128.PutLittleEndian a b = Some b' /\
     List.length b' = List.length b /\
     skipn 16 b' = skipn 16 b /\
     Forall (fun x => 0 <= x < 256) (firstn 16 b') /\
     Uint128.MustUint128FromLittleEndian b' = Some a /\
     Uint128.MustUint128FromLittleEndian (firstn 16 b') = Some a) /\
  Uint128.PutBigEndian a c = None /\
  Uint128.MustUint128FromBigEndian c = None /\
  Uint128.PutLittleEndian a c = None /\
  Uint128.MustUint128FromLittleEndian c = None.
Proof.
  intros [Hh Hl] Hb Hc.
  assert (Ea : a = Uint128.mk (Uint128.hi a) (Uint128.lo a)) by (destruct a; reflexivity).
  do 16 (destruct b as [|? b]; [cbn [List.length] in Hb; lia|]).
  split; [|split].
  - eexists. split; [reflexivity|].
    cbn [store List.length skipn firstn].
    split; [reflexivity|]. split; [reflexivity|].
    split; [repeat constructor; apply byte_range|].
    unfold Uint128.MustUint128FromBigEndian.
    cbn [List.length Nat.ltb Nat.leb load nth].
    rewrite !or8_bytes by assumption. rewrite <- Ea. split; reflexivity.
  - eexists. split; [reflexivity|].
    cbn [store List.length skipn firstn].
    split; [reflexivity|]. split; [reflexivity|].
    split; [repeat constructor; apply byte_range|].
    unfold Uint128.MustUint128FromLittleEndian.
    cbn [List.length Nat.ltb Nat.leb load nth].
    rewrite !or8_bytes by assumption. rewrite <- Ea. split; reflexivity.
  - unfold Uint128.PutBigEndian, Uint128.MustUint128FromBigEndian,
      Uint128.PutLittleEndian, Uint128.MustUint128FromLittleEndian.
    rewrite (short_buffer_ltb c Hc). repeat split.
Qed.

Lemma bytes_round_trip_witness :
  let a := Uint128.mk 0x0102030405060708 0x090a0b0c0d0e0f10 in
  let b := repeat 0 20 in
  let c := repeat 0 15 in
  (exists b',
     Uint128.PutBigEndian a b = Some b' /\
     List.length b' = List.length b /\
     skipn 16 b' = skipn 16 b /\
     Forall (fun x => 0 <= x < 256) (firstn 16 b') /\
     Uint128.MustUint128FromBigEndian b' = Some a /\
     Uint128.MustUint128FromBigEndian (firstn 16 b') = Some a) /\
  (exists b',
     Uint128.PutLittleEndian a b = Some b' /\
     List.length b' = List.length b /\
     skipn 16 b' = skipn 16 b /\
     Forall (fun x => 0 <= x < 256) (firstn 16 b') /\
     Uint128.MustUint128FromLittleEndian b' = Some a /\
     Uint128.MustUint128FromLittleEndian (firstn 16 b') = Some a) /\
  Uint128.PutBigEndian a c = None /\
  Uint128.MustUint128FromBigEndian c = None /\
  Uint128.PutLittleEndian a c = None /\
  Uint128.MustUint128FromLittleEndian c = None.
Proof.
  apply (bytes_round_trip (Uint128.mk 0x0102030405060708 0x090a0b0c0d0e0f10)
           (repeat 0 20) (repeat 0 15)).
  - unfold Uint128.wf; simpl; lia.
  - simpl; lia.
  - simpl; lia.
Defined.

(** ** Leading and trailing zeros *)

Lemma LeadingZeros64_spec x :
  0 < x < 2 ^ 64 ->
  0 <= LeadingZeros64 x <= 63 /\
  2 ^ (63 - LeadingZeros64 x) <= x < 2 ^ (64 - LeadingZeros64 x).
Proof.
  intros Hx. unfold LeadingZeros64, Len64.
  destruct (Z.leb_spec x 0); [lia|].
  assert (H0 : 0 <= Z.log2 x) by apply Z.log2_nonneg.
  assert (H1 : Z.log2 x < 64) by (apply Z.log2_lt_pow2; lia).
  destruct (Z.log2_spec x) as [L1 L2]; [lia|].
  replace (63 - (64 - (Z.log2 x + 1))) with (Z.log2 x) by lia.
  replace (64 - (64 - (Z.log2 x + 1))) with (Z.succ (Z.log2 x)) by lia.
  lia.
Qed.

Lemma ctz_pos_spec p :
  0 <= ctz_pos p /\ exists m, Zpos p = 2 ^ ctz_pos p * (2 * m + 1) /\ 0 <= m.
Proof.
  induction p as [p IH|p IH|]; cbn [ctz_pos].
  - split; [lia|]. exists (Zpos p). rewrite Z.pow_0_r. lia.
  - destruct IH as [H0 [m [Hm Hm0]]]. split; [lia|]. exists m.
    rewrite Z.pow_succ_r by assumption. lia.
  - split; [lia|]. exists 0. rewrite Z.pow_0_r. lia.
Qed.

Lemma TrailingZeros64_spec x :
  0 < x < 2 ^ 64 ->
  0 <= TrailingZeros64 x <= 63 /\
  exists m, x = 2 ^ TrailingZeros64 x * (2 * m + 1) /\ 0 <= m.
Proof.
  intros Hx. destruct x as [|p|p]; try lia. cbn [TrailingZeros64].
  destruct (ctz_pos_spec p) as [H0 [m [Hm Hm0]]].
  split; [|exists m; split; assumption].
  split; [assumption|].
  destruct (Z.le_gt_cases 64 (ctz_pos p)) as [Hge|]; [|lia].
  assert (2 ^ 64 <= 2 ^ ctz_pos p) by (apply Z.pow_le_mono_r; lia).
  nia.
Qed.

(** A word whose leading and trailing zeros add up to 63 is a power of two. *)
Lemma single_bit_word x :
  0 < x < 2 ^ 64 ->
  LeadingZeros64 x + TrailingZeros64 x = 63 ->
  x = 2 ^ TrailingZeros64 x.
Proof.
  intros Hx Hsum.
  destruct (LeadingZeros64_spec x Hx) as [Hl [Hlo Hhi]].
  destruct (TrailingZeros64_spec x Hx) as [Ht [m [Hm Hm0]]].
  replace (64 - LeadingZeros64 x) with (Z.succ (TrailingZeros64 x)) in Hhi by lia.
  rewrite Z.pow_succ_r in Hhi by lia.
  assert (0 < 2 ^ TrailingZeros64 x) by (apply Z.pow_pos_nonneg; lia).
  assert (m = 0) by nia. subst m. lia.
Qed.

(** ** Shifts, masks, products and comparison on [Uint128] *)

Lemma u128_Lsh_wf u n : Uint128.wf u -> 0 <= n -> Uint128.wf (Uint128.Lsh u n).
Proof.
  intros [Hh Hl] Hn. unfold Uint128.Lsh.
  assert (R : forall z, 0 <= wrap64 z) by (intros z; apply wrap64_range).
  repeat (case_test; cbn [negb andb orb]); split; cbn [Uint128.hi Uint128.lo];
    try assumption; try (pow_consts; lia);
    try apply lor_range64;
    first [apply shl64_range | apply shr64_range; [assumption | apply R]].
Qed.

Lemma u128_Rsh_wf u n : Uint128.wf u -> 0 <= n -> Uint128.wf (Uint128.Rsh u n).
Proof.
  intros [Hh Hl] Hn. unfold Uint128.Rsh.
  assert (R : forall z, 0 <= wrap64 z) by (intros z; apply wrap64_range).
  repeat (case_test; cbn [negb andb orb]); split; cbn [Uint128.hi Uint128.lo];
    try assumption; try (pow_consts; lia);
    try apply lor_range64;
    first [apply shl64_range | apply shr64_range; [assumption | first [apply R | lia]]].
Qed.

Lemma u128_Rsh_spec u n :
  Uint128.wf u -> 0 <= n < 2 ^ 64 ->
  Uint128.toZ (Uint128.Rsh u n) = Uint128.toZ u / 2 ^ n.
Proof.
  intros Hu Hn. apply Z.bits_inj'. intros j Hj.
  rewrite Z.div_pow2_bits by lia.
  rewrite (u128_testbit _ j (u128_Rsh_wf u n Hu (proj1 Hn))) by lia.
  rewrite (u128_testbit u _ Hu) by lia.
  destruct Hu as [Hh Hl].
  assert (W1 : forall z, 0 <= z < 2 ^ 64 -> wrap64 z = z) by apply wrap64_small.
  unfold Uint128.Rsh.
  destruct (Z.eqb_spec n 0) as [->|Hn0].
  { rewrite Z.add_0_r. reflexivity. }
  destruct (Z.ltb_spec 64 n); [|destruct (Z.ltb_spec n 64); [|destruct (Z.eqb_spec n 64); [|lia]]];
    cbn [Uint128.hi Uint128.lo];
    destruct (Z.ltb_spec j 64);
    rewrite ?Z.lor_spec, ?shl64_testbit, ?shr64_testbit by lia;
    rewrite ?(W1 (n - 64)), ?(W1 (64 - n)) by (pow_consts; lia);
    repeat (case_test; cbn [negb andb orb]); try lia;
    kill_bits; rewrite ?Z.testbit_0_l; cbn [orb andb]; rewrite ?orb_false_r;
    try reflexivity; try (f_equal; lia).
Qed.

Lemma u128_Lsh_spec u n :
  Uint128.wf u -> 0 <= n < 2 ^ 64 ->
  Uint128.toZ (Uint128.Lsh u n) = (Uint128.toZ u * 2 ^ n) mod 2 ^ 128.
Proof.
  intros Hu Hn. apply Z.bits_inj'. intros j Hj.
  rewrite Z.testbit_mod_pow2 by lia.
  rewrite Z.mul_pow2_bits by lia.
  rewrite (u128_testbit _ j (u128_Lsh_wf u n Hu (proj1 Hn))) by lia.
  destruct (Z.ltb_spec (j - n) 0) as [Hneg|Hpos].
  - rewrite (Z.testbit_neg_r _ (j - n)) by lia. rewrite andb_false_r.
    destruct Hu as [Hh Hl].
    assert (W1 : forall z, 0 <= z < 2 ^ 64 -> wrap64 z = z) by apply wrap64_small.
    unfold Uint128.Lsh.
    destruct (Z.eqb_spec n 0) as [->|Hn0]; [lia|].
    destruct (Z.ltb_spec 64 n); [|destruct (Z.ltb_spec n 64); [|destruct (Z.eqb_spec n 64); [|lia]]];
      cbn [Uint128.hi Uint128.lo];
      destruct (Z.ltb_spec j 64);
      rewrite ?Z.lor_spec, ?shl64_testbit, ?shr64_testbit by lia;
      rewrite ?(W1 (n - 64)), ?(W1 (64 - n)) by (pow_consts; lia);
      repeat (case_test; cbn [negb andb orb]); try lia;
      kill_bits; rewrite ?Z.testbit_0_l; cbn [orb andb]; rewrite ?orb_false_r, ?andb_false_r;
      try reflexivity; try (f_equal; lia).
  - rewrite (u128_testbit u _ Hu) by lia.
    destruct Hu as [Hh Hl].
    assert (W1 : forall z, 0 <= z < 2 ^ 64 -> wrap64 z = z) by apply wrap64_small.
    unfold Uint128.Lsh.
    destruct (Z.eqb_spec n 0) as [->|Hn0].
    { rewrite Z.sub_0_r.
      destruct (Z.ltb_spec j 128); [reflexivity|].
      destruct (Z.ltb_spec j 64); [lia|]. kill_bits. reflexivity. }
    destruct (Z.ltb_spec 64 n); [|destruct (Z.ltb_spec n 64); [|destruct (Z.eqb_spec n 64); [|lia]]];
      cbn [Uint128.hi Uint128.lo];
      destruct (Z.ltb_spec j 64);
      rewrite ?Z.lor_spec, ?shl64_testbit, ?shr64_testbit by lia;
      rewrite ?(W1 (n - 64)), ?(W1 (64 - n)) by (pow_consts; lia);
      repeat (case_test; cbn [negb andb orb]); try lia;
      kill_bits; rewrite ?Z.testbit_0_l; cbn [orb andb]; rewrite ?orb_false_r, ?andb_false_r;
      try reflexivity; try (f_equal; lia).
Qed.

Lemma land_range64 a b : 0 <= a < 2 ^ 64 -> 0 <= b -> 0 <= Z.land a b < 2 ^ 64.
Proof.
  intros Ha Hb.
  assert (H0 : 0 <= Z.land a b) by (apply Z.land_nonneg; lia).
  split; [exact H0|].
  destruct (Z.eq_dec (Z.land a b) 0) as [->|Hn]; [lia|].
  apply Z.log2_lt_cancel. rewrite Z.log2_pow2 by lia.
  assert (Z.log2 (Z.land a b) <= Z.min (Z.log2 a) (Z.log2 b))
    by (apply Z.log2_land; lia).
  assert (Z.log2 a < 64).
  { destruct (Z.eq_dec a 0) as [->|]; [simpl; lia|]. apply Z.log2_lt_pow2; lia. }
  lia.
Qed.

Lemma u128_And_spec a b :
  Uint128.wf a -> Uint128.wf b ->
  Uint128.wf (Uint128.And a b) /\
  Uint128.toZ (Uint128.And a b) = Z.land (Uint128.toZ a) (Uint128.toZ b).
Proof.
  intros Ha Hb.
  assert (Hw : Uint128.wf (Uint128.And a b)).
  { destruct Ha, Hb. split; cbn [Uint128.And Uint128.hi Uint128.lo];
      apply land_range64; lia. }
  split; [exact Hw|].
  apply Z.bits_inj'. intros j Hj.
  rewrite Z.land_spec, !u128_testbit by (assumption || lia).
  cbn [Uint128.And Uint128.hi Uint128.lo].
  destruct (j <? 64); apply Z.land_spec.
Qed.

Lemma u128_Mul_spec a b :
  Uint128.wf a -> Uint128.wf b ->
  Uint128.wf (Uint128.Mul a b) /\
  Uint128.toZ (Uint128.Mul a b) = (Uint128.toZ a * Uint128.toZ b) mod 2 ^ 128.
Proof.
  intros [Hah Hal] [Hbh Hbl]. unfold Uint128.wf, Uint128.toZ, Uint128.Mul, Bits.Mul64.
  cbn [Uint128.hi Uint128.lo].
  replace ((Uint128.hi a * 2 ^ 64 + Uint128.lo a) * (Uint128.hi b * 2 ^ 64 + Uint128.lo b))
    with (Uint128.hi a * Uint128.hi b * 2 ^ 128
          + (Uint128.hi a * Uint128.lo b + Uint128.lo a * Uint128.hi b) * 2 ^ 64
          + Uint128.lo a * Uint128.lo b)
    by (pow_consts; ring).
  assert (HP : 0 <= Uint128.lo a * Uint128.lo b) by nia.
  assert (HA : 0 <= Uint128.hi a * Uint128.lo b) by nia.
  assert (HB : 0 <= Uint128.lo a * Uint128.hi b) by nia.
  assert (HC : 0 <= Uint128.hi a * Uint128.hi b) by nia.
  generalize dependent (Uint128.lo a * Uint128.lo b). intros P HP.
  generalize dependent (Uint128.hi a * Uint128.lo b). intros A HA.
  generalize dependent (Uint128.lo a * Uint128.hi b). intros B HB.
  generalize dependent (Uint128.hi a * Uint128.hi b). intros C HC.
  split; word_lia.
Qed.

Lemma u128_Cmp_spec a b :
  (Uint128.Cmp a b = -1 /\ Uint128.toZ a < Uint128.toZ b) \/
  (Uint128.Cmp a b = 0 /\ Uint128.toZ a = Uint128.toZ b) \/
  (Uint128.Cmp a b = 1 /\ Uint128.toZ b < Uint128.toZ a) \/
  ~ (Uint128.wf a /\ Uint128.wf b).
Proof.
  unfold Uint128.Cmp, Uint128.toZ, Uint128.wf.
  repeat (case_test; cbn [negb andb orb]); pow_consts; lia.
Qed.

Lemma lor_low_bit x : 0 <= x -> x mod 2 = 0 -> Z.lor x 1 = x + 1.
Proof.
  intros Hx Hm. apply Z.or_to_plus.
  apply Z.bits_inj'. intros j Hj. rewrite Z.land_spec, Z.testbit_0_l.
  destruct (Z.eq_dec j 0) as [->|Hn].
  - rewrite Z.bit0_odd. rewrite Zmod_odd in Hm.
    destruct (Z.odd x); [discriminate | reflexivity].
  - change 1 with (2 ^ 0). rewrite Z.pow2_bits_eqb by lia.
    destruct (Z.eqb_spec 0 j); [lia|]. apply andb_false_r.
Qed.

(** [(x << 32) | y] for two half words. *)
Lemma lor_halves x y :
  0 <= x < 2 ^ 32 -> 0 <= y < 2 ^ 32 ->
  Z.lor (shl64 x 32) y = x * 2 ^ 32 + y.
Proof.
  intros Hx Hy. unfold shl64, wrap64. cbn [Z.leb Z.compare Pos.compare Pos.compare_cont].
  rewrite Z.shiftl_mul_pow2 by lia.
  rewrite Z.mod_small by (pow_consts; lia).
  apply Z.or_to_plus.
  apply Z.bits_inj'. intros j Hj. rewrite Z.land_spec, Z.testbit_0_l.
  destruct (Z.ltb_spec j 32).
  - rewrite Z.mul_pow2_bits_low by lia. reflexivity.
  - assert (Z.testbit y j = false); [|rewrite H0; apply andb_false_r].
    destruct (Z.eq_dec y 0) as [->|]; [apply Z.testbit_0_l|].
    apply Z.bits_above_log2; [lia|].
    assert (Z.log2 y < 32) by (apply Z.log2_lt_pow2; lia). lia.
Qed.

(** ** Binary long division *)

Lemma bin_loop_unfold n q u by_ :
  Uint128.bin_loop n q u by_ =
  let q1 := Uint128.Lsh q 1 in
  let ge := (Uint128.hi by_ <? Uint128.hi u)
            || ((Uint128.hi u =? Uint128.hi by_) && (Uint128.lo by_ <=? Uint128.lo u)) in
  let u1 := if ge then Uint128.Sub u by_ else u in
  let q2 := if ge then Uint128.mk (Uint128.hi q1) (Z.lor (Uint128.lo q1) 1) else q1 in
  let by1 := Uint128.Rsh by_ 1 in
  match n with
  | O => (q2, u1)
  | S n' => Uint128.bin_loop n' q2 u1 by1
  end.
Proof.
  destruct n; cbn [Uint128.bin_loop]; cbv zeta;
    destruct ((Uint128.hi by_ <? Uint128.hi u)
              || ((Uint128.hi u =? Uint128.hi by_) && (Uint128.lo by_ <=? Uint128.lo u)));
    reflexivity.
Qed.

Lemma u128_ge_spec u by_ :
  Uint128.wf u -> Uint128.wf by_ ->
  (Uint128.hi by_ <? Uint128.hi u)
  || ((Uint128.hi u =? Uint128.hi by_) && (Uint128.lo by_ <=? Uint128.lo u))
  = (Uint128.toZ by_ <=? Uint128.toZ u).
Proof.
  unfold Uint128.wf, Uint128.toZ. intros Hu Hb.
  repeat (case_test; cbn [negb andb orb]); try reflexivity; pow_consts; lia.
Qed.

(** One iteration of the shift-compare-subtract loop. *)
Lemma bin_step q u by_ :
  Uint128.wf q -> Uint128.wf u -> Uint128.wf by_ ->
  2 * Uint128.toZ q + 1 < 2 ^ 128 ->
  let q1 := Uint128.Lsh q 1 in
  let ge := Uint128.toZ by_ <=? Uint128.toZ u in
  let u1 := if ge then Uint128.Sub u by_ else u in
  let q2 := if ge then Uint128.mk (Uint128.hi q1) (Z.lor (Uint128.lo q1) 1) else q1 in
  Uint128.wf u1 /\ Uint128.wf q2 /\
  Uint128.toZ u1 = (if ge then Uint128.toZ u - Uint128.toZ by_ else Uint128.toZ u) /\
  Uint128.toZ q2 = 2 * Uint128.toZ q + (if ge then 1 else 0).
Proof.
  intros Hq Hu Hb Hov. cbv zeta.
  assert (Hq1w : Uint128.wf (Uint128.Lsh q 1)) by (apply u128_Lsh_wf; [assumption|lia]).
  assert (Hq1 : Uint128.toZ (Uint128.Lsh q 1) = 2 * Uint128.toZ q).
  { rewrite u128_Lsh_spec by (try assumption; pow_consts; lia).
    change (2 ^ 1) with 2. rewrite Z.mod_small; [lia|].
    pose proof (u128_toZ_range q Hq). lia. }
  destruct (u128_Sub_spec u by_ Hu Hb) as [Hsw Hs].
  pose proof (u128_toZ_range u Hu) as Ru.
  pose proof (u128_toZ_range by_ Hb) as Rb.
  destruct (Z.leb_spec (Uint128.toZ by_) (Uint128.toZ u)) as [Hge|Hlt].
  - split; [exact Hsw|].
    assert (Hev : Uint128.lo (Uint128.Lsh q 1) mod 2 = 0).
    { unfold Uint128.toZ in Hq1. destruct Hq1w as [? ?]. pow_consts.
      Z.div_mod_to_equations. lia. }
    assert (Hl1 : Z.lor (Uint128.lo (Uint128.Lsh q 1)) 1 = Uint128.lo (Uint128.Lsh q 1) + 1).
    { apply lor_low_bit; [destruct Hq1w; lia | exact Hev]. }
    rewrite Hl1. unfold Uint128.wf, Uint128.toZ in *. cbn [Uint128.hi Uint128.lo].
    rewrite Hs. rewrite Z.mod_small by lia.
    destruct Hq1w as [? ?].
    split; [|split]; [| lia | lia].
    split; [lia|]. split; [lia|]. pow_consts. Z.div_mod_to_equations. lia.
  - split; [exact Hu|]. split; [exact Hq1w|]. split; [reflexivity | lia].
Qed.

Lemma bin_loop_spec n : forall q u by_ d U,
  Uint128.wf q -> Uint128.wf u -> Uint128.wf by_ -> 0 < d ->
  Uint128.toZ by_ = d * 2 ^ Z.of_nat n ->
  Uint128.toZ u < 2 * Uint128.toZ by_ ->
  Uint128.toZ q * (2 * Uint128.toZ by_) + Uint128.toZ u = U -> U < 2 ^ 128 ->
  Uint128.wf (fst (Uint128.bin_loop n q u by_)) /\
  Uint128.wf (snd (Uint128.bin_loop n q u by_)) /\
  Uint128.toZ (fst (Uint128.bin_loop n q u by_)) * d
    + Uint128.toZ (snd (Uint128.bin_loop n q u by_)) = U /\
  Uint128.toZ (snd (Uint128.bin_loop n q u by_)) < d.
Proof.
  induction n as [|n IH]; intros q u by_ d U Hq Hu Hb Hd Hby Hlt HU HU128;
    rewrite bin_loop_unfold; cbv zeta; rewrite u128_ge_spec by assumption;
    pose proof (u128_toZ_range q Hq) as Rq;
    pose proof (u128_toZ_range u Hu) as Ru;
    match type of Hby with
    | _ = _ * 2 ^ ?k =>
      assert (Hp : 0 < 2 ^ k) by (apply Z.pow_pos_nonneg; lia)
    end;
    assert (Hov : 2 * Uint128.toZ q + 1 < 2 ^ 128) by nia;
    destruct (bin_step q u by_ Hq Hu Hb Hov) as [Hu1 [Hq2 [Eu1 Eq2]]];
    cbv zeta in Hu1, Hq2, Eu1, Eq2.
  - cbn [fst snd]. change (2 ^ Z.of_nat 0) with 1 in Hby.
    split; [exact Hq2|]. split; [exact Hu1|].
    rewrite Eu1, Eq2.
    destruct (Z.leb_spec (Uint128.toZ by_) (Uint128.toZ u)); split; nia.
  - assert (Hby1w : Uint128.wf (Uint128.Rsh by_ 1)) by (apply u128_Rsh_wf; [assumption|lia]).
    assert (Hp' : 0 < 2 ^ Z.of_nat n) by (apply Z.pow_pos_nonneg; lia).
    assert (Hby1 : Uint128.toZ (Uint128.Rsh by_ 1) = d * 2 ^ Z.of_nat n).
    { rewrite u128_Rsh_spec by (try assumption; pow_consts; lia).
      rewrite Hby. rewrite Nat2Z.inj_succ, Z.pow_succ_r by lia.
      change (2 ^ 1) with 2.
      replace (d * (2 * 2 ^ Z.of_nat n)) with (d * 2 ^ Z.of_nat n * 2) by ring.
      apply Z.div_mul. lia. }
    rewrite Nat2Z.inj_succ, Z.pow_succ_r in Hby by lia.
    apply IH; try assumption.
    + rewrite Eu1, Hby1.
      destruct (Z.leb_spec (Uint128.toZ by_) (Uint128.toZ u)); nia.
    + rewrite Eu1, Eq2, Hby1.
      destruct (Z.leb_spec (Uint128.toZ by_) (Uint128.toZ u)); nia.
Qed.

(** ** Schoolbook division by a normalised 64-bit divisor (divlu) *)

(** The correction loop returns the true quotient digit.  [vs] is the
    normalised divisor, [n32 * 2^32 + d] the three-half-word dividend with
    [n32 < vs], and [(q, rhat)] the running estimate. *)
Lemma again_spec fuel : forall vs vn1 vn0 d n32 q rhat qt r,
  2 ^ 63 <= vs < 2 ^ 64 ->
  vs = vn1 * 2 ^ 32 + vn0 -> 0 <= vn0 < 2 ^ 32 ->
  0 <= d < 2 ^ 32 -> 0 <= n32 < vs ->
  n32 * 2 ^ 32 + d = vs * qt + r -> 0 <= r < vs ->
  q * vn1 + rhat = n32 -> 0 <= rhat < 2 ^ 32 -> qt <= q <= 2 ^ 32 + 1 ->
  2 ^ 32 <= Z.of_nat fuel * vn1 + rhat ->
  Uint128.again fuel (2 ^ 32) vn1 vn0 d q rhat (q * vn0) (rhat * 2 ^ 32 + d) = Some qt.
Proof.
  induction fuel as [|fuel IH];
    intros vs vn1 vn0 d n32 q rhat qt r Hvs Hsplit Hvn0 Hd Hn32 Hdiv Hr Hq Hrhat Hqt Hfuel.
  { cbn [Z.of_nat] in Hfuel. lia. }
  assert (Hvn1 : 2 ^ 31 <= vn1 < 2 ^ 32) by (pow_consts; change (2 ^ 31) with 2147483648; lia).
  assert (Hqt0 : 0 <= qt < 2 ^ 32) by (pow_consts; nia).
  cbn [Uint128.again].
  destruct (Z.leb_spec (2 ^ 32) q) as [Hbq|Hbq];
    [|destruct (Z.ltb_spec (rhat * 2 ^ 32 + d) (q * vn0)) as [Hlr|Hlr]];
    cbn [orb].
  - (* q >= b *)
    assert (Hgt : qt < q) by lia.
    rewrite (wrap64_small (q - 1)) by (pow_consts; lia).
    rewrite (wrap64_small (rhat + vn1)) by (pow_consts; lia).
    destruct (Z.ltb_spec (rhat + vn1) (2 ^ 32)) as [Hlt|Hge].
    + rewrite (wrap64_small (q * vn0 - vn0)) by (pow_consts; nia).
      rewrite lor_halves by (pow_consts; lia).
      replace (q * vn0 - vn0) with ((q - 1) * vn0) by ring.
      apply (IH vs vn1 vn0 d n32 (q - 1) (rhat + vn1) qt r); try assumption; try lia.
    + f_equal. pow_consts. nia.
  - (* left > right *)
    assert (Hgt : qt < q) by (pow_consts; nia).
    rewrite (wrap64_small (q - 1)) by (pow_consts; lia).
    rewrite (wrap64_small (rhat + vn1)) by (pow_consts; lia).
    destruct (Z.ltb_spec (rhat + vn1) (2 ^ 32)) as [Hlt|Hge].
    + rewrite (wrap64_small (q * vn0 - vn0)) by (pow_consts; nia).
      rewrite lor_halves by (pow_consts; lia).
      replace (q * vn0 - vn0) with ((q - 1) * vn0) by ring.
      apply (IH vs vn1 vn0 d n32 (q - 1) (rhat + vn1) qt r); try assumption; try lia.
    + f_equal. pow_consts. nia.
  - f_equal. pow_consts. nia.
Qed.

Lemma testbit_above w s j : 0 <= w < 2 ^ s -> s <= j -> Z.testbit w j = false.
Proof.
  intros Hw Hj. destruct (Z.eq_dec w 0) as [->|Hn]; [apply Z.testbit_0_l|].
  assert (0 <= s).
  { destruct (Z.le_gt_cases 0 s); [assumption|].
    rewrite Z.pow_neg_r in Hw by lia. lia. }
  apply Z.bits_above_log2; [lia|].
  assert (Z.log2 w < s) by (apply Z.log2_lt_pow2; lia). lia.
Qed.

Lemma shl64_small x n :
  0 <= n < 64 -> 0 <= x -> x * 2 ^ n < 2 ^ 64 -> shl64 x n = x * 2 ^ n.
Proof.
  intros Hn Hx Hlt. unfold shl64, wrap64.
  destruct (Z.leb_spec 64 n); [lia|].
  rewrite Z.shiftl_mul_pow2 by lia. apply Z.mod_small.
  assert (0 < 2 ^ n) by (apply Z.pow_pos_nonneg; lia). nia.
Qed.

Lemma shl64_mod x n :
  0 <= n < 64 -> shl64 x n = (x * 2 ^ n) mod 2 ^ 64.
Proof.
  intros Hn. unfold shl64, wrap64.
  destruct (Z.leb_spec 64 n); [lia|].
  rewrite Z.shiftl_mul_pow2 by lia. reflexivity.
Qed.

Lemma shr64_div x n : 0 <= n < 64 -> shr64 x n = x / 2 ^ n.
Proof.
  intros Hn. unfold shr64. destruct (Z.leb_spec 64 n); [lia|].
  apply Z.shiftr_div_pow2. lia.
Qed.

Lemma land_low32 x : 0 <= x -> Z.land x 0xffffffff = x mod 2 ^ 32.
Proof. intros Hx. change 0xffffffff with (Z.ones 32). apply Z.land_ones. lia. Qed.

(** Normalisation of the dividend: shifting the two words left by [s]. *)
Lemma normalise_dividend u1 u0 s :
  0 < s < 64 -> 0 <= u1 -> u1 * 2 ^ s < 2 ^ 64 -> 0 <= u0 < 2 ^ 64 ->
  Z.lor (shl64 u1 s) (shr64 u0 (wrap64 (64 - s))) * 2 ^ 64 + shl64 u0 s
  = (u1 * 2 ^ 64 + u0) * 2 ^ s /\
  0 <= Z.lor (shl64 u1 s) (shr64 u0 (wrap64 (64 - s))) < 2 ^ 64.
Proof.
  intros Hs Hu1 Hu1s Hu0.
  rewrite (wrap64_small (64 - s)) by (pow_consts; lia).
  rewrite shl64_small by lia.
  rewrite shr64_div by lia.
  rewrite shl64_mod by lia.
  assert (Hp : 0 < 2 ^ s) by (apply Z.pow_pos_nonneg; lia).
  assert (Hp' : 0 < 2 ^ (64 - s)) by (apply Z.pow_pos_nonneg; lia).
  assert (Hpp : 2 ^ 64 = 2 ^ (64 - s) * 2 ^ s).
  { rewrite <- Z.pow_add_r by lia. f_equal. lia. }
  assert (Hq : 0 <= u0 / 2 ^ (64 - s) < 2 ^ s).
  { split; [apply Z.div_pos; lia|]. apply Z.div_lt_upper_bound; lia. }
  assert (Hor : Z.lor (u1 * 2 ^ s) (u0 / 2 ^ (64 - s)) = u1 * 2 ^ s + u0 / 2 ^ (64 - s)).
  { apply Z.or_to_plus. apply Z.bits_inj'. intros j Hj.
    rewrite Z.land_spec, Z.testbit_0_l.
    destruct (Z.ltb_spec j s).
    - rewrite Z.mul_pow2_bits_low by lia. reflexivity.
    - rewrite (testbit_above _ s j Hq) by lia. apply andb_false_r. }
  rewrite Hor.
  assert (Hdiv : (u0 * 2 ^ s) / 2 ^ 64 = u0 / 2 ^ (64 - s)).
  { rewrite Hpp. rewrite Z.div_mul_cancel_r by lia. reflexivity. }
  pose proof (Z.div_mod (u0 * 2 ^ s) (2 ^ 64) ltac:(lia)) as Hdm.
  rewrite Hdiv in Hdm.
  split; [|nia]. 
  rewrite Z.mul_add_distr_r.
  replace ((u1 * 2 ^ 64 + u0) * 2 ^ s) with (u1 * 2 ^ s * 2 ^ 64 + u0 * 2 ^ s) by ring.
  lia.
Qed.

(** One quotient digit of [divlu]: the estimate [n32 / vn1], corrected by
    the loop, is the digit; the wrapped update of the partial remainder is
    the true remainder. *)
Lemma digit_step vs d n32 right0 :
  2 ^ 63 <= vs < 2 ^ 64 -> 0 <= d < 2 ^ 32 -> 0 <= n32 < vs ->
  right0 = (n32 mod (vs / 2 ^ 32)) * 2 ^ 32 + d ->
  Uint128.again (Uint128.again_fuel (2 ^ 32) (vs / 2 ^ 32)) (2 ^ 32)
    (vs / 2 ^ 32) (vs mod 2 ^ 32) d
    (n32 / (vs / 2 ^ 32)) (n32 mod (vs / 2 ^ 32))
    (wrap64 (n32 / (vs / 2 ^ 32) * (vs mod 2 ^ 32))) right0
  = Some ((n32 * 2 ^ 32 + d) / vs) /\
  wrap64 (shl64 n32 32 + wrap64 (d - wrap64 ((n32 * 2 ^ 32 + d) / vs * vs)))
  = (n32 * 2 ^ 32 + d) mod vs /\
  0 <= (n32 * 2 ^ 32 + d) / vs < 2 ^ 32.
Proof.
  intros Hvs Hd Hn32 ->.
  set (vn1 := vs / 2 ^ 32). set (vn0 := vs mod 2 ^ 32).
  assert (Hsplit : vs = vn1 * 2 ^ 32 + vn0).
  { unfold vn1, vn0. pose proof (Z.div_mod vs (2 ^ 32) ltac:(lia)). lia. }
  assert (Hvn0 : 0 <= vn0 < 2 ^ 32) by (apply Z.mod_pos_bound; lia).
  assert (Hvn1 : 2 ^ 31 <= vn1 < 2 ^ 32)
    by (pow_consts; change (2 ^ 31) with 2147483648; lia).
  assert (H31 : 0 < 2 ^ 31) by lia.
  set (qt := (n32 * 2 ^ 32 + d) / vs). set (r := (n32 * 2 ^ 32 + d) mod vs).
  assert (Hdiv : n32 * 2 ^ 32 + d = vs * qt + r).
  { unfold qt, r. apply Z.div_mod. lia. }
  assert (Hr : 0 <= r < vs) by (apply Z.mod_pos_bound; lia).
  assert (Hqt : 0 <= qt < 2 ^ 32) by (pow_consts; nia).
  set (q0 := n32 / vn1). set (rh := n32 mod vn1).
  assert (Hq0 : q0 * vn1 + rh = n32).
  { unfold q0, rh. pose proof (Z.div_mod n32 vn1 ltac:(lia)). lia. }
  assert (Hrh : 0 <= rh < vn1) by (apply Z.mod_pos_bound; lia).
  assert (Hq0b : qt <= q0 <= 2 ^ 32 + 1).
  { change (2 ^ 31) with 2147483648 in *. pow_consts. split; nia. }
  split; [|split; [|exact Hqt]].
  - rewrite wrap64_small by (pow_consts; nia).
    apply (again_spec _ vs vn1 vn0 d n32 q0 rh qt r); try assumption; try lia.
    unfold Uint128.again_fuel. rewrite Nat2Z.inj_succ, Z2Nat.id by (apply Z.div_pos; lia).
    pose proof (Z.div_mod (2 ^ 32) vn1 ltac:(lia)).
    pose proof (Z.mod_pos_bound (2 ^ 32) vn1 ltac:(lia)). nia.
  - rewrite shl64_mod by lia.
    assert (HP : qt * vs = n32 * 2 ^ 32 + d - r) by lia.
    rewrite HP. unfold wrap64. pow_consts. Z.div_mod_to_equations. lia.
Qed.

(** Facts shared by [quorem128by64] and [quo128by64]: the normalised
    divisor and dividend. *)
Lemma divlu_normalise u1 u0 v :
  0 < v < 2 ^ 64 -> 0 <= u1 < v -> 0 <= u0 < 2 ^ 64 ->
  let s := LeadingZeros64 v in
  let vs := shl64 v s in
  let un32 :=
    if 0 <? s then Z.lor (shl64 u1 s) (shr64 u0 (wrap64 (64 - s))) else u1 in
  let un10 := if 0 <? s then shl64 u0 s else u0 in
  0 <= s < 64 /\ vs = v * 2 ^ s /\ 2 ^ 63 <= vs < 2 ^ 64 /\
  0 <= un32 < vs /\ 0 <= un10 < 2 ^ 64 /\
  un32 * 2 ^ 64 + un10 = (u1 * 2 ^ 64 + u0) * 2 ^ s.
Proof.
  intros Hv Hu1 Hu0. cbv zeta.
  destruct (LeadingZeros64_spec v Hv) as [Hs [Hlo Hhi]].
  set (s := LeadingZeros64 v) in *.
  assert (Hp : 0 < 2 ^ s) by (apply Z.pow_pos_nonneg; lia).
  assert (E63 : 2 ^ 63 = 2 ^ (63 - s) * 2 ^ s).
  { rewrite <- Z.pow_add_r by lia. f_equal. lia. }
  assert (E64 : 2 ^ 64 = 2 ^ (64 - s) * 2 ^ s).
  { rewrite <- Z.pow_add_r by lia. f_equal. lia. }
  assert (Hvs : 2 ^ 63 <= v * 2 ^ s < 2 ^ 64) by (rewrite E63, E64; nia).
  assert (Evs : shl64 v s = v * 2 ^ s) by (apply shl64_small; lia).
  rewrite Evs.
  split; [lia|]. split; [reflexivity|]. split; [exact Hvs|].
  destruct (Z.ltb_spec 0 s) as [Hs0|Hs0].
  - destruct (normalise_dividend u1 u0 s) as [Hn Hr]; try lia.
    { nia. }
    assert (R : 0 <= shl64 u0 s < 2 ^ 64) by apply shl64_range.
    split; [|split; [exact R | exact Hn]].
    split; [lia|].
    assert (u1 * 2 ^ 64 + u0 < v * 2 ^ 64) by nia.
    set (X := Z.lor (shl64 u1 s) (shr64 u0 (wrap64 (64 - s)))) in *.
    assert ((u1 * 2 ^ 64 + u0) * 2 ^ s < v * 2 ^ s * 2 ^ 64) by nia.
    nia.
  - assert (s = 0) by lia. subst s. replace (LeadingZeros64 v) with 0 in * by lia.
    rewrite Z.pow_0_r, !Z.mul_1_r. split; [lia|]. split; [lia|reflexivity].
Qed.

(** Two digit steps make the full quotient and remainder, and undoing the
    normalisation shift gives those of the original operands. *)
Lemma two_digit_div vs un32 un10 U v s :
  0 < v -> 0 <= s -> vs = v * 2 ^ s -> 0 <= un10 < 2 ^ 64 ->
  un32 * 2 ^ 64 + un10 = U * 2 ^ s ->
  let q1 := (un32 * 2 ^ 32 + un10 / 2 ^ 32) / vs in
  let un21 := (un32 * 2 ^ 32 + un10 / 2 ^ 32) mod vs in
  let q0 := (un21 * 2 ^ 32 + un10 mod 2 ^ 32) / vs in
  let r0 := (un21 * 2 ^ 32 + un10 mod 2 ^ 32) mod vs in
  q1 * 2 ^ 32 + q0 = U / v /\ r0 / 2 ^ s = U mod v.
Proof.
  intros Hv Hs Evs Hun10 Hnorm. cbv zeta.
  assert (Hp : 0 < 2 ^ s) by (apply Z.pow_pos_nonneg; lia).
  assert (Hvs : 0 < vs) by nia.
  set (n1 := un32 * 2 ^ 32 + un10 / 2 ^ 32).
  pose proof (Z.div_mod n1 vs ltac:(lia)) as D1.
  pose proof (Z.mod_pos_bound n1 vs Hvs) as B1.
  set (n0 := n1 mod vs * 2 ^ 32 + un10 mod 2 ^ 32).
  pose proof (Z.div_mod n0 vs ltac:(lia)) as D0.
  pose proof (Z.mod_pos_bound n0 vs Hvs) as B0.
  pose proof (Z.div_mod un10 (2 ^ 32) ltac:(lia)) as D2.
  assert (HN : U * 2 ^ s = vs * (n1 / vs * 2 ^ 32 + n0 / vs) + n0 mod vs).
  { rewrite <- Hnorm. unfold n0 in D0 at 1. unfold n1 in D1 at 1.
    pow_consts. nia. }
  assert (Hq : U * 2 ^ s / vs = n1 / vs * 2 ^ 32 + n0 / vs).
  { symmetry. apply (Z.div_unique_pos _ _ _ (n0 mod vs)); [lia | exact HN]. }
  assert (Hr : (U * 2 ^ s) mod vs = n0 mod vs).
  { symmetry. apply (Z.mod_unique_pos _ _ (n1 / vs * 2 ^ 32 + n0 / vs)); [lia | exact HN]. }
  assert (Hq' : U * 2 ^ s / vs = U / v).
  { rewrite Evs. apply Z.div_mul_cancel_r; lia. }
  assert (Hr' : (U * 2 ^ s) mod vs = U mod v * 2 ^ s).
  { rewrite Evs. apply Z.mul_mod_distr_r; lia. }
  split; [lia|].
  fold n1 n0. rewrite <- Hr, Hr'. apply Z.div_mul. lia.
Qed.

Lemma quorem128by64_spec u1 u0 v :
  0 < v < 2 ^ 64 -> 0 <= u1 < v -> 0 <= u0 < 2 ^ 64 ->
  Uint128.quorem128by64 u1 u0 v (LeadingZeros64 v)
  = Some ((u1 * 2 ^ 64 + u0) / v, (u1 * 2 ^ 64 + u0) mod v).
Proof.
  intros Hv Hu1 Hu0.
  destruct (divlu_normalise u1 u0 v Hv Hu1 Hu0) as [Hs [Evs [Hvs [Hun32 [Hun10 Hnorm]]]]].
  unfold Uint128.quorem128by64. cbv zeta.
  set (s := LeadingZeros64 v) in *.
  set (vs := shl64 v s) in *.
  set (un32 := if 0 <? s then Z.lor (shl64 u1 s) (shr64 u0 (wrap64 (64 - s))) else u1) in *.
  set (un10 := if 0 <? s then shl64 u0 s else u0) in *.
  change (shl64 1 32) with (2 ^ 32).
  rewrite (shr64_div vs 32), (shr64_div un10 32) by lia.
  rewrite (land_low32 vs), (land_low32 un10) by lia.
  assert (Hvn1 : 2 ^ 31 <= vs / 2 ^ 32 < 2 ^ 32).
  { change (2 ^ 31) with 2147483648. pow_consts. Z.div_mod_to_equations. lia. }
  assert (H31 : 0 < 2 ^ 31) by lia.
  assert (Hun1 : 0 <= un10 / 2 ^ 32 < 2 ^ 32).
  { pow_consts. Z.div_mod_to_equations. lia. }
  assert (Hun0 : 0 <= un10 mod 2 ^ 32 < 2 ^ 32) by (apply Z.mod_pos_bound; lia).
  unfold div64, mod64.
  destruct (Z.eqb_spec (vs / 2 ^ 32) 0) as [E0|_]; [lia|]. cbn [bind].
  assert (Hrh : 0 <= un32 mod (vs / 2 ^ 32) < vs / 2 ^ 32)
    by (apply Z.mod_pos_bound; lia).
  destruct (digit_step vs (un10 / 2 ^ 32) un32
              (wrap64 (shl64 (un32 mod (vs / 2 ^ 32)) 32 + un10 / 2 ^ 32)))
    as [Hd1 [Hr1 Hq1]]; try assumption.
  { rewrite shl64_small by (pow_consts; lia).
    apply wrap64_small. pow_consts. lia. }
  rewrite Hd1. cbn [bind]. rewrite Hr1.
  set (q1 := (un32 * 2 ^ 32 + un10 / 2 ^ 32) / vs) in *.
  set (un21 := (un32 * 2 ^ 32 + un10 / 2 ^ 32) mod vs) in *.
  assert (Hun21 : 0 <= un21 < vs) by (apply Z.mod_pos_bound; lia).
  assert (Hrh2 : 0 <= un21 mod (vs / 2 ^ 32) < vs / 2 ^ 32)
    by (apply Z.mod_pos_bound; lia).
  destruct (digit_step vs (un10 mod 2 ^ 32) un21
              (Z.lor (shl64 (un21 mod (vs / 2 ^ 32)) 32) (un10 mod 2 ^ 32)))
    as [Hd2 [Hr2 Hq2]]; try assumption.
  { apply lor_halves; [lia | assumption]. }
  rewrite Hd2. cbn [bind]. rewrite Hr2.
  set (q0 := (un21 * 2 ^ 32 + un10 mod 2 ^ 32) / vs) in *.
  set (r0 := (un21 * 2 ^ 32 + un10 mod 2 ^ 32) mod vs) in *.
  rewrite lor_halves by assumption.
  rewrite shr64_div by lia.
  destruct (two_digit_div vs un32 un10 (u1 * 2 ^ 64 + u0) v s) as [Hq Hr];
    try assumption; try lia.
  fold q1 un21 q0 r0 in Hq, Hr. rewrite Hq, Hr. reflexivity.
Qed.

Lemma quo128by64_spec u1 u0 v :
  0 < v < 2 ^ 64 -> 0 <= u1 < v -> 0 <= u0 < 2 ^ 64 ->
  Uint128.quo128by64 u1 u0 v (LeadingZeros64 v) = Some ((u1 * 2 ^ 64 + u0) / v).
Proof.
  intros Hv Hu1 Hu0.
  destruct (divlu_normalise u1 u0 v Hv Hu1 Hu0) as [Hs [Evs [Hvs [Hun32 [Hun10 Hnorm]]]]].
  unfold Uint128.quo128by64. cbv zeta.
  set (s := LeadingZeros64 v) in *.
  set (vs := shl64 v s) in *.
  set (un32 := if 0 <? s then Z.lor (shl64 u1 s) (shr64 u0 (wrap64 (64 - s))) else u1) in *.
  set (un10 := if 0 <? s then shl64 u0 s else u0) in *.
  change (shl64 1 32) with (2 ^ 32).
  rewrite (shr64_div vs 32), (shr64_div un10 32) by lia.
  rewrite (land_low32 vs), (land_low32 un10) by lia.
  assert (Hvn1 : 2 ^ 31 <= vs / 2 ^ 32 < 2 ^ 32).
  { change (2 ^ 31) with 2147483648. pow_consts. Z.div_mod_to_equations. lia. }
  assert (H31 : 0 < 2 ^ 31) by lia.
  assert (Hun1 : 0 <= un10 / 2 ^ 32 < 2 ^ 32).
  { pow_consts. Z.div_mod_to_equations. lia. }
  assert (Hun0 : 0 <= un10 mod 2 ^ 32 < 2 ^ 32) by (apply Z.mod_pos_bound; lia).
  unfold div64, mod64.
  destruct (Z.eqb_spec (vs / 2 ^ 32) 0) as [E0|_]; [lia|]. cbn [bind].
  assert (Hrh : 0 <= un32 mod (vs / 2 ^ 32) < vs / 2 ^ 32)
    by (apply Z.mod_pos_bound; lia).
  destruct (digit_step vs (un10 / 2 ^ 32) un32
              (Z.lor (shl64 (un32 mod (vs / 2 ^ 32)) 32) (un10 / 2 ^ 32)))
    as [Hd1 [Hr1 Hq1]]; try assumption.
  { apply lor_halves; [lia | assumption]. }
  rewrite Hd1. cbn [bind]. rewrite Hr1.
  set (q1 := (un32 * 2 ^ 32 + un10 / 2 ^ 32) / vs) in *.
  set (un21 := (un32 * 2 ^ 32 + un10 / 2 ^ 32) mod vs) in *.
  assert (Hun21 : 0 <= un21 < vs) by (apply Z.mod_pos_bound; lia).
  assert (Hrh2 : 0 <= un21 mod (vs / 2 ^ 32) < vs / 2 ^ 32)
    by (apply Z.mod_pos_bound; lia).
  destruct (digit_step vs (un10 mod 2 ^ 32) un21
              (Z.lor (shl64 (un21 mod (vs / 2 ^ 32)) 32) (un10 mod 2 ^ 32)))
    as [Hd2 [Hr2 Hq2]]; try assumption.
  { apply lor_halves; [lia | assumption]. }
  rewrite Hd2. cbn [bind].
  set (q0 := (un21 * 2 ^ 32 + un10 mod 2 ^ 32) / vs) in *.
  rewrite lor_halves by assumption.
  destruct (two_digit_div vs un32 un10 (u1 * 2 ^ 64 + u0) v s) as [Hq Hr];
    try assumption; try lia.
  fold q1 un21 q0 in Hq. rewrite Hq. reflexivity.
Qed.

Lemma div128by64_range u1 u0 v :
  0 < v -> 0 <= u1 < v -> 0 <= u0 < 2 ^ 64 ->
  0 <= (u1 * 2 ^ 64 + u0) / v < 2 ^ 64 /\ 0 <= (u1 * 2 ^ 64 + u0) mod v < v.
Proof.
  intros Hv Hu1 Hu0.
  split; [|apply Z.mod_pos_bound; lia].
  split; [apply Z.div_pos; nia|].
  apply Z.div_lt_upper_bound; nia.
Qed.

(** ** The correction loop never runs out of fuel *)

Lemma again_total fuel : forall b vn1 vn0 un q rhat left right,
  0 < vn1 -> 0 <= rhat < b -> b <= 2 ^ 63 -> vn1 < 2 ^ 63 ->
  b - rhat <= Z.of_nat fuel * vn1 ->
  Uint128.again fuel b vn1 vn0 un q rhat left right <> None.
Proof.
  induction fuel as [|fuel IH]; intros b vn1 vn0 un q rhat left right Hv Hr Hb Hv1 Hf.
  { cbn [Z.of_nat] in Hf. lia. }
  cbn [Uint128.again].
  destruct ((b <=? q) || (right <? left)); [|discriminate].
  rewrite (wrap64_small (rhat + vn1)) by (pow_consts; lia).
  destruct (Z.ltb_spec (rhat + vn1) b); [|discriminate].
  apply IH; try lia.
Qed.

(** [quorem128by64] and [quo128by64] return [None] only through the
    division by a zero [vn1]. *)
Lemma divlu_panics_iff u1 u0 v s :
  (Uint128.quorem128by64 u1 u0 v s = None <-> shr64 (shl64 v s) 32 = 0) /\
  (Uint128.quo128by64 u1 u0 v s = None <-> shr64 (shl64 v s) 32 = 0).
Proof.
  assert (Hvn1 : 0 <= shr64 (shl64 v s) 32 < 2 ^ 32).
  { pose proof (shl64_range v s) as R. rewrite shr64_div by lia.
    pow_consts. Z.div_mod_to_equations. lia. }
  unfold Uint128.quorem128by64, Uint128.quo128by64. cbv zeta.
  change (shl64 1 32) with (2 ^ 32).
  set (vn1 := shr64 (shl64 v s) 32) in *.
  unfold div64, mod64.
  destruct (Z.eqb_spec vn1 0) as [E|E]; cbn [bind]; [split; split; auto|].
  assert (Hfuel : forall rhat, 0 <= rhat < vn1 ->
            2 ^ 32 - rhat <= Z.of_nat (Uint128.again_fuel (2 ^ 32) vn1) * vn1).
  { intros rhat Hr. unfold Uint128.again_fuel.
    rewrite Nat2Z.inj_succ, Z2Nat.id by (apply Z.div_pos; lia).
    pose proof (Z.div_mod (2 ^ 32) vn1 ltac:(lia)).
    pose proof (Z.mod_pos_bound (2 ^ 32) vn1 ltac:(lia)). nia. }
  assert (Hloop : forall vn0 un q x left right,
            Uint128.again (Uint128.again_fuel (2 ^ 32) vn1) (2 ^ 32) vn1 vn0 un q
              (x mod vn1) left right <> None).
  { intros vn0 un q x left right.
    pose proof (Z.mod_pos_bound x vn1 ltac:(lia)) as Hr.
    apply again_total; try (pow_consts; lia). apply Hfuel. exact Hr. }
  split; (split; [|intros; contradiction]); intros Hnone; exfalso.
  - match type of Hnone with
    | context [Uint128.again ?f ?b ?v1 ?v0 ?un ?q (?x mod vn1) ?l ?r] =>
      pose proof (Hloop v0 un q x l r) as H1;
      destruct (Uint128.again f b v1 v0 un q (x mod vn1) l r) as [q1|]; [|contradiction]
    end.
    cbn [bind] in Hnone.
    match type of Hnone with
    | context [Uint128.again ?f ?b ?v1 ?v0 ?un ?q (?x mod vn1) ?l ?r] =>
      pose proof (Hloop v0 un q x l r) as H2;
      destruct (Uint128.again f b v1 v0 un q (x mod vn1) l r) as [q0|]; [|contradiction]
    end.
    discriminate Hnone.
  - match type of Hnone with
    | context [Uint128.again ?f ?b ?v1 ?v0 ?un ?q (?x mod vn1) ?l ?r] =>
      pose proof (Hloop v0 un q x l r) as H1;
      destruct (Uint128.again f b v1 v0 un q (x mod vn1) l r) as [q1|]; [|contradiction]
    end.
    cbn [bind] in Hnone.
    match type of Hnone with
    | context [Uint128.again ?f ?b ?v1 ?v0 ?un ?q (?x mod vn1) ?l ?r] =>
      pose proof (Hloop v0 un q x l r) as H2;
      destruct (Uint128.again f b v1 v0 un q (x mod vn1) l r) as [q0|]; [|contradiction]
    end.
    discriminate Hnone.
Qed.

(** ** Division by a divisor wider than 64 bits *)

(** The quotient estimate of Hacker's Delight's [divludi]: dividing half
    the dividend by the top 64 bits of the normalised divisor, shifting
    back and subtracting one (unless zero) gives the quotient or one less. *)
Lemma hd_estimate M V n :
  0 <= M < 2 ^ 128 -> 0 <= n <= 63 ->
  2 ^ (127 - n) <= V < 2 ^ (128 - n) ->
  let V1 := V * 2 ^ n / 2 ^ 64 in
  let Q0 := M / 2 / V1 / 2 ^ (63 - n) in
  let Qe := if Q0 =? 0 then 0 else Q0 - 1 in
  2 ^ 63 <= V1 < 2 ^ 64 /\ 0 <= Q0 /\ 0 <= Qe /\
  Qe * V <= M < (Qe + 2) * V.
Proof.
  intros HM Hn HV. cbv zeta.
  set (P := 2 ^ (64 - n)). set (N2 := 2 ^ n).
  assert (HP : 2 <= P).
  { unfold P. change 2 with (2 ^ 1) at 1. apply Z.pow_le_mono_r; lia. }
  assert (HN2 : 1 <= N2).
  { unfold N2. change 1 with (2 ^ 0) at 1. apply Z.pow_le_mono_r; lia. }
  assert (HNP : N2 * P = 2 ^ 64).
  { unfold N2, P. rewrite <- Z.pow_add_r by lia. f_equal. lia. }
  assert (H127 : 2 ^ (127 - n) = 2 ^ 63 * P).
  { unfold P. rewrite <- Z.pow_add_r by lia. f_equal. lia. }
  assert (H128 : 2 ^ (128 - n) = 2 ^ 64 * P).
  { unfold P. rewrite <- Z.pow_add_r by lia. f_equal. lia. }
  rewrite H127, H128 in HV.
  assert (HP4 : P = 2 \/ 4 <= P).
  { destruct (Z.eq_dec n 63) as [->|]; [left; reflexivity|right].
    unfold P. change 4 with (2 ^ 2). apply Z.pow_le_mono_r; lia. }
  (* V1 is V without its low 64 - n bits *)
  assert (EV1 : V * N2 / 2 ^ 64 = V / P).
  { rewrite <- HNP, (Z.mul_comm V N2). apply Z.div_mul_cancel_l; lia. }
  fold N2. rewrite EV1.
  set (V1 := V / P).
  pose proof (Z.div_mod V P ltac:(lia)) as DV. fold V1 in DV.
  pose proof (Z.mod_pos_bound V P ltac:(lia)) as BV.
  set (e := V mod P) in *.
  assert (HV1 : 2 ^ 63 <= V1 < 2 ^ 64).
  { unfold V1. split.
    - apply Z.div_le_lower_bound; lia.
    - apply Z.div_lt_upper_bound; lia. }
  (* Q0 is M / D for D = V1 * P <= V *)
  assert (EP : 2 * 2 ^ (63 - n) = P).
  { unfold P. replace (64 - n) with (Z.succ (63 - n)) by lia.
    rewrite Z.pow_succ_r by lia. reflexivity. }
  assert (Hp63 : 0 < 2 ^ (63 - n)) by (apply Z.pow_pos_nonneg; lia).
  assert (EQ0 : M / 2 / V1 / 2 ^ (63 - n) = M / (V1 * P)).
  { rewrite !Z.div_div by lia. f_equal. rewrite <- EP. ring. }
  rewrite EQ0.
  set (D := V1 * P) in *.
  assert (HD : 0 < D) by (unfold D; apply Z.mul_pos_pos; lia).
  assert (HDV : V = D + e) by (unfold D; lia).
  pose proof (Z.div_mod M D ltac:(lia)) as DM.
  pose proof (Z.mod_pos_bound M D HD) as BM.
  set (Q0 := M / D) in *.
  assert (HQ0 : 0 <= Q0) by (apply Z.div_pos; lia).
  (* the true quotient *)
  assert (HVpos : 0 < V) by lia.
  pose proof (Z.div_mod M V ltac:(lia)) as DT.
  pose proof (Z.mod_pos_bound M V HVpos) as BT.
  set (Qt := M / V) in *.
  assert (HQt : 0 <= Qt) by (apply Z.div_pos; lia).
  assert (Hge : Qt <= Q0).
  { apply Z.div_le_lower_bound; [exact HD|].
    assert (D * Qt <= V * Qt) by (apply Z.mul_le_mono_nonneg_r; lia). lia. }
  assert (HQtb : Qt + 1 <= 2 * N2).
  { assert (Qt * (2 ^ 63 * P) <= Qt * V) by (apply Z.mul_le_mono_nonneg_l; lia).
    assert (Qt * (2 ^ 63 * P) < 2 ^ 64 * (N2 * P)).
    { rewrite HNP. change (2 ^ 64 * 2 ^ 64) with (2 ^ 128). lia. }
    assert (Qt * 2 ^ 63 < 2 ^ 64 * N2).
    { apply (Z.mul_lt_mono_pos_r P); [lia|]. lia. }
    pow_consts. lia. }
  assert (Hee : (Qt + 1) * e <= D).
  { assert ((Qt + 1) * e <= 2 * N2 * (P - 1)) by (apply Z.mul_le_mono_nonneg; lia).
    assert (2 * N2 * (P - 1) = 2 * 2 ^ 64 - 2 * N2) by (rewrite <- HNP; ring).
    assert (2 ^ 63 * P <= D) by (unfold D; apply Z.mul_le_mono_nonneg_r; lia).
    destruct HP4 as [HP2|HP4].
    - rewrite HP2 in *. pow_consts. lia.
    - pow_consts. lia. }
  assert (Hle : Q0 <= Qt + 1).
  { assert (Q0 < Qt + 2); [|lia].
    apply Z.div_lt_upper_bound; [exact HD|].
    replace (D * (Qt + 2)) with (D * Qt + D + D) by ring.
    replace ((Qt + 1) * e) with (Qt * e + e) in Hee by ring.
    assert (V * Qt = D * Qt + Qt * e) by (rewrite HDV; ring).
    lia. }
  split; [exact HV1|]. split; [exact HQ0|].
  destruct (Z.eqb_spec Q0 0) as [E0|E0].
  - split; [lia|]. assert (EQ : Qt = 0) by lia.
    rewrite EQ in DT. lia.
  - split; [lia|].
    assert (HQ1 : (Q0 - 1) * V <= Qt * V) by (apply Z.mul_le_mono_nonneg_r; lia).
    assert (HQ2 : (Qt + 1) * V <= (Q0 - 1 + 2) * V)
      by (apply Z.mul_le_mono_nonneg_r; lia).
    replace ((Qt + 1) * V) with (V * Qt + V) in HQ2 by ring.
    split; lia.
Qed.

Lemma LeadingZeros64_top x : 2 ^ 63 <= x < 2 ^ 64 -> LeadingZeros64 x = 0.
Proof.
  intros Hx. destruct (LeadingZeros64_spec x) as [Hl [Hlo Hhi]]; [lia|].
  destruct (Z.eq_dec (LeadingZeros64 x) 0) as [E|E]; [exact E|].
  assert (2 ^ (64 - LeadingZeros64 x) <= 2 ^ 63) by (apply Z.pow_le_mono_r; lia).
  lia.
Qed.

Lemma quorem128by128_narrow m v :
  Uint128.wf m -> Uint128.wf v -> Uint128.hi v = 0 -> Uint128.lo v <> 0 ->
  exists q r,
    Uint128.quorem128by128 m v 64 (LeadingZeros64 (Uint128.lo v)) = Some (q, r) /\
    Uint128.divides_as m v q r.
Proof.
  intros [Hmh Hml] [Hvh Hvl] Hv0 Hvn. unfold Uint128.quorem128by128, Uint128.divides_as.
  rewrite Hv0. cbn [Z.eqb].
  assert (Hv : 0 < Uint128.lo v < 2 ^ 64) by lia.
  unfold Uint128.toZ, Uint128.wf. rewrite Hv0.
  destruct (Z.ltb_spec (Uint128.hi m) (Uint128.lo v)) as [Hlt|Hge].
  - rewrite quorem128by64_spec by lia. cbn [bind].
    eexists. eexists. split; [reflexivity|]. cbn [Uint128.hi Uint128.lo].
    destruct (div128by64_range (Uint128.hi m) (Uint128.lo m) (Uint128.lo v))
      as [Rq Rr]; try lia.
    pose proof (Z.div_mod (Uint128.hi m * 2 ^ 64 + Uint128.lo m) (Uint128.lo v)
                  ltac:(lia)).
    repeat split; lia.
  - unfold div64, mod64.
    destruct (Z.eqb_spec (Uint128.lo v) 0); [lia|]. cbn [bind].
    pose proof (Z.mod_pos_bound (Uint128.hi m) (Uint128.lo v) ltac:(lia)) as Brh.
    rewrite quorem128by64_spec by lia. cbn [bind].
    eexists. eexists. split; [reflexivity|]. cbn [Uint128.hi Uint128.lo].
    set (rh := Uint128.hi m mod Uint128.lo v) in *.
    destruct (div128by64_range rh (Uint128.lo m) (Uint128.lo v)) as [Rq Rr]; try lia.
    pose proof (Z.div_mod (rh * 2 ^ 64 + Uint128.lo m) (Uint128.lo v) ltac:(lia)) as D2.
    pose proof (Z.div_mod (Uint128.hi m) (Uint128.lo v) ltac:(lia)) as D1.
    fold rh in D1.
    assert (0 <= Uint128.hi m / Uint128.lo v < 2 ^ 64).
    { split; [apply Z.div_pos; lia|].
      apply Z.div_lt_upper_bound; [lia|]. nia. }
    set (qh := Uint128.hi m / Uint128.lo v) in *.
    set (ql := (rh * 2 ^ 64 + Uint128.lo m) / Uint128.lo v) in *.
    set (rl := (rh * 2 ^ 64 + Uint128.lo m) mod Uint128.lo v) in *.
    repeat split; lia.
Qed.

Lemma u128_hi_lo u :
  Uint128.wf u ->
  Uint128.hi u = Uint128.toZ u / 2 ^ 64 /\ Uint128.lo u = Uint128.toZ u mod 2 ^ 64.
Proof.
  intros [Hh Hl]. unfold Uint128.toZ. pow_consts. Z.div_mod_to_equations. lia.
Qed.

Lemma quorem128by128_wide m v :
  Uint128.wf m -> Uint128.wf v -> Uint128.hi v <> 0 ->
  exists q r,
    Uint128.quorem128by128 m v (LeadingZeros64 (Uint128.hi v)) 0 = Some (q, r) /\
    Uint128.divides_as m v q r.
Proof.
  intros Hm Hv Hvn.
  pose proof (u128_toZ_range m Hm) as RM.
  pose proof (u128_toZ_range v Hv) as RV.
  assert (Hvh : 0 < Uint128.hi v < 2 ^ 64) by (destruct Hv; lia).
  destruct (LeadingZeros64_spec _ Hvh) as [Hn [Hlo Hhi]].
  set (n := LeadingZeros64 (Uint128.hi v)) in *.
  set (M := Uint128.toZ m) in *. set (V := Uint128.toZ v) in *.
  assert (HV : 2 ^ (127 - n) <= V < 2 ^ (128 - n)).
  { replace (127 - n) with (63 - n + 64) by lia.
    replace (128 - n) with (64 - n + 64) by lia.
    rewrite !Z.pow_add_r by lia. unfold V, Uint128.toZ. destruct Hv as [_ Hvl].
    split; nia. }
  destruct (hd_estimate M V n RM ltac:(lia) HV) as [HV1 [HQ0 [HQe Hest]]].
  cbv zeta in HV1, HQ0, HQe, Hest.
  set (V1 := V * 2 ^ n / 2 ^ 64) in *.
  set (Q0 := M / 2 / V1 / 2 ^ (63 - n)) in *.
  set (Qe := if Q0 =? 0 then 0 else Q0 - 1) in *.
  assert (Hp : 0 < 2 ^ n) by (apply Z.pow_pos_nonneg; lia).
  (* the normalised divisor and the halved dividend *)
  assert (Hv1w : Uint128.wf (Uint128.Lsh v n)) by (apply u128_Lsh_wf; [assumption|lia]).
  assert (Hv1 : Uint128.hi (Uint128.Lsh v n) = V1).
  { rewrite (proj1 (u128_hi_lo _ Hv1w)).
    rewrite u128_Lsh_spec by (try assumption; pow_consts; lia).
    fold V. rewrite Z.mod_small; [reflexivity|].
    assert (E128 : 2 ^ 128 = 2 ^ (128 - n) * 2 ^ n).
    { rewrite <- Z.pow_add_r by lia. f_equal. lia. }
    rewrite E128. split; [lia|]. apply Z.mul_lt_mono_pos_r; lia. }
  assert (Hu1w : Uint128.wf (Uint128.Rsh m 1)) by (apply u128_Rsh_wf; [assumption|lia]).
  assert (Hu1 : Uint128.toZ (Uint128.Rsh m 1) = M / 2).
  { rewrite u128_Rsh_spec by (try assumption; pow_consts; lia). reflexivity. }
  assert (Hu1h : 0 <= Uint128.hi (Uint128.Rsh m 1) < 2 ^ 63).
  { rewrite (proj1 (u128_hi_lo _ Hu1w)), Hu1. 
    pow_consts. Z.div_mod_to_equations. lia. }
  unfold Uint128.quorem128by128.
  destruct (Z.eqb_spec (Uint128.hi v) 0) as [|_]; [contradiction|].
  rewrite Hv1.
  pose proof (quo128by64_spec (Uint128.hi (Uint128.Rsh m 1))
                (Uint128.lo (Uint128.Rsh m 1)) V1) as Hquo.
  rewrite (LeadingZeros64_top V1 HV1) in Hquo.
  rewrite Hquo by (destruct Hu1w; lia). clear Hquo.
  cbn [bind]. fold (Uint128.toZ (Uint128.Rsh m 1)). rewrite Hu1.
  set (Q1 := M / 2 / V1) in *.
  assert (HQ1 : 0 <= Q1 < 2 ^ 64).
  { unfold Q1. rewrite <- Hu1. unfold Uint128.toZ.
    apply div128by64_range; destruct Hu1w; lia. }
  assert (Hq1w0 : Uint128.wf (Uint128.mk 0 Q1)) by (split; cbn [Uint128.hi Uint128.lo]; lia).
  rewrite (wrap64_small (63 - n)) by (pow_consts; lia).
  set (q1 := Uint128.Rsh (Uint128.mk 0 Q1) (63 - n)).
  assert (Hq1w : Uint128.wf q1) by (apply u128_Rsh_wf; [assumption|lia]).
  assert (Hq1 : Uint128.toZ q1 = Q0).
  { unfold q1. rewrite u128_Rsh_spec by (try assumption; pow_consts; lia).
    unfold Uint128.toZ. cbn [Uint128.hi Uint128.lo]. reflexivity. }
  set (q1' := if Z.lor (Uint128.hi q1) (Uint128.lo q1) =? 0 then q1 else Uint128.Dec q1).
  assert (Hq1' : Uint128.wf q1' /\ Uint128.toZ q1' = Qe).
  { unfold q1', Qe.
    destruct (Z.eqb_spec (Z.lor (Uint128.hi q1) (Uint128.lo q1)) 0) as [E|E].
    - apply Z.lor_eq_0_iff in E. destruct E as [E1 E2].
      assert (E0 : Q0 = 0) by (rewrite <- Hq1; unfold Uint128.toZ; lia).
      rewrite E0. cbn [Z.eqb]. split; [assumption|]. lia.
    - assert (E0 : Q0 <> 0).
      { intros E0. apply E. apply Z.lor_eq_0_iff.
        rewrite <- Hq1 in E0. unfold Uint128.toZ in E0. destruct Hq1w. pow_consts. lia. }
      destruct (Z.eqb_spec Q0 0); [contradiction|].
      destruct (u128_Dec_spec q1 Hq1w) as [Hw Hd]. split; [exact Hw|].
      rewrite Hd, Hq1. apply Z.mod_small.
      pose proof (u128_toZ_range q1 Hq1w). lia. }
  destruct Hq1' as [Hq1'w Hq1'].
  destruct (u128_Mul_spec q1' v Hq1'w Hv) as [Hmw Hmul].
  fold V in Hmul. rewrite Hq1' in Hmul.
  rewrite Z.mod_small in Hmul by lia.
  destruct (u128_Sub_spec m _ Hm Hmw) as [Hrw Hr].
  fold M in Hr. rewrite Hmul in Hr. rewrite Z.mod_small in Hr by lia.
  set (r := Uint128.Sub m (Uint128.Mul q1' v)) in *.
  assert (HVpos : 0 < V) by lia.
  unfold Uint128.divides_as. fold M V.
  destruct (u128_Cmp_spec r v) as [[Ec Hc]|[[Ec Hc]|[[Ec Hc]|Hc]]];
    [| | |exfalso; apply Hc; split; assumption]; rewrite Ec; cbn [Z.leb Z.compare];
    fold V in Hc; rewrite Hr in Hc.
  - eexists. eexists. split; [reflexivity|].
    rewrite Hq1', Hr. repeat split; try apply Hq1'w; try apply Hrw; lia.
  - destruct (u128_Inc_spec q1' Hq1'w) as [Hiw Hi].
    destruct (u128_Sub_spec r v Hrw Hv) as [Hsw Hs].
    fold V in Hs. rewrite Hr in Hs. rewrite Hq1' in Hi.
    assert (Qe + 1 <= M) by nia.
    rewrite Z.mod_small in Hi by lia. rewrite Z.mod_small in Hs by lia.
    eexists. eexists. split; [reflexivity|].
    rewrite Hi, Hs. repeat split; try apply Hiw; try apply Hsw; lia.
  - destruct (u128_Inc_spec q1' Hq1'w) as [Hiw Hi].
    destruct (u128_Sub_spec r v Hrw Hv) as [Hsw Hs].
    fold V in Hs. rewrite Hr in Hs. rewrite Hq1' in Hi.
    assert (Qe + 1 <= M) by nia.
    rewrite Z.mod_small in Hi by lia. rewrite Z.mod_small in Hs by lia.
    eexists. eexists. split; [reflexivity|].
    rewrite Hi, Hs. repeat split; try apply Hiw; try apply Hsw; lia.
Qed.

(** ** Dispatch of [QuoRem] and [Quo] *)

Lemma u128_LeadingZeros_spec u :
  Uint128.wf u -> Uint128.toZ u <> 0 ->
  0 <= Uint128.LeadingZeros u <= 127 /\
  2 ^ (127 - Uint128.LeadingZeros u) <= Uint128.toZ u
    < 2 ^ (128 - Uint128.LeadingZeros u).
Proof.
  intros [Hh Hl] Hn. unfold Uint128.LeadingZeros, Uint128.toZ in *.
  destruct (Z.eqb_spec (Uint128.hi u) 0) as [E|E].
  - rewrite E in *. cbn [Z.mul Z.add] in *.
    destruct (LeadingZeros64_spec (Uint128.lo u)) as [Hr [Hlo Hhi]]; [lia|].
    rewrite wrap64_small by (pow_consts; lia).
    replace (127 - (LeadingZeros64 (Uint128.lo u) + 64))
      with (63 - LeadingZeros64 (Uint128.lo u)) by lia.
    replace (128 - (LeadingZeros64 (Uint128.lo u) + 64))
      with (64 - LeadingZeros64 (Uint128.lo u)) by lia.
    lia.
  - destruct (LeadingZeros64_spec (Uint128.hi u)) as [Hr [Hlo Hhi]]; [lia|].
    set (n := LeadingZeros64 (Uint128.hi u)) in *.
    replace (127 - n) with (63 - n + 64) by lia.
    replace (128 - n) with (64 - n + 64) by lia.
    rewrite !Z.pow_add_r by lia. split; [lia|]. split; nia.
Qed.

Lemma u128_TrailingZeros_spec u :
  Uint128.wf u -> Uint128.toZ u <> 0 ->
  0 <= Uint128.TrailingZeros u <= 127 /\
  exists m, Uint128.toZ u = 2 ^ Uint128.TrailingZeros u * (2 * m + 1) /\ 0 <= m.
Proof.
  intros [Hh Hl] Hn. unfold Uint128.TrailingZeros, Uint128.toZ in *.
  destruct (Z.eqb_spec (Uint128.lo u) 0) as [E|E].
  - rewrite E in *. rewrite Z.add_0_r in *.
    destruct (TrailingZeros64_spec (Uint128.hi u)) as [Hr [m [Hm Hm0]]]; [lia|].
    rewrite wrap64_small by (pow_consts; lia).
    split; [lia|]. exists m. split; [|assumption].
    rewrite Z.pow_add_r by lia. rewrite Hm at 1. ring.
  - destruct (TrailingZeros64_spec (Uint128.lo u)) as [Hr [m [Hm Hm0]]]; [lia|].
    set (t := TrailingZeros64 (Uint128.lo u)) in *.
    split; [lia|].
    assert (Hp : 0 < 2 ^ t) by (apply Z.pow_pos_nonneg; lia).
    assert (E64 : 2 ^ 64 = 2 ^ t * 2 ^ (64 - t)).
    { rewrite <- Z.pow_add_r by lia. f_equal. lia. }
    assert (E64' : 2 ^ (64 - t) = 2 * 2 ^ (63 - t)).
    { rewrite <- Z.pow_succ_r by lia. f_equal. lia. }
    assert (0 < 2 ^ (63 - t)) by (apply Z.pow_pos_nonneg; lia).
    exists (Uint128.hi u * 2 ^ (63 - t) + m). split; [|nia].
    rewrite E64, E64', Hm. ring.
Qed.

(** Leading and trailing zeros adding up to 127 single out powers of two. *)
Lemma u128_single_bit u :
  Uint128.wf u -> Uint128.toZ u <> 0 ->
  Uint128.LeadingZeros u + Uint128.TrailingZeros u = 127 ->
  Uint128.toZ u = 2 ^ Uint128.TrailingZeros u.
Proof.
  intros Hu Hn Hsum.
  destruct (u128_LeadingZeros_spec u Hu Hn) as [Hl [Hlo Hhi]].
  destruct (u128_TrailingZeros_spec u Hu Hn) as [Ht [m [Hm Hm0]]].
  replace (128 - Uint128.LeadingZeros u) with (Z.succ (Uint128.TrailingZeros u)) in Hhi by lia.
  rewrite Z.pow_succ_r in Hhi by lia.
  assert (0 < 2 ^ Uint128.TrailingZeros u) by (apply Z.pow_pos_nonneg; lia).
  assert (m = 0) by nia. subst m. lia.
Qed.

Lemma u128_LeadingZeros_mono a b :
  Uint128.wf a -> Uint128.wf b -> 0 < Uint128.toZ a <= Uint128.toZ b ->
  Uint128.LeadingZeros b <= Uint128.LeadingZeros a.
Proof.
  intros Ha Hb Hab.
  destruct (u128_LeadingZeros_spec a Ha) as [Hla [Hal Hah]]; [lia|].
  destruct (u128_LeadingZeros_spec b Hb) as [Hlb [Hbl Hbh]]; [lia|].
  destruct (Z.le_gt_cases (Uint128.LeadingZeros b) (Uint128.LeadingZeros a)); [assumption|].
  assert (2 ^ (128 - Uint128.LeadingZeros b) <= 2 ^ (127 - Uint128.LeadingZeros a))
    by (apply Z.pow_le_mono_r; lia).
  lia.
Qed.

(** The binary path: [by_]'s leading zeros are at least [u]'s. *)
Lemma quorem128bin_spec u by_ :
  Uint128.wf u -> Uint128.wf by_ -> 0 < Uint128.toZ by_ <= Uint128.toZ u ->
  Uint128.divides_as u by_
    (fst (Uint128.quorem128bin u by_ (Uint128.LeadingZeros u) (Uint128.LeadingZeros by_)))
    (snd (Uint128.quorem128bin u by_ (Uint128.LeadingZeros u) (Uint128.LeadingZeros by_))).
Proof.
  intros Hu Hb Hub.
  destruct (u128_LeadingZeros_spec u Hu) as [Hlu [Hul Huh]]; [lia|].
  destruct (u128_LeadingZeros_spec by_ Hb) as [Hlb [Hbl Hbh]]; [lia|].
  pose proof (u128_LeadingZeros_mono by_ u Hb Hu Hub) as Hmono.
  set (lu := Uint128.LeadingZeros u) in *. set (lb := Uint128.LeadingZeros by_) in *.
  unfold Uint128.quorem128bin.
  rewrite (wrap64_small (lb - lu)) by (pow_consts; lia).
  assert (Es : signed64 (lb - lu) = lb - lu).
  { unfold signed64. pow_consts. Z.div_mod_to_equations. lia. }
  rewrite Es. rewrite (wrap64_small (lb - lu)) by (pow_consts; lia).
  set (k := lb - lu) in *.
  assert (Hp : 0 < 2 ^ k) by (apply Z.pow_pos_nonneg; lia).
  assert (Hbk : Uint128.toZ by_ * 2 ^ k < 2 ^ (128 - lu)).
  { replace (128 - lu) with (128 - lb + k) by (unfold k; lia).
    rewrite Z.pow_add_r by lia. apply Z.mul_lt_mono_pos_r; lia. }
  assert (Hbk' : 2 ^ (127 - lu) <= Uint128.toZ by_ * 2 ^ k).
  { replace (127 - lu) with (127 - lb + k) by (unfold k; lia).
    rewrite Z.pow_add_r by lia. apply Z.mul_le_mono_nonneg_r; lia. }
  assert (H128 : 2 ^ (128 - lu) <= 2 ^ 128) by (apply Z.pow_le_mono_r; lia).
  assert (E2 : 2 ^ (128 - lu) = 2 * 2 ^ (127 - lu)).
  { rewrite <- Z.pow_succ_r by lia. f_equal. lia. }
  assert (Hlw : Uint128.wf (Uint128.Lsh by_ k)) by (apply u128_Lsh_wf; [assumption|lia]).
  assert (Hl : Uint128.toZ (Uint128.Lsh by_ k) = Uint128.toZ by_ * 2 ^ k).
  { rewrite u128_Lsh_spec by (try assumption; pow_consts; lia).
    apply Z.mod_small. lia. }
  unfold Uint128.divides_as.
  pose proof (u128_toZ_range u Hu) as Ru.
  destruct (bin_loop_spec (Z.to_nat k) Uint128.zeroUint128 u (Uint128.Lsh by_ k)
              (Uint128.toZ by_) (Uint128.toZ u)) as [W1 [W2 [E L]]];
    try assumption; try lia.
  - split; cbn; pow_consts; lia.
  - rewrite Z2Nat.id by lia. exact Hl.
  - reflexivity.
  - repeat split; try apply W1; try apply W2; lia.
Qed.

Lemma u128_wf_zero : Uint128.wf Uint128.zeroUint128.
Proof. unfold Uint128.wf. simpl. lia. Qed.

Lemma u128_wf_one : Uint128.wf (Uint128.mk 0 1).
Proof. unfold Uint128.wf. simpl. lia. Qed.

Lemma divides_as_pow2 u by_ t :
  Uint128.wf u -> Uint128.wf by_ -> 0 <= t <= 127 -> Uint128.toZ by_ = 2 ^ t ->
  Uint128.divides_as u by_ (Uint128.Rsh u t) (Uint128.And (Uint128.Dec by_) u).
Proof.
  intros Hu Hb Ht Eb. unfold Uint128.divides_as.
  assert (Hp : 0 < 2 ^ t) by (apply Z.pow_pos_nonneg; lia).
  pose proof (u128_toZ_range u Hu) as Ru.
  pose proof (u128_toZ_range by_ Hb) as Rb.
  destruct (u128_Dec_spec by_ Hb) as [Hdw Hd].
  rewrite Eb in Hd. rewrite Z.mod_small in Hd by lia.
  destruct (u128_And_spec _ u Hdw Hu) as [Haw Ha].
  rewrite Hd in Ha.
  replace (2 ^ t - 1) with (Z.ones t) in Ha by (rewrite Z.ones_equiv; lia).
  rewrite Z.land_comm, Z.land_ones in Ha by lia.
  split; [apply u128_Rsh_wf; [assumption|lia]|]. split; [exact Haw|].
  rewrite u128_Rsh_spec by (try assumption; pow_consts; lia).
  rewrite Ha, Eb.
  split; [apply Z.div_mod; lia | apply Z.mod_pos_bound; lia].
Qed.

(** [QuoRem] on a nonzero divisor returns the quotient and remainder, and
    [Quo] returns the same quotient. *)
Lemma u128_QuoRem_spec u by_ :
  Uint128.wf u -> Uint128.wf by_ -> Uint128.toZ by_ <> 0 ->
  exists q r,
    Uint128.QuoRem u by_ = Some (q, r) /\
    Uint128.divides_as u by_ q r /\
    Uint128.Quo u by_ = Some q.
Proof.
  intros Hu Hb Hn.
  pose proof (u128_toZ_range u Hu) as Ru.
  pose proof (u128_toZ_range by_ Hb) as Rb.
  destruct (u128_LeadingZeros_spec by_ Hb Hn) as [Hlb [Hbl Hbh]].
  destruct (u128_TrailingZeros_spec by_ Hb Hn) as [Htb _].
  assert (Hz : (Uint128.lo by_ =? 0) && (Uint128.hi by_ =? 0) = false).
  { destruct (Z.eqb_spec (Uint128.lo by_) 0) as [E1|]; [|reflexivity].
    destruct (Z.eqb_spec (Uint128.hi by_) 0) as [E2|]; [|reflexivity].
    exfalso. apply Hn. unfold Uint128.toZ. rewrite E1, E2. reflexivity. }
  unfold Uint128.QuoRem, Uint128.Quo. rewrite Hz.
  destruct (Z.eqb_spec (Z.lor (Uint128.hi u) (Uint128.hi by_)) 0) as [E|E].
  { (* both operands fit 64 bits *)
    apply Z.lor_eq_0_iff in E. destruct E as [Eu Eb].
    unfold Uint128.toZ in Hn. rewrite Eb in Hn. cbn [Z.mul Z.add] in Hn.
    unfold div64, mod64. destruct (Z.eqb_spec (Uint128.lo by_) 0); [contradiction|].
    cbn [bind]. eexists. eexists. split; [reflexivity|]. split; [|reflexivity].
    unfold Uint128.divides_as, Uint128.wf, Uint128.toZ. cbn [Uint128.hi Uint128.lo].
    rewrite Eu, Eb. cbn [Z.mul Z.add].
    destruct Hu as [_ Hul], Hb as [_ Hbl'].
    pose proof (Z.div_mod (Uint128.lo u) (Uint128.lo by_) ltac:(lia)).
    pose proof (Z.mod_pos_bound (Uint128.lo u) (Uint128.lo by_) ltac:(lia)).
    assert (0 <= Uint128.lo u / Uint128.lo by_ < 2 ^ 64).
    { split; [apply Z.div_pos; lia|]. apply Z.div_lt_upper_bound; nia. }
    repeat split; lia. }
  (* the three leading-zero counts *)
  assert (Etriple :
    (if Uint128.hi by_ =? 0
     then (LeadingZeros64 (Uint128.lo by_), 64, wrap64 (LeadingZeros64 (Uint128.lo by_) + 64))
     else (0, LeadingZeros64 (Uint128.hi by_), LeadingZeros64 (Uint128.hi by_)))
    = (if Uint128.hi by_ =? 0 then LeadingZeros64 (Uint128.lo by_) else 0,
       if Uint128.hi by_ =? 0 then 64 else LeadingZeros64 (Uint128.hi by_),
       Uint128.LeadingZeros by_)).
  { unfold Uint128.LeadingZeros. destruct (Uint128.hi by_ =? 0); reflexivity. }
  rewrite Etriple. clear Etriple.
  set (lb := Uint128.LeadingZeros by_) in *.
  destruct (Z.eqb_spec lb 127) as [E127|E127].
  { (* divisor 1 *)
    rewrite E127 in Hbl, Hbh. change (2 ^ (127 - 127)) with 1 in Hbl.
    change (2 ^ (128 - 127)) with 2 in Hbh.
    eexists. eexists. split; [reflexivity|]. split; [|reflexivity].
    assert (E1 : Uint128.toZ by_ = 1) by lia.
    unfold Uint128.divides_as. split; [exact Hu|]. split; [apply u128_wf_zero|].
    change (Uint128.toZ Uint128.zeroUint128) with 0. rewrite E1. lia. }
  set (tz := Uint128.TrailingZeros by_) in *.
  rewrite (wrap64_small (lb + tz)) by (pow_consts; lia).
  destruct (Z.eqb_spec (lb + tz) 127) as [Esum|Esum].
  { (* divisor a power of two *)
    eexists. eexists. split; [reflexivity|]. split; [|reflexivity].
    apply divides_as_pow2; try assumption.
    apply u128_single_bit; assumption. }
  destruct (u128_Cmp_spec u by_) as [[Ec Hc]|[[Ec Hc]|[[Ec Hc]|Hc]]];
    [| | |exfalso; apply Hc; split; assumption]; rewrite Ec;
    cbn [Z.ltb Z.eqb Z.compare].
  { (* dividend below divisor *)
    eexists. eexists. split; [reflexivity|]. split; [|reflexivity].
    unfold Uint128.divides_as. split; [apply u128_wf_zero|].
    split; [exact Hu|]. change (Uint128.toZ Uint128.zeroUint128) with 0. lia. }
  { (* equal operands *)
    eexists. eexists. split; [reflexivity|]. split; [|reflexivity].
    unfold Uint128.divides_as.
    split; [apply u128_wf_one|]. split; [apply u128_wf_zero|].
    change (Uint128.toZ Uint128.zeroUint128) with 0.
    change (Uint128.toZ (Uint128.mk 0 1)) with 1. lia. }
  (* the general case *)
  pose proof (u128_LeadingZeros_mono by_ u Hb Hu ltac:(lia)) as Hmono.
  destruct (u128_LeadingZeros_spec u Hu ltac:(lia)) as [Hlu _].
  set (lu := Uint128.LeadingZeros u) in *.
  rewrite (wrap64_small (lb - lu)) by (pow_consts; lia).
  destruct (Z.ltb_spec Uint128.divAlgoLeading0Spill (lb - lu)) as [Hspill|Hspill].
  - destruct (Z.eqb_spec (Uint128.hi by_) 0) as [Eh|Eh].
    + assert (Uint128.lo by_ <> 0).
      { intros E0. apply Hn. unfold Uint128.toZ. rewrite Eh, E0. reflexivity. }
      destruct (quorem128by128_narrow u by_ Hu Hb Eh) as [q [r [Eq Hd]]]; [assumption|].
      rewrite Eq. cbn [bind]. exists q, r. repeat split; try apply Hd.
    + destruct (quorem128by128_wide u by_ Hu Hb Eh) as [q [r [Eq Hd]]].
      rewrite Eq. cbn [bind]. exists q, r. repeat split; try apply Hd.
  - unfold Uint128.quo128bin.
    pose proof (quorem128bin_spec u by_ Hu Hb ltac:(lia)) as Hd. fold lu lb in Hd.
    unfold Uint128.quorem128bin in *.
    eexists. eexists. split; [apply f_equal, surjective_pairing|].
    split; [exact Hd | reflexivity].
Qed.

(** A result that satisfies the division equation is the integer quotient
    and remainder. *)
Lemma divides_as_unique u b q r :
  Uint128.divides_as u b q r ->
  0 <= Uint128.toZ r < Uint128.toZ b /\
  Uint128.toZ q = Uint128.toZ u / Uint128.toZ b /\
  Uint128.toZ r = Uint128.toZ u mod Uint128.toZ b.
Proof.
  intros [Hq [Hr [Hdiv Hlt]]].
  pose proof (u128_toZ_range r Hr) as Rr.
  split; [lia|]. split.
  - apply (Z.div_unique_pos _ _ _ (Uint128.toZ r)); [lia | exact Hdiv].
  - apply (Z.mod_unique_pos _ _ (Uint128.toZ q)); [lia | exact Hdiv].
Qed.

(** C1: for every dividend [u] and nonzero divisor [b], [QuoRem] returns
    [(q, r)] with [u = b * q + r] in exact integer arithmetic and [r < b]
    (so [q] and [r] are the integer quotient and remainder), whatever
    dispatch path the operands take; [Quo] and [Rem] return the same [q]
    and [r]. *)
Theorem uint128_quorem_correct (u b : Uint128.t) :
  Uint128.wf u -> Uint128.wf b -> Uint128.toZ b <> 0 ->
  exists q r,
    Uint128.QuoRem u b = Some (q, r) /\
    Uint128.wf q /\ Uint128.wf r /\
    Uint128.toZ u = Uint128.toZ b * Uint128.toZ q + Uint128.toZ r /\
    0 <= Uint128.toZ r < Uint128.toZ b /\
    Uint128.toZ q = Uint128.toZ u / Uint128.toZ b /\
    Uint128.toZ r = Uint128.toZ u mod Uint128.toZ b /\
    Uint128.Quo u b = Some q /\
    Uint128.Rem u b = Some r.
Proof.
  intros Hu Hb Hn.
  destruct (u128_QuoRem_spec u b Hu Hb Hn) as [q [r [Eq [Hd Equo]]]].
  destruct (divides_as_unique u b q r Hd) as [Hlt [Hqv Hrv]].
  destruct Hd as [Hq [Hr [Hdiv _]]].
  exists q, r.
  split; [exact Eq|]. split; [exact Hq|]. split; [exact Hr|].
  split; [exact Hdiv|]. split; [exact Hlt|].
  split; [exact Hqv|]. split; [exact Hrv|]. split; [exact Equo|].
  unfold Uint128.Rem. rewrite Eq. reflexivity.
Qed.

Lemma uint128_quorem_correct_witness :
  exists q r,
    Uint128.QuoRem (Uint128.mk 0x1234 5) (Uint128.mk 3 7) = Some (q, r) /\
    Uint128.wf q /\ Uint128.wf r /\
    Uint128.toZ (Uint128.mk 0x1234 5)
    = Uint128.toZ (Uint128.mk 3 7) * Uint128.toZ q + Uint128.toZ r /\
    0 <= Uint128.toZ r < Uint128.toZ (Uint128.mk 3 7) /\
    Uint128.toZ q = Uint128.toZ (Uint128.mk 0x1234 5) / Uint128.toZ (Uint128.mk 3 7) /\
    Uint128.toZ r = Uint128.toZ (Uint128.mk 0x1234 5) mod Uint128.toZ (Uint128.mk 3 7) /\
    Uint128.Quo (Uint128.mk 0x1234 5) (Uint128.mk 3 7) = Some q /\
    Uint128.Rem (Uint128.mk 0x1234 5) (Uint128.mk 3 7) = Some r.
Proof.
  apply (uint128_quorem_correct (Uint128.mk 0x1234 5) (Uint128.mk 3 7)).
  - unfold Uint128.wf; simpl; lia.
  - unfold Uint128.wf; simpl; lia.
  - vm_compute. discriminate.
Defined.

(** ** Signed division *)

Lemma i128_sign_test i :
  Int128.wf i ->
  (Z.land (Int128.hi i) Int128.int128SignBit =? 0) = negb (Int128.toZ i <? 0) /\
  Int128.LessThan i Int128.zeroInt128 = (Int128.toZ i <? 0).
Proof.
  intros [Hh Hl]. unfold Int128.LessThan, Int128.zeroInt128, Int128.toZ.
  cbn [Int128.hi Int128.lo]. rewrite Z.land_0_l.
  rewrite signbit_land by assumption.
  repeat (case_test; cbn [negb andb orb]); try (split; reflexivity);
    exfalso; pow_consts; lia.
Qed.

(** The magnitude handed to the unsigned engine. *)
Lemma i128_magnitude i :
  Int128.wf i ->
  let m := Int128.AsUint128 (if Int128.toZ i <? 0 then Int128.Neg i else i) in
  Uint128.wf m /\ Uint128.toZ m = Z.abs (Int128.toZ i).
Proof.
  intros Hw. cbv zeta. destruct (i128_Neg_spec i Hw) as [Hnw Hn].
  unfold Int128.toZ in *. unfold Uint128.wf, Uint128.toZ, Int128.AsUint128.
  destruct Hw as [Hh Hl].
  destruct (Z.ltb_spec (Int128.hi i * 2 ^ 64 + Int128.lo i) (2 ^ 127)) as [Hp|Hp].
  - destruct (Z.ltb_spec (Int128.hi i * 2 ^ 64 + Int128.lo i) 0); [lia|].
    cbn [Uint128.hi Uint128.lo]. split; [split; assumption|]. lia.
  - destruct (Z.ltb_spec (Int128.hi i * 2 ^ 64 + Int128.lo i - 2 ^ 128) 0);
      [|pow_consts; lia].
    cbn [Uint128.hi Uint128.lo]. split; [exact Hnw|].
    rewrite Hn. pow_consts. Z.div_mod_to_equations. lia.
Qed.

(** Reapplying a sign to an unsigned result of at most [2^127]. *)
Lemma i128_apply_sign (qu : Uint128.t) (s : bool) :
  Uint128.wf qu -> Uint128.toZ qu <= 2 ^ 127 ->
  let q := if s then Int128.Neg (Int128.AsInt128 qu) else Int128.AsInt128 qu in
  Int128.wf q /\
  (s = true -> Int128.toZ q = - Uint128.toZ qu) /\
  (s = false -> Uint128.toZ qu < 2 ^ 127 -> Int128.toZ q = Uint128.toZ qu) /\
  (s = false -> Uint128.toZ qu = 2 ^ 127 -> q = Int128.MinInt128).
Proof.
  intros Hw Hle. cbv zeta.
  assert (Hiw : Int128.wf (Int128.AsInt128 qu)) by exact Hw.
  destruct (i128_Neg_spec _ Hiw) as [Hnw Hn].
  unfold Int128.toZ, Uint128.toZ in *.
  unfold Int128.AsInt128 in *. cbn [Int128.hi Int128.lo] in *.
  destruct Hw as [Hh Hl].
  destruct s.
  - split; [exact Hnw|]. split; [|split; discriminate].
    intros _. rewrite Hn.
    destruct (Z.ltb_spec ((- (Uint128.hi qu * 2 ^ 64 + Uint128.lo qu)) mod 2 ^ 128) (2 ^ 127));
      pow_consts; Z.div_mod_to_equations; lia.
  - split; [exact Hiw|]. split; [discriminate|]. split.
    + intros _ Hlt. cbn [Int128.hi Int128.lo].
      destruct (Z.ltb_spec (Uint128.hi qu * 2 ^ 64 + Uint128.lo qu) (2 ^ 127)); lia.
    + intros _ Heq. apply i128_eq; cbn [Int128.hi Int128.lo Int128.MinInt128];
        pow_consts; lia.
Qed.

Lemma i128_QuoRem_unfold a b :
  Int128.wf a -> Int128.wf b ->
  let sa := Int128.toZ a <? 0 in
  let sb := Int128.toZ b <? 0 in
  let ma := Int128.AsUint128 (if sa then Int128.Neg a else a) in
  let mb := Int128.AsUint128 (if sb then Int128.Neg b else b) in
  Int128.QuoRem a b =
    match Uint128.QuoRem ma mb with
    | Some (qu, ru) =>
      Some (if xorb sa sb then Int128.Neg (Int128.AsInt128 qu) else Int128.AsInt128 qu,
            if sa then Int128.Neg (Int128.AsInt128 ru) else Int128.AsInt128 ru)
    | None => None
    end /\
  Int128.Quo a b =
    match Uint128.Quo ma mb with
    | Some qu =>
      Some (if xorb sa sb then Int128.Neg (Int128.AsInt128 qu) else Int128.AsInt128 qu)
    | None => None
    end.
Proof.
  intros Ha Hb. cbv zeta. unfold Int128.QuoRem, Int128.Quo.
  rewrite (proj2 (i128_sign_test a Ha)), (proj2 (i128_sign_test b Hb)).
  destruct (Int128.toZ a <? 0), (Int128.toZ b <? 0); cbn [xorb Z.opp Z.ltb Z.compare];
    split; unfold bind.
  all: match goal with
       | |- context [Uint128.QuoRem ?x ?y] => destruct (Uint128.QuoRem x y) as [[? ?]|]
       | |- context [Uint128.Quo ?x ?y] => destruct (Uint128.Quo x y)
       end; reflexivity.
Qed.

Lemma i128_QuoRem_spec a b :
  Int128.wf a -> Int128.wf b -> Int128.toZ b <> 0 ->
  exists q r,
    Int128.QuoRem a b = Some (q, r) /\
    Int128.wf q /\ Int128.wf r /\
    Int128.toZ r = Z.rem (Int128.toZ a) (Int128.toZ b) /\
    (Int128.toZ a = - 2 ^ 127 /\ Int128.toZ b = -1 -> q = Int128.MinInt128) /\
    (~ (Int128.toZ a = - 2 ^ 127 /\ Int128.toZ b = -1) ->
       Int128.toZ q = Z.quot (Int128.toZ a) (Int128.toZ b)) /\
    Int128.Quo a b = Some q.
Proof.
  intros Ha Hb Hn.
  destruct (i128_QuoRem_unfold a b Ha Hb) as [EQR EQ]. cbv zeta in EQR, EQ.
  destruct (i128_magnitude a Ha) as [Hmaw Hma].
  destruct (i128_magnitude b Hb) as [Hmbw Hmb].
  pose proof (i128_toZ_range a Ha) as Ra.
  pose proof (i128_toZ_range b Hb) as Rb.
  set (ma := Int128.AsUint128 (if Int128.toZ a <? 0 then Int128.Neg a else a)) in *.
  set (mb := Int128.AsUint128 (if Int128.toZ b <? 0 then Int128.Neg b else b)) in *.
  destruct (u128_QuoRem_spec ma mb Hmaw Hmbw ltac:(lia))
    as [qu [ru [Eq [Hd Equo]]]].
  destruct (divides_as_unique ma mb qu ru Hd) as [Hrlt [Hqv Hrv]].
  destruct Hd as [Hquw [Hruw [Hdiv _]]].
  rewrite Eq in EQR. rewrite Equo in EQ.
  rewrite Hma, Hmb in *.
  assert (Hqle : Uint128.toZ qu <= Z.abs (Int128.toZ a)).
  { rewrite Hqv. apply Z.div_le_upper_bound; [lia|]. nia. }
  destruct (i128_apply_sign qu (xorb (Int128.toZ a <? 0) (Int128.toZ b <? 0)) Hquw
              ltac:(lia)) as [Hqw [Hqneg [Hqpos Hqmin]]].
  destruct (i128_apply_sign ru (Int128.toZ a <? 0) Hruw ltac:(lia))
    as [Hrw [Hrneg [Hrpos _]]].
  cbv zeta in Hqw, Hqneg, Hqpos, Hqmin, Hrw, Hrneg, Hrpos.
  eexists. eexists. split; [exact EQR|].
  split; [exact Hqw|]. split; [exact Hrw|].
  split; [|split; [|split; [|exact EQ]]].
  - rewrite Z.rem_mod by assumption. rewrite <- Hrv.
    destruct (Z.ltb_spec (Int128.toZ a) 0).
    + rewrite Hrneg by reflexivity. lia.
    + rewrite Hrpos by (reflexivity || lia).
      destruct (Z.eq_dec (Int128.toZ a) 0) as [E0|E0]; [|lia].
      rewrite E0 in *. cbn [Z.abs] in Hrv. rewrite Z.mod_0_l in Hrv by lia. lia.
  - intros [Ea Eb]. apply Hqmin.
    + rewrite Ea, Eb. reflexivity.
    + rewrite Hqv, Ea, Eb. reflexivity.
  - intros Hno. rewrite Z.quot_div by assumption. rewrite <- Hqv.
    destruct (Z.ltb_spec (Int128.toZ a) 0); destruct (Z.ltb_spec (Int128.toZ b) 0);
      cbn [xorb] in *.
    + rewrite Hqpos; [lia | reflexivity |].
      destruct (Z.eq_dec (Uint128.toZ qu) (2 ^ 127)) as [E|E]; [|lia].
      exfalso. apply Hno. 
      assert (Z.abs (Int128.toZ b) = 1) by nia. lia.
    + rewrite Hqneg by reflexivity. lia.
    + rewrite Hqneg by reflexivity.
      destruct (Z.eq_dec (Int128.toZ a) 0) as [E0|E0]; [|lia].
      rewrite E0 in *. cbn [Z.abs] in Hqv. rewrite Z.div_0_l in Hqv by lia. lia.
    + rewrite Hqpos; [|reflexivity|lia].
      destruct (Z.eq_dec (Int128.toZ a) 0) as [E0|E0]; [|lia].
      rewrite E0 in *. cbn [Z.abs] in Hqv. rewrite Z.div_0_l in Hqv by lia. lia.
Qed.

(** ** Division by a 64-bit divisor *)

Lemma Div64_spec h l y :
  0 < y -> 0 <= h < y ->
  Div64 h l y = Some ((h * 2 ^ 64 + l) / y, (h * 2 ^ 64 + l) mod y).
Proof.
  intros Hy Hh. unfold Div64.
  destruct (Z.eqb_spec y 0); [lia|]. destruct (Z.leb_spec y h); [lia|]. reflexivity.
Qed.

(** Long division of a two-word number by one word, high word first. *)
Lemma two_word_div h l y :
  0 < y < 2 ^ 64 -> 0 <= h < 2 ^ 64 -> 0 <= l < 2 ^ 64 ->
  let U := h * 2 ^ 64 + l in
  let rh := h mod y in
  0 <= rh < y /\
  0 <= h / y < 2 ^ 64 /\
  0 <= (rh * 2 ^ 64 + l) / y < 2 ^ 64 /\
  h / y * 2 ^ 64 + (rh * 2 ^ 64 + l) / y = U / y /\
  (rh * 2 ^ 64 + l) mod y = U mod y /\
  0 <= U mod y < 2 ^ 64.
Proof.
  intros Hy Hh Hl. cbv zeta.
  pose proof (Z.mod_pos_bound h y ltac:(lia)) as Brh.
  pose proof (Z.div_mod h y ltac:(lia)) as D1.
  set (rh := h mod y) in *. set (qh := h / y) in *.
  destruct (div128by64_range rh l y) as [Rq Rr]; try lia.
  pose proof (Z.div_mod (rh * 2 ^ 64 + l) y ltac:(lia)) as D2.
  set (ql := (rh * 2 ^ 64 + l) / y) in *. set (rl := (rh * 2 ^ 64 + l) mod y) in *.
  assert (Hqh : 0 <= qh < 2 ^ 64).
  { split; [apply Z.div_pos; lia|]. apply Z.div_lt_upper_bound; nia. }
  assert (HU : h * 2 ^ 64 + l = y * (qh * 2 ^ 64 + ql) + rl).
  { rewrite D1 at 1. 
    replace (y * (qh * 2 ^ 64 + ql) + rl) with (y * qh * 2 ^ 64 + (y * ql + rl)) by ring.
    rewrite <- D2. ring. }
  split; [exact Brh|]. split; [exact Hqh|]. split; [exact Rq|].
  split; [apply (Z.div_unique_pos _ _ _ rl); [lia | exact HU]|].
  split; [apply (Z.mod_unique_pos _ _ (qh * 2 ^ 64 + ql)); [lia | exact HU]|].
  pose proof (Z.mod_pos_bound (h * 2 ^ 64 + l) y ltac:(lia)). lia.
Qed.

(** The magnitude of an [int64] divisor as computed by the 64-bit variants. *)
Lemma int64_magnitude n :
  - 2 ^ 63 <= n < 2 ^ 63 ->
  wrap64 (if n <? 0 then signed64 (wrap64 (- n)) else n) = Z.abs n.
Proof.
  intros Hn. destruct (Z.ltb_spec n 0); unfold wrap64, signed64;
    pow_consts; Z.div_mod_to_equations; lia.
Qed.

(** The unsigned core of the signed 64-bit variants, on a magnitude. *)
Lemma i128_div64_core (i : Int128.t) N :
  Int128.wf i -> 0 < N < 2 ^ 64 ->
  let U := Int128.hi i * 2 ^ 64 + Int128.lo i in
  exists qu ru,
    Uint128.wf qu /\ Uint128.wf ru /\
    Uint128.toZ qu = U / N /\ Uint128.toZ ru = U mod N /\
    (if Int128.hi i <? N then
       '(ql, rl) <- Div64 (Int128.hi i) (Int128.lo i) N ;;
       Some (Int128.mk 0 ql, Int128.mk 0 rl)
     else
       '(qh, rl) <- Div64 0 (Int128.hi i) N ;;
       '(ql, rl) <- Div64 rl (Int128.lo i) N ;;
       Some (Int128.mk qh ql, Int128.mk 0 rl))
    = Some (Int128.AsInt128 qu, Int128.AsInt128 ru) /\
    (if Int128.hi i <? N then
       '(ql, _) <- Div64 (Int128.hi i) (Int128.lo i) N ;;
       Some (Int128.mk 0 ql)
     else
       '(qh, rlo) <- Div64 0 (Int128.hi i) N ;;
       '(ql, _) <- Div64 rlo (Int128.lo i) N ;;
       Some (Int128.mk qh ql))
    = Some (Int128.AsInt128 qu) /\
    (if Int128.hi i <? N then
       '(_, rl) <- Div64 (Int128.hi i) (Int128.lo i) N ;;
       Some (Int128.mk 0 rl)
     else
       '(_, rl) <- Div64 0 (Int128.hi i) N ;;
       '(_, rl) <- Div64 rl (Int128.lo i) N ;;
       Some (Int128.mk 0 rl))
    = Some (Int128.AsInt128 ru).
Proof.
  intros [Hh Hl] HN. cbv zeta.
  destruct (Z.ltb_spec (Int128.hi i) N) as [Hlt|Hge].
  - rewrite Div64_spec by lia. cbn [bind].
    destruct (div128by64_range (Int128.hi i) (Int128.lo i) N) as [Rq Rr]; try lia.
    exists (Uint128.mk 0 ((Int128.hi i * 2 ^ 64 + Int128.lo i) / N)),
           (Uint128.mk 0 ((Int128.hi i * 2 ^ 64 + Int128.lo i) mod N)).
    unfold Uint128.wf, Uint128.toZ, Int128.AsInt128. cbn [Uint128.hi Uint128.lo].
    repeat split; lia.
  - rewrite (Div64_spec 0) by lia. cbn [bind].
    rewrite Z.mul_0_l, Z.add_0_l.
    destruct (two_word_div (Int128.hi i) (Int128.lo i) N HN Hh Hl)
      as [Brh [Bqh [Bql [EQ [ER BR]]]]].
    rewrite Div64_spec by lia. cbn [bind].
    exists (Uint128.mk (Int128.hi i / N)
              ((Int128.hi i mod N * 2 ^ 64 + Int128.lo i) / N)),
           (Uint128.mk 0 ((Int128.hi i mod N * 2 ^ 64 + Int128.lo i) mod N)).
    unfold Uint128.wf, Uint128.toZ, Int128.AsInt128. cbn [Uint128.hi Uint128.lo].
    repeat split; lia.
Qed.

Lemma i128_QuoRem64_spec a n :
  Int128.wf a -> - 2 ^ 63 <= n < 2 ^ 63 -> n <> 0 ->
  exists q r,
    Int128.QuoRem64 a n = Some (q, r) /\
    Int128.wf q /\ Int128.wf r /\
    Int128.toZ r = Z.rem (Int128.toZ a) n /\
    (Int128.toZ a = - 2 ^ 127 /\ n = -1 -> q = Int128.MinInt128) /\
    (~ (Int128.toZ a = - 2 ^ 127 /\ n = -1) ->
       Int128.toZ q = Z.quot (Int128.toZ a) n) /\
    Int128.Quo64 a n = Some q /\
    Int128.Rem64 a n = Some r.
Proof.
  intros Ha Hn Hn0.
  destruct (i128_magnitude a Ha) as [Hmaw Hma]. cbv zeta in Hmaw, Hma.
  pose proof (i128_toZ_range a Ha) as Ra.
  unfold Int128.QuoRem64, Int128.Quo64, Int128.Rem64, Geometry.Div64, Geometry.Uint64.
  rewrite (proj1 (i128_sign_test a Ha)), Bool.negb_involutive.
  rewrite (int64_magnitude n Hn).
  set (sa := Int128.toZ a <? 0) in *.
  set (i := if sa then Int128.Neg a else a) in *.
  assert (Hiw : Int128.wf i) by exact Hmaw.
  destruct (i128_div64_core i (Z.abs n) Hiw ltac:(pow_consts; lia))
    as [qu [ru [Hquw [Hruw [Hqv [Hrv [E1 [E2 E3]]]]]]]].
  cbv zeta in Hqv, Hrv.
  change (Int128.hi i * 2 ^ 64 + Int128.lo i) with (Uint128.toZ (Int128.AsUint128 i)) in Hqv, Hrv.
  rewrite Hma in Hqv, Hrv.
  rewrite E1, E2, E3. cbn [bind].
  assert (Hqle : Uint128.toZ qu <= Z.abs (Int128.toZ a)).
  { rewrite Hqv. apply Z.div_le_upper_bound; [lia|]. nia. }
  pose proof (Z.mod_pos_bound (Z.abs (Int128.toZ a)) (Z.abs n) ltac:(lia)) as Brm.
  pose proof (Z.div_mod (Z.abs (Int128.toZ a)) (Z.abs n) ltac:(lia)) as Hdm.
  rewrite <- Hqv in Hdm.
  destruct (i128_apply_sign qu (xorb sa (n <? 0)) Hquw ltac:(lia))
    as [Hqw [Hqneg [Hqpos Hqmin]]].
  destruct (i128_apply_sign ru sa Hruw ltac:(lia)) as [Hrw [Hrneg [Hrpos _]]].
  cbv zeta in Hqw, Hqneg, Hqpos, Hqmin, Hrw, Hrneg, Hrpos.
  eexists. eexists. split; [reflexivity|].
  split; [exact Hqw|]. split; [exact Hrw|].
  split; [|split; [|split; [|split; reflexivity]]].
  - rewrite Z.rem_mod by assumption. rewrite <- Hrv. unfold sa in *.
    destruct (Z.ltb_spec (Int128.toZ a) 0).
    + rewrite Hrneg by reflexivity. lia.
    + rewrite Hrpos by (reflexivity || lia).
      destruct (Z.eq_dec (Int128.toZ a) 0) as [E0|E0]; [|lia].
      rewrite E0 in *. cbn [Z.abs] in Hrv. rewrite Z.mod_0_l in Hrv by lia. lia.
  - intros [Ea Eb]. apply Hqmin.
    + unfold sa. rewrite Ea, Eb. reflexivity.
    + rewrite Hqv, Ea, Eb. reflexivity.
  - intros Hno. rewrite Z.quot_div by assumption. rewrite <- Hqv. unfold sa in *.
    destruct (Z.ltb_spec (Int128.toZ a) 0); destruct (Z.ltb_spec n 0);
      cbn [xorb] in *.
    + rewrite Hqpos; [lia | reflexivity |].
      destruct (Z.eq_dec (Uint128.toZ qu) (2 ^ 127)) as [E|E]; [|lia].
      exfalso. apply Hno.
      assert (Z.abs n = 1) by nia. lia.
    + rewrite Hqneg by reflexivity. lia.
    + rewrite Hqneg by reflexivity.
      destruct (Z.eq_dec (Int128.toZ a) 0) as [E0|E0]; [|lia].
      rewrite E0 in *. cbn [Z.abs] in Hqv. rewrite Z.div_0_l in Hqv by lia. lia.
    + rewrite Hqpos; [|reflexivity|lia].
      destruct (Z.eq_dec (Int128.toZ a) 0) as [E0|E0]; [|lia].
      rewrite E0 in *. cbn [Z.abs] in Hqv. rewrite Z.div_0_l in Hqv by lia. lia.
Qed.

Lemma truncates_quot_rem A B Q R :
  B <> 0 -> Q = Z.quot A B -> R = Z.rem A B -> Int128.truncates A B Q R.
Proof.
  intros HB -> ->. unfold Int128.truncates.
  split; [apply Z.quot_rem'|].
  split.
  { rewrite Z.quot_div by assumption.
    assert (0 <= Z.abs A / Z.abs B) by (apply Z.div_pos; lia).
    destruct (Z.eq_dec A 0) as [->|HA].
    - cbn [Z.sgn Z.abs Z.mul]. rewrite Z.div_0_l by lia. reflexivity.
    - rewrite !Z.abs_mul.
      assert (H1 : Z.abs (Z.sgn A) = 1) by lia.
      assert (H2 : Z.abs (Z.sgn B) = 1) by lia.
      rewrite H1, H2. rewrite (Z.abs_eq (Z.abs A / Z.abs B)) by assumption. lia. }
  split; [reflexivity|].
  split; [apply Z.rem_bound_abs; assumption|].
  destruct (Z.eq_dec (Z.rem A B) 0) as [E|E]; [left; exact E|right].
  apply Z.rem_sign_nz; assumption.
Qed.

Lemma i128_is_min a :
  Int128.wf a -> (a = Int128.MinInt128 <-> Int128.toZ a = - 2 ^ 127).
Proof.
  intros Ha. split; [intros ->; reflexivity|].
  intros E. apply i128_toZ_inj; [assumption | unfold Int128.wf; simpl; lia | exact E].
Qed.

Lemma i128_is_minusOne b :
  Int128.wf b -> (b = Int128.minusOne <-> Int128.toZ b = -1).
Proof.
  intros Hb. split; [intros ->; reflexivity|].
  intros E. apply i128_toZ_inj; [assumption | unfold Int128.wf; simpl; lia | exact E].
Qed.

Lemma i128_is_zero r :
  Int128.wf r -> (r = Int128.zeroInt128 <-> Int128.toZ r = 0).
Proof.
  intros Hr. split; [intros ->; reflexivity|].
  intros E. apply i128_toZ_inj; [assumption | unfold Int128.wf; simpl; lia | exact E].
Qed.

(** C2: for every dividend [a] and nonzero divisor [b], [QuoRem] returns
    [(q, r)] with [a = b * q + r], [q] truncated toward zero and [r] zero or
    of the sign of [a]; the one exception is [MinInt128 / -1], which
    returns [(MinInt128, 0)].  [QuoRem64] does the same for every nonzero
    [int64] divisor [n] (with [minInt64] included). *)
Theorem int128_quorem_correct (a b : Int128.t) (n : Z) :
  Int128.wf a -> Int128.wf b -> Int128.toZ b <> 0 ->
  - 2 ^ 63 <= n < 2 ^ 63 -> n <> 0 ->
  (exists q r,
     Int128.QuoRem a b = Some (q, r) /\ Int128.wf q /\ Int128.wf r /\
     (a = Int128.MinInt128 /\ b = Int128.minusOne ->
        q = Int128.MinInt128 /\ r = Int128.zeroInt128) /\
     (~ (a = Int128.MinInt128 /\ b = Int128.minusOne) ->
        Int128.truncates (Int128.toZ a) (Int128.toZ b) (Int128.toZ q) (Int128.toZ r))) /\
  (exists q r,
     Int128.QuoRem64 a n = Some (q, r) /\ Int128.wf q /\ Int128.wf r /\
     (a = Int128.MinInt128 /\ n = -1 ->
        q = Int128.MinInt128 /\ r = Int128.zeroInt128) /\
     (~ (a = Int128.MinInt128 /\ n = -1) ->
        Int128.truncates (Int128.toZ a) n (Int128.toZ q) (Int128.toZ r))).
Proof.
  intros Ha Hb Hb0 Hn Hn0. split.
  - destruct (i128_QuoRem_spec a b Ha Hb Hb0)
      as [q [r [E [Hq [Hr [Er [Hov [Hno _]]]]]]]].
    exists q, r. split; [exact E|]. split; [exact Hq|]. split; [exact Hr|]. split.
    + intros [Ea Eb]. apply (i128_is_min a Ha) in Ea. apply (i128_is_minusOne b Hb) in Eb.
      split; [apply Hov; split; assumption|].
      apply (i128_is_zero r Hr). rewrite Er, Ea, Eb. reflexivity.
    + intros Hne. apply truncates_quot_rem; try assumption.
      apply Hno. intros [Ea Eb]. apply Hne.
      split; [apply (i128_is_min a Ha) | apply (i128_is_minusOne b Hb)]; assumption.
  - destruct (i128_QuoRem64_spec a n Ha Hn Hn0)
      as [q [r [E [Hq [Hr [Er [Hov [Hno _]]]]]]]].
    exists q, r. split; [exact E|]. split; [exact Hq|]. split; [exact Hr|]. split.
    + intros [Ea Eb]. apply (i128_is_min a Ha) in Ea.
      split; [apply Hov; split; assumption|].
      apply (i128_is_zero r Hr). rewrite Er, Ea, Eb. reflexivity.
    + intros Hne. apply truncates_quot_rem; try assumption.
      apply Hno. intros [Ea Eb]. apply Hne.
      split; [apply (i128_is_min a Ha); assumption | assumption].
Qed.

Lemma int128_quorem_correct_witness :
  let a := Int128.mk 0xFFFFFFFFFFFFFFFF 0xFFFFFFFFFFFFFFF9 in
  let b := Int128.mk 0 2 in
  (exists q r,
     Int128.QuoRem a b = Some (q, r) /\ Int128.wf q /\ Int128.wf r /\
     (a = Int128.MinInt128 /\ b = Int128.minusOne ->
        q = Int128.MinInt128 /\ r = Int128.zeroInt128) /\
     (~ (a = Int128.MinInt128 /\ b = Int128.minusOne) ->
        Int128.truncates (Int128.toZ a) (Int128.toZ b) (Int128.toZ q) (Int128.toZ r))) /\
  (exists q r,
     Int128.QuoRem64 a (-3) = Some (q, r) /\ Int128.wf q /\ Int128.wf r /\
     (a = Int128.MinInt128 /\ -3 = -1 ->
        q = Int128.MinInt128 /\ r = Int128.zeroInt128) /\
     (~ (a = Int128.MinInt128 /\ -3 = -1) ->
        Int128.truncates (Int128.toZ a) (-3) (Int128.toZ q) (Int128.toZ r))).
Proof.
  apply (int128_quorem_correct (Int128.mk 0xFFFFFFFFFFFFFFFF 0xFFFFFFFFFFFFFFF9)
           (Int128.mk 0 2) (-3)).
  - unfold Int128.wf; simpl; lia.
  - unfold Int128.wf; simpl; lia.
  - vm_compute. discriminate.
  - lia.
  - lia.
Defined.

(** ** Zero divisors *)

Lemma u128_div64_spec u m :
  Uint128.wf u -> 0 < m < 2 ^ 64 ->
  exists q r,
    Uint128.QuoRem64 u m = Some (q, r) /\
    Uint128.wf q /\ Uint128.wf r /\
    Uint128.toZ q = Uint128.toZ u / m /\
    Uint128.toZ r = Uint128.toZ u mod m /\
    Uint128.Quo64 u m = Some q /\
    Uint128.Rem64 u m = Some r.
Proof.
  intros [Hh Hl] Hm. unfold Uint128.QuoRem64, Uint128.Quo64, Uint128.Rem64.
  destruct (Z.ltb_spec (Uint128.hi u) m) as [Hlt|Hge].
  - rewrite Div64_spec by lia. cbn [bind].
    destruct (div128by64_range (Uint128.hi u) (Uint128.lo u) m) as [Rq Rr]; try lia.
    eexists. eexists. split; [reflexivity|].
    unfold Uint128.wf, Uint128.toZ. cbn [Uint128.hi Uint128.lo].
    repeat split; lia.
  - rewrite (Div64_spec 0) by lia. cbn [bind].
    rewrite Z.mul_0_l, Z.add_0_l.
    destruct (two_word_div (Uint128.hi u) (Uint128.lo u) m Hm Hh Hl)
      as [Brh [Bqh [Bql [EQ [ER BR]]]]].
    rewrite Div64_spec by lia.
    unfold div64, mod64. destruct (Z.eqb_spec m 0); [lia|]. cbn [bind].
    rewrite Div64_spec by lia. cbn [bind].
    eexists. eexists. split; [reflexivity|].
    unfold Uint128.wf, Uint128.toZ. cbn [Uint128.hi Uint128.lo].
    repeat split; lia.
Qed.

Lemma u128_div64_zero u :
  Uint128.wf u ->
  Uint128.Quo64 u 0 = None /\ Uint128.Rem64 u 0 = None /\ Uint128.QuoRem64 u 0 = None.
Proof.
  intros [Hh Hl]. unfold Uint128.QuoRem64, Uint128.Quo64, Uint128.Rem64.
  destruct (Z.ltb_spec (Uint128.hi u) 0); [lia|]. repeat split.
Qed.

Lemma u128_div_zero u by_ :
  Uint128.wf by_ -> Uint128.toZ by_ = 0 ->
  Uint128.Quo u by_ = None /\ Uint128.Rem u by_ = None /\ Uint128.QuoRem u by_ = None.
Proof.
  intros [Hh Hl] E. unfold Uint128.toZ in E.
  assert (E1 : Uint128.hi by_ = 0) by (pow_consts; lia).
  assert (E2 : Uint128.lo by_ = 0) by (pow_consts; lia).
  unfold Uint128.Rem, Uint128.QuoRem, Uint128.Quo. rewrite E1, E2.
  repeat split.
Qed.

Lemma i128_div64_zero i :
  Int128.wf i ->
  Int128.Quo64 i 0 = None /\ Int128.Rem64 i 0 = None /\ Int128.QuoRem64 i 0 = None.
Proof.
  intros Hi. destruct (i128_magnitude i Hi) as [[Hh Hl] _]. cbv zeta in Hh, Hl.
  unfold Int128.QuoRem64, Int128.Quo64, Int128.Rem64, Geometry.Div64, Geometry.Uint64.
  rewrite (proj1 (i128_sign_test i Hi)), Bool.negb_involutive.
  cbn [Z.ltb Z.compare]. change (wrap64 0) with 0.
  cbn [Int128.AsUint128 Uint128.hi] in Hh.
  destruct (Z.ltb_spec (Int128.hi (if Int128.toZ i <? 0 then Int128.Neg i else i)) 0);
    [lia|].
  repeat split.
Qed.

Lemma i128_div_zero i by_ :
  Int128.wf i -> Int128.wf by_ -> Int128.toZ by_ = 0 ->
  Int128.Quo i by_ = None /\ Int128.Rem i by_ = None /\ Int128.QuoRem i by_ = None.
Proof.
  intros Hi Hb E. apply (i128_is_zero by_ Hb) in E. subst by_.
  destruct (i128_QuoRem_unfold i Int128.zeroInt128 Hi Hb) as [EQR EQ].
  cbv zeta in EQR, EQ.
  change (Int128.toZ Int128.zeroInt128 <? 0) with false in EQR, EQ.
  cbv iota in EQR, EQ.
  set (ma := Int128.AsUint128 (if Int128.toZ i <? 0 then Int128.Neg i else i)) in *.
  change (Uint128.QuoRem ma (Int128.AsUint128 Int128.zeroInt128)) with (@None (Uint128.t * Uint128.t)) in EQR.
  change (Uint128.Quo ma (Int128.AsUint128 Int128.zeroInt128)) with (@None Uint128.t) in EQ.
  unfold Int128.Rem. rewrite EQR, EQ. repeat split.
Qed.

(** C3: on both engines [Quo], [Rem], [QuoRem] and the 64-bit-divisor
    variants [Quo64], [Rem64], [QuoRem64] panic on a zero divisor, and
    return a result (do not panic) on every nonzero divisor. *)
Theorem zero_divisor_panics
  (u by_ : Uint128.t) (i iby : Int128.t) (m n : Z) :
  Uint128.wf u -> Uint128.wf by_ -> Int128.wf i -> Int128.wf iby ->
  0 <= m < 2 ^ 64 -> - 2 ^ 63 <= n < 2 ^ 63 ->
  (Uint128.toZ by_ = 0 ->
     Uint128.Quo u by_ = None /\ Uint128.Rem u by_ = None /\
     Uint128.QuoRem u by_ = None) /\
  (Uint128.toZ by_ <> 0 ->
     Uint128.Quo u by_ <> None /\ Uint128.Rem u by_ <> None /\
     Uint128.QuoRem u by_ <> None) /\
  (m = 0 ->
     Uint128.Quo64 u m = None /\ Uint128.Rem64 u m = None /\
     Uint128.QuoRem64 u m = None) /\
  (m <> 0 ->
     Uint128.Quo64 u m <> None /\ Uint128.Rem64 u m <> None /\
     Uint128.QuoRem64 u m <> None) /\
  (Int128.toZ iby = 0 ->
     Int128.Quo i iby = None /\ Int128.Rem i iby = None /\
     Int128.QuoRem i iby = None) /\
  (Int128.toZ iby <> 0 ->
     Int128.Quo i iby <> None /\ Int128.Rem i iby <> None /\
     Int128.QuoRem i iby <> None) /\
  (n = 0 ->
     Int128.Quo64 i n = None /\ Int128.Rem64 i n = None /\
     Int128.QuoRem64 i n = None) /\
  (n <> 0 ->
     Int128.Quo64 i n <> None /\ Int128.Rem64 i n <> None /\
     Int128.QuoRem64 i n <> None).
Proof.
  intros Hu Hb Hi Hib Hm Hn.
  refine (conj _ (conj _ (conj _ (conj _ (conj _ (conj _ (conj _ _))))))).
  - intros E. apply u128_div_zero; assumption.
  - intros E.
    destruct (u128_QuoRem_spec u by_ Hu Hb E) as [q [r [Eq [_ Equo]]]].
    unfold Uint128.Rem. rewrite Eq, Equo. repeat split; discriminate.
  - intros ->. apply u128_div64_zero; assumption.
  - intros E.
    destruct (u128_div64_spec u m Hu ltac:(lia))
      as [q [r [Eq [_ [_ [_ [_ [Equo Erem]]]]]]]].
    rewrite Eq, Equo, Erem. repeat split; discriminate.
  - intros E. apply i128_div_zero; assumption.
  - intros E.
    destruct (i128_QuoRem_spec i iby Hi Hib E)
      as [q [r [Eq [_ [_ [_ [_ [_ Equo]]]]]]]].
    unfold Int128.Rem. rewrite Eq, Equo. repeat split; discriminate.
  - intros ->. apply i128_div64_zero; assumption.
  - intros E.
    destruct (i128_QuoRem64_spec i n Hi Hn E)
      as [q [r [Eq [_ [_ [_ [_ [_ [Equo Erem]]]]]]]]].
    rewrite Eq, Equo, Erem. repeat split; discriminate.
Qed.

Lemma zero_divisor_panics_witness :
  let u := Uint128.mk 5 9 in
  let by_ := Uint128.mk 0 0 in
  let i := Int128.mk 0xFFFFFFFFFFFFFFFF 0xFFFFFFFFFFFFFFF9 in
  let iby := Int128.mk 0 3 in
  (Uint128.toZ by_ = 0 ->
     Uint128.Quo u by_ = None /\ Uint128.Rem u by_ = None /\
     Uint128.QuoRem u by_ = None) /\
  (Uint128.toZ by_ <> 0 ->
     Uint128.Quo u by_ <> None /\ Uint128.Rem u by_ <> None /\
     Uint128.QuoRem u by_ <> None) /\
  (0 = 0 ->
     Uint128.Quo64 u 0 = None /\ Uint128.Rem64 u 0 = None /\
     Uint128.QuoRem64 u 0 = None) /\
  (0 <> 0 ->
     Uint128.Quo64 u 0 <> None /\ Uint128.Rem64 u 0 <> None /\
     Uint128.QuoRem64 u 0 <> None) /\
  (Int128.toZ iby = 0 ->
     Int128.Quo i iby = None /\ Int128.Rem i iby = None /\
     Int128.QuoRem i iby = None) /\
  (Int128.toZ iby <> 0 ->
     Int128.Quo i iby <> None /\ Int128.Rem i iby <> None /\
     Int128.QuoRem i iby <> None) /\
  (-2 = 0 ->
     Int128.Quo64 i (-2) = None /\ Int128.Rem64 i (-2) = None /\
     Int128.QuoRem64 i (-2) = None) /\
  (-2 <> 0 ->
     Int128.Quo64 i (-2) <> None /\ Int128.Rem64 i (-2) <> None /\
     Int128.QuoRem64 i (-2) <> None).
Proof.
  apply (zero_divisor_panics (Uint128.mk 5 9) (Uint128.mk 0 0)
           (Int128.mk 0xFFFFFFFFFFFFFFFF 0xFFFFFFFFFFFFFFF9) (Int128.mk 0 3) 0 (-2)).
  - unfold Uint128.wf; simpl; lia.
  - unfold Uint128.wf; simpl; lia.
  - unfold Int128.wf; simpl; lia.
  - unfold Int128.wf; simpl; lia.
  - lia.
  - lia.
Defined.

(** ** Decimal text and big integers *)

Lemma u128_AsBigInt u : Uint128.wf u -> Uint128.AsBigInt u = Uint128.toZ u.
Proof.
  intros [Hh Hl]. unfold Uint128.AsBigInt, Uint128.toZ.
  symmetry. apply hi_lo_lor. exact Hl.
Qed.

Lemma lxor_all_ones b : 0 <= b < 2 ^ 128 -> Z.lxor b (2 ^ 128 - 1) = 2 ^ 128 - 1 - b.
Proof.
  intros Hb.
  replace (2 ^ 128 - 1) with (Z.ones 128) by (rewrite Z.ones_equiv; reflexivity).
  set (x := Z.lxor b (Z.ones 128)).
  assert (Hd : Z.land b x = 0).
  { apply Z.bits_inj'. intros n Hn. unfold x.
    rewrite Z.land_spec, Z.lxor_spec, Z.testbit_0_l.
    destruct (Z.ltb_spec n 128).
    - rewrite Z.ones_spec_low by lia. destruct (Z.testbit b n); reflexivity.
    - rewrite (testbit_above b 128 n) by lia. reflexivity. }
  assert (Hs : b + x = Z.lxor b x) by (apply Z.add_nocarry_lxor; exact Hd).
  assert (Hx : Z.lxor b x = Z.ones 128).
  { unfold x. rewrite <- Z.lxor_assoc, Z.lxor_nilpotent, Z.lxor_0_l. reflexivity. }
  lia.
Qed.

Lemma i128_AsBigInt i : Int128.wf i -> Int128.AsBigInt i = Int128.toZ i.
Proof.
  intros [Hh Hl]. unfold Int128.AsBigInt, Int128.toZ.
  rewrite signbit_land by assumption.
  assert (Eb : (if 0 <? Int128.hi i then Z.shiftl (Int128.hi i) 64 else 0) + Int128.lo i
               = Int128.hi i * 2 ^ 64 + Int128.lo i).
  { destruct (Z.ltb_spec 0 (Int128.hi i)).
    - rewrite Z.shiftl_mul_pow2 by lia. reflexivity.
    - replace (Int128.hi i) with 0 by lia. reflexivity. }
  cbv zeta. rewrite Eb.
  set (b := Int128.hi i * 2 ^ 64 + Int128.lo i).
  assert (Rb : 0 <= b < 2 ^ 128) by (unfold b; pow_consts; lia).
  rewrite (lxor_all_ones b Rb).
  destruct (Z.ltb_spec (Int128.hi i) (2 ^ 63));
    [change (0 =? 0) with true | change (2 ^ 63 =? 0) with false]; cbn [negb];
    destruct (Z.ltb_spec b (2 ^ 127)); unfold b in *; pow_consts; lia.
Qed.

Lemma words_len_spec v :
  0 <= v ->
  (Big.words_len v =? 0) = (v =? 0) /\
  (0 < v < 2 ^ 64 -> Big.words_len v = 1) /\
  (2 ^ 64 <= v < 2 ^ 128 -> Big.words_len v = 2) /\
  (2 ^ 128 <= v -> 2 < Big.words_len v).
Proof.
  intros Hv. unfold Big.words_len.
  destruct (Z.eqb_spec v 0) as [->|Hn]; [repeat split; try reflexivity; pow_consts; lia|].
  rewrite Z.abs_eq by lia.
  assert (H0 : 0 <= Z.log2 v) by apply Z.log2_nonneg.
  assert (Hd : 0 <= Z.log2 v / 64) by (apply Z.div_pos; lia).
  split; [destruct (Z.eqb_spec (Z.log2 v / 64 + 1) 0); [lia | reflexivity]|].
  split; [|split].
  - intros Hr. assert (Z.log2 v < 64) by (apply Z.log2_lt_pow2; lia).
    rewrite Z.div_small by lia. reflexivity.
  - intros Hr. assert (Z.log2 v < 128) by (apply Z.log2_lt_pow2; lia).
    assert (64 <= Z.log2 v) by (apply Z.log2_le_pow2; lia).
    Z.div_mod_to_equations. lia.
  - intros Hr. assert (128 <= Z.log2 v) by (apply Z.log2_le_pow2; lia).
    Z.div_mod_to_equations. lia.
Qed.

(** What [Uint128FromBigInt] returns: the value when it is in range, and
    otherwise a clamped value with [inRange] false. *)
Lemma Uint128FromBigInt_spec v :
  Uint128.Uint128FromBigInt v =
  if v <? 0 then (Uint128.zeroUint128, false)
  else if v <? 2 ^ 128 then (Uint128.ofZ v, true)
  else (Uint128.MaxUint128, false).
Proof.
  unfold Uint128.Uint128FromBigInt.
  destruct (Z.ltb_spec v 0) as [Hneg|Hpos]; [reflexivity|].
  destruct (words_len_spec v Hpos) as [E0 [E1 [E2 E3]]].
  rewrite E0. unfold Uint128.ofZ, Big.word_at. rewrite Z.abs_eq by lia.
  destruct (Z.eqb_spec v 0) as [->|Hn]; [reflexivity|].
  destruct (Z.ltb_spec v (2 ^ 128)) as [Hlt|Hge].
  - destruct (Z.ltb_spec v (2 ^ 64)) as [Hlt64|Hge64].
    + rewrite E1 by lia. cbn [Z.eqb Pos.eqb Z.mul].
      rewrite Z.shiftr_0_r. f_equal. apply u128_eq; cbn [Uint128.hi Uint128.lo];
        [|reflexivity].
      rewrite Z.div_small by lia. reflexivity.
    + rewrite E2 by lia. cbn [Z.eqb Pos.eqb Z.mul].
      rewrite Z.shiftr_0_r, Z.shiftr_div_pow2 by lia. reflexivity.
  - specialize (E3 Hge).
    destruct (Z.eqb_spec (Big.words_len v) 1); [lia|].
    destruct (Z.eqb_spec (Big.words_len v) 2); [lia|]. reflexivity.
Qed.

(** Every well-formed payload is accepted by [UnmarshalText]; it decodes
    to the number it denotes when that number is in range, and otherwise
    to a clamped value. *)
Lemma u128_UnmarshalText_spec s v :
  SetString10 s = Some v ->
  Uint128.UnmarshalText s =
  Decoded (if v <? 0 then Uint128.zeroUint128
           else if v <? 2 ^ 128 then Uint128.ofZ v
           else Uint128.MaxUint128).
Proof.
  intros Hs. unfold Uint128.UnmarshalText, Uint128.Uint128FromString.
  rewrite Hs, Uint128FromBigInt_spec.
  destruct (v <? 0); [reflexivity|]. destruct (v <? 2 ^ 128); reflexivity.
Qed.

Lemma u128_ofZ_toZ v : 0 <= v < 2 ^ 128 -> Uint128.toZ (Uint128.ofZ v) = v.
Proof.
  intros Hv. unfold Uint128.toZ, Uint128.ofZ, wrap64. cbn [Uint128.hi Uint128.lo].
  pow_consts. Z.div_mod_to_equations. lia.
Qed.

(** ** Text and JSON decoding *)

Local Open Scope string_scope.

(** C8 (the code departs from the claim): [UnmarshalText] and
    [UnmarshalJSON] drop the [inRange] result of the parser, so a payload
    denoting [2^128] is accepted and decoded as [MaxUint128], whose text
    denotes another number; likewise a negative payload decodes as 0 on the
    unsigned type, and payloads beyond either end of the signed range decode
    as [MaxInt128] / [MinInt128]. *)
Theorem unmarshal_accepts_out_of_range :
  SetString10 "340282366920938463463374607431768211456" = Some (2 ^ 128) /\
  Uint128.UnmarshalText "340282366920938463463374607431768211456"
    = Decoded Uint128.MaxUint128 /\
  Uint128.UnmarshalJSON (Uint128.quoted "340282366920938463463374607431768211456")
    = Decoded Uint128.MaxUint128 /\
  Uint128.MarshalText Uint128.MaxUint128 = "340282366920938463463374607431768211455" /\
  SetString10 (Uint128.MarshalText Uint128.MaxUint128) = Some (2 ^ 128 - 1) /\
  Uint128.UnmarshalText "-1" = Decoded Uint128.zeroUint128 /\
  Int128.UnmarshalText "170141183460469231731687303715884105728"
    = Decoded Int128.MaxInt128 /\
  Int128.UnmarshalJSON (Uint128.quoted "170141183460469231731687303715884105728")
    = Decoded Int128.MaxInt128 /\
  Int128.MarshalText Int128.MaxInt128 = "170141183460469231731687303715884105727" /\
  Int128.UnmarshalText "-170141183460469231731687303715884105729"
    = Decoded Int128.MinInt128.
Proof.
  refine (conj _ (conj _ (conj _ (conj _ (conj _ (conj _ (conj _ (conj _ (conj _ _)))))))));
    vm_compute; reflexivity.
Qed.

Local Close Scope string_scope.

(** ** Conversion to float64 *)

(** C9 (the code departs from the claim): for [Int128{hi: maxUint64, lo: 0}],
    the number [-2^64], the sum [(^i.lo) + 1] wraps to 0 and [AsFloat64]
    returns negative zero, an error of 100% of the exact value; zero itself
    converts to zero. *)
Theorem asfloat64_loses_minus_2_64 :
  Int128.toZ (Int128.mk maxUint64 0) = - 2 ^ 64 /\
  Int128.AsFloat64 (Int128.mk maxUint64 0) = S754_zero true /\
  Int128.AsFloat64 Int128.zeroInt128 = S754_zero false /\
  Uint128.AsFloat64 Uint128.zeroUint128 = S754_zero false /\
  Int128.AsFloat64 (Int128.mk maxUint64 1) = f64_neg wrapUint64Float.
Proof.
  refine (conj _ (conj _ (conj _ (conj _ _)))); vm_compute; reflexivity.
Qed.

(** * Further properties of the two engines

    The remaining methods of [Uint128] and [Int128]: each is related to
    the number its receiver stands for ([Uint128.toZ], [Int128.toZ]), to
    the bits of that number, or to the methods it composes with. *)

Ltac cases_lia :=
  repeat case_test; cbn [andb orb negb]; try reflexivity; try (exfalso; lia); try lia.

Ltac i128_words :=
  unfold Int128.toZ, Uint128.toZ, Int128.wf, Uint128.wf in *;
  cbn [Int128.hi Int128.lo Uint128.hi Uint128.lo] in *;
  unfold Geometry.Uint64, wrap64, signed64, not64, maxUint64, maxInt64, minInt64,
    Int128.int128SignBit in *;
  pow_consts.

Ltac byte_consts :=
  change (2 ^ 8) with 256 in *; change (2 ^ 16) with 65536 in *;
  change (2 ^ 24) with 16777216 in *; change (2 ^ 32) with 4294967296 in *;
  change (2 ^ 40) with 1099511627776 in *; change (2 ^ 48) with 281474976710656 in *;
  change (2 ^ 56) with 72057594037927936 in *;
  change (2 ^ 64) with 18446744073709551616 in *.

Lemma u128_wf_mk h l : 0 <= h < 2 ^ 64 -> 0 <= l < 2 ^ 64 -> Uint128.wf (Uint128.mk h l).
Proof. intros; split; assumption. Qed.

(** ** Unsigned subtraction, increment and decrement *)

(** X1: [Uint128.Sub] is subtraction modulo [2^128]: it is exact when the
    subtrahend is not larger, and it undoes [Add] (and [Add] undoes it) on
    every pair of operands, wrapped or not. *)
Theorem u128_sub_inverts_add (a b : Uint128.t) :
  Uint128.wf a -> Uint128.wf b ->
  Uint128.wf (Uint128.Sub a b) /\
  Uint128.toZ (Uint128.Sub a b) = (Uint128.toZ a - Uint128.toZ b) mod 2 ^ 128 /\
  (Uint128.toZ b <= Uint128.toZ a ->
     Uint128.toZ (Uint128.Sub a b) = Uint128.toZ a - Uint128.toZ b) /\
  Uint128.Sub (Uint128.Add a b) b = a /\
  Uint128.Add (Uint128.Sub a b) b = a.
Proof.
  intros Ha Hb.
  destruct (u128_Sub_spec a b Ha Hb) as [Wsub Esub].
  destruct (u128_Add_spec a b Ha Hb) as [Wadd Eadd].
  destruct (u128_Sub_spec _ b Wadd Hb) as [W1 E1].
  destruct (u128_Add_spec _ b Wsub Hb) as [W2 E2].
  pose proof (u128_toZ_range a Ha) as Ra.
  pose proof (u128_toZ_range b Hb) as Rb.
  refine (conj Wsub (conj Esub (conj _ (conj _ _)))).
  - intros Hle. rewrite Esub. apply Z.mod_small. lia.
  - apply u128_toZ_inj; auto. rewrite E1, Eadd.
    rewrite Zminus_mod_idemp_l.
    replace (Uint128.toZ a + Uint128.toZ b - Uint128.toZ b) with (Uint128.toZ a) by lia.
    apply Z.mod_small; lia.
  - apply u128_toZ_inj; auto. rewrite E2, Esub.
    rewrite Zplus_mod_idemp_l.
    replace (Uint128.toZ a - Uint128.toZ b + Uint128.toZ b) with (Uint128.toZ a) by lia.
    apply Z.mod_small; lia.
Qed.

Lemma u128_sub_inverts_add_witness :
  let a := Uint128.mk 1 2 in
  let b := Uint128.mk 3 4 in
  Uint128.wf (Uint128.Sub a b) /\
  Uint128.toZ (Uint128.Sub a b) = (Uint128.toZ a - Uint128.toZ b) mod 2 ^ 128 /\
  (Uint128.toZ b <= Uint128.toZ a ->
     Uint128.toZ (Uint128.Sub a b) = Uint128.toZ a - Uint128.toZ b) /\
  Uint128.Sub (Uint128.Add a b) b = a /\
  Uint128.Add (Uint128.Sub a b) b = a.
Proof.
  apply (u128_sub_inverts_add (Uint128.mk 1 2) (Uint128.mk 3 4));
    unfold Uint128.wf; simpl; lia.
Defined.

(** X2: [Uint128.Inc] and [Uint128.Dec] add and subtract one modulo
    [2^128]; they are inverse to each other, agree with [Add] and [Sub] of
    the constant one, and [Dec] yields [MaxUint128] exactly on zero. *)
Theorem u128_inc_dec (u : Uint128.t) :
  Uint128.wf u ->
  Uint128.toZ (Uint128.Inc u) = (Uint128.toZ u + 1) mod 2 ^ 128 /\
  Uint128.toZ (Uint128.Dec u) = (Uint128.toZ u - 1) mod 2 ^ 128 /\
  Uint128.Dec (Uint128.Inc u) = u /\
  Uint128.Inc (Uint128.Dec u) = u /\
  Uint128.Inc u = Uint128.Add u (Uint128.Uint128From64 1) /\
  Uint128.Dec u = Uint128.Sub u (Uint128.Uint128From64 1) /\
  (Uint128.Dec u = Uint128.MaxUint128 <-> u = Uint128.zeroUint128).
Proof.
  intros Hu.
  destruct (u128_Inc_spec u Hu) as [Wi Ei].
  destruct (u128_Dec_spec u Hu) as [Wd Ed].
  destruct (u128_Dec_spec _ Wi) as [W1 E1].
  destruct (u128_Inc_spec _ Wd) as [W2 E2].
  pose proof (u128_toZ_range u Hu) as Ru.
  assert (W1' : Uint128.wf (Uint128.mk 0 1)) by apply u128_wf_one.
  refine (conj Ei (conj Ed (conj _ (conj _ (conj _ (conj _ _)))))).
  - apply u128_toZ_inj; auto. rewrite E1, Ei, Zminus_mod_idemp_l.
    replace (Uint128.toZ u + 1 - 1) with (Uint128.toZ u) by lia.
    apply Z.mod_small; lia.
  - apply u128_toZ_inj; auto. rewrite E2, Ed, Zplus_mod_idemp_l.
    replace (Uint128.toZ u - 1 + 1) with (Uint128.toZ u) by lia.
    apply Z.mod_small; lia.
  - destruct (u128_Add_spec u _ Hu W1') as [Wa Ea].
    apply u128_toZ_inj; auto. rewrite Ei. unfold Uint128.Uint128From64. rewrite Ea. reflexivity.
  - destruct (u128_Sub_spec u _ Hu W1') as [Ws Es].
    apply u128_toZ_inj; auto. rewrite Ed. unfold Uint128.Uint128From64. rewrite Es. reflexivity.
  - split.
    + intros E. apply u128_toZ_inj; auto using u128_wf_zero.
      assert (Uint128.toZ (Uint128.Dec u) = 2 ^ 128 - 1) by (rewrite E; reflexivity).
      change (Uint128.toZ Uint128.zeroUint128) with 0.
      rewrite Ed in H. pow_consts. Z.div_mod_to_equations. lia.
    + intros ->. reflexivity.
Qed.

Lemma u128_inc_dec_witness :
  let u := Uint128.mk 4 (2 ^ 64 - 1) in
  Uint128.toZ (Uint128.Inc u) = (Uint128.toZ u + 1) mod 2 ^ 128 /\
  Uint128.toZ (Uint128.Dec u) = (Uint128.toZ u - 1) mod 2 ^ 128 /\
  Uint128.Dec (Uint128.Inc u) = u /\
  Uint128.Inc (Uint128.Dec u) = u /\
  Uint128.Inc u = Uint128.Add u (Uint128.Uint128From64 1) /\
  Uint128.Dec u = Uint128.Sub u (Uint128.Uint128From64 1) /\
  (Uint128.Dec u = Uint128.MaxUint128 <-> u = Uint128.zeroUint128).
Proof.
  apply (u128_inc_dec (Uint128.mk 4 (2 ^ 64 - 1))); unfold Uint128.wf; simpl; lia.
Defined.

(** ** Unsigned ordering *)

Lemma u128_order_spec (a b : Uint128.t) :
  Uint128.wf a -> Uint128.wf b ->
  Uint128.Cmp a b = Z.sgn (Uint128.toZ a - Uint128.toZ b) /\
  Uint128.Equal a b = (Uint128.toZ a =? Uint128.toZ b) /\
  Uint128.GreaterThan a b = (Uint128.toZ b <? Uint128.toZ a) /\
  Uint128.GreaterOrEqualTo a b = (Uint128.toZ b <=? Uint128.toZ a) /\
  Uint128.LessThan a b = (Uint128.toZ a <? Uint128.toZ b) /\
  Uint128.LessOrEqualTo a b = (Uint128.toZ a <=? Uint128.toZ b).
Proof.
  intros [Hah Hal] [Hbh Hbl].
  unfold Uint128.Cmp, Uint128.Equal, Uint128.GreaterThan, Uint128.GreaterOrEqualTo,
    Uint128.LessThan, Uint128.LessOrEqualTo, Uint128.toZ.
  destruct a as [ah al], b as [bh bl]; cbn [Uint128.hi Uint128.lo] in *.
  pow_consts.
  refine (conj _ (conj _ (conj _ (conj _ (conj _ _))))).
  - repeat case_test; try (exfalso; lia);
      first [ rewrite Z.sgn_pos by lia | rewrite Z.sgn_neg by lia | rewrite Z.sgn_null by lia ];
      reflexivity.
  - cases_lia.
  - cases_lia.
  - cases_lia.
  - cases_lia.
  - cases_lia.
Qed.

Lemma u128_order64_spec (u : Uint128.t) (n : Z) :
  Uint128.wf u -> 0 <= n < 2 ^ 64 ->
  Uint128.Equal64 u n = (Uint128.toZ u =? n) /\
  Uint128.GreaterThan64 u n = (n <? Uint128.toZ u) /\
  Uint128.GreaterOrEqualTo64 u n = (n <=? Uint128.toZ u) /\
  Uint128.LessThan64 u n = (Uint128.toZ u <? n) /\
  Uint128.LessOrEqualTo64 u n = (Uint128.toZ u <=? n) /\
  Uint128.Equal64 u n = Uint128.Equal u (Uint128.Uint128From64 n) /\
  Uint128.GreaterThan64 u n = Uint128.GreaterThan u (Uint128.Uint128From64 n) /\
  Uint128.GreaterOrEqualTo64 u n = Uint128.GreaterOrEqualTo u (Uint128.Uint128From64 n) /\
  Uint128.LessThan64 u n = Uint128.LessThan u (Uint128.Uint128From64 n) /\
  Uint128.LessOrEqualTo64 u n = Uint128.LessOrEqualTo u (Uint128.Uint128From64 n).
Proof.
  intros [Hh Hl] Hn.
  unfold Uint128.Equal64, Uint128.GreaterThan64, Uint128.GreaterOrEqualTo64,
    Uint128.LessThan64, Uint128.LessOrEqualTo64, Uint128.Equal, Uint128.GreaterThan,
    Uint128.GreaterOrEqualTo, Uint128.LessThan, Uint128.LessOrEqualTo,
    Uint128.Uint128From64, Uint128.toZ.
  destruct u as [h l]; cbn [Uint128.hi Uint128.lo] in *.
  pow_consts.
  repeat split; cases_lia.
Qed.

(** X3: on [Uint128], [Cmp] is the sign of the difference of the two
    numbers, and [Equal], [GreaterThan], [GreaterOrEqualTo], [LessThan] and
    [LessOrEqualTo] decide the corresponding order relations; their
    64-bit-operand variants decide the same relations against the word. *)
Theorem u128_order_predicates (a b : Uint128.t) (n : Z) :
  Uint128.wf a -> Uint128.wf b -> 0 <= n < 2 ^ 64 ->
  Uint128.Cmp a b = Z.sgn (Uint128.toZ a - Uint128.toZ b) /\
  Uint128.Equal a b = (Uint128.toZ a =? Uint128.toZ b) /\
  Uint128.GreaterThan a b = (Uint128.toZ b <? Uint128.toZ a) /\
  Uint128.GreaterOrEqualTo a b = (Uint128.toZ b <=? Uint128.toZ a) /\
  Uint128.LessThan a b = (Uint128.toZ a <? Uint128.toZ b) /\
  Uint128.LessOrEqualTo a b = (Uint128.toZ a <=? Uint128.toZ b) /\
  Uint128.Equal64 a n = (Uint128.toZ a =? n) /\
  Uint128.GreaterThan64 a n = (n <? Uint128.toZ a) /\
  Uint128.GreaterOrEqualTo64 a n = (n <=? Uint128.toZ a) /\
  Uint128.LessThan64 a n = (Uint128.toZ a <? n) /\
  Uint128.LessOrEqualTo64 a n = (Uint128.toZ a <=? n).
Proof.
  intros Ha Hb Hn.
  destruct (u128_order_spec a b Ha Hb) as (C & E & G & GE & L & LE).
  destruct (u128_order64_spec a n Ha Hn) as (E6 & G6 & GE6 & L6 & LE6 & _).
  refine (conj C (conj E (conj G (conj GE (conj L (conj LE
            (conj E6 (conj G6 (conj GE6 (conj L6 LE6)))))))))).
Qed.

Lemma u128_order_predicates_witness :
  let a := Uint128.mk 1 2 in
  let b := Uint128.mk 1 3 in
  let n := 9 in
  Uint128.Cmp a b = Z.sgn (Uint128.toZ a - Uint128.toZ b) /\
  Uint128.Equal a b = (Uint128.toZ a =? Uint128.toZ b) /\
  Uint128.GreaterThan a b = (Uint128.toZ b <? Uint128.toZ a) /\
  Uint128.GreaterOrEqualTo a b = (Uint128.toZ b <=? Uint128.toZ a) /\
  Uint128.LessThan a b = (Uint128.toZ a <? Uint128.toZ b) /\
  Uint128.LessOrEqualTo a b = (Uint128.toZ a <=? Uint128.toZ b) /\
  Uint128.Equal64 a n = (Uint128.toZ a =? n) /\
  Uint128.GreaterThan64 a n = (n <? Uint128.toZ a) /\
  Uint128.GreaterOrEqualTo64 a n = (n <=? Uint128.toZ a) /\
  Uint128.LessThan64 a n = (Uint128.toZ a <? n) /\
  Uint128.LessOrEqualTo64 a n = (Uint128.toZ a <=? n).
Proof.
  apply (u128_order_predicates (Uint128.mk 1 2) (Uint128.mk 1 3) 9);
    unfold Uint128.wf; simpl; lia.
Defined.

(** ** Bitwise operations *)

Lemma lxor_range64 a b : 0 <= a < 2 ^ 64 -> 0 <= b < 2 ^ 64 -> 0 <= Z.lxor a b < 2 ^ 64.
Proof.
  intros Ha Hb. split; [apply Z.lxor_nonneg; lia|].
  destruct (Z.eq_dec (Z.lxor a b) 0) as [->|Hn]; [lia|].
  assert (0 <= Z.lxor a b) by (apply Z.lxor_nonneg; lia).
  apply Z.log2_lt_cancel.
  pose proof (Z.log2_lxor a b ltac:(lia) ltac:(lia)).
  rewrite Z.log2_pow2 by lia.
  assert (Z.log2 a < 64).
  { destruct (Z.eq_dec a 0) as [->|]; [simpl; lia|]. apply Z.log2_lt_pow2; lia. }
  assert (Z.log2 b < 64).
  { destruct (Z.eq_dec b 0) as [->|]; [simpl; lia|]. apply Z.log2_lt_pow2; lia. }
  lia.
Qed.

Lemma not64_range x : 0 <= x < 2 ^ 64 -> 0 <= not64 x < 2 ^ 64.
Proof. unfold not64, maxUint64. lia. Qed.

Lemma not64_testbit x j :
  0 <= x < 2 ^ 64 -> 0 <= j ->
  Z.testbit (not64 x) j = (j <? 64) && negb (Z.testbit x j).
Proof.
  intros Hx Hj.
  assert (E : not64 x = Z.lnot x mod 2 ^ 64).
  { unfold not64, maxUint64, Z.lnot.
    replace (Z.pred (- x)) with (- x - 1) by lia.
    apply Z.mod_unique with (q := -1); lia. }
  rewrite E, Z.testbit_mod_pow2 by lia.
  rewrite Z.lnot_spec by lia. reflexivity.
Qed.

Lemma andnot64_range x y : 0 <= x < 2 ^ 64 -> 0 <= y < 2 ^ 64 -> 0 <= andnot64 x y < 2 ^ 64.
Proof.
  intros Hx Hy. unfold andnot64. apply land_range64; [lia|].
  apply not64_range; lia.
Qed.

Ltac u128_bits :=
  let j := fresh "j" in
  let Hj := fresh "Hj" in
  apply Z.bits_inj'; intros j Hj;
  rewrite ?Z.land_spec, ?Z.lor_spec, ?Z.lxor_spec, ?Z.ldiff_spec;
  rewrite !u128_testbit by (auto; lia);
  unfold Uint128.Or, Uint128.Xor, Uint128.AndNot;
  cbn [Uint128.hi Uint128.lo];
  destruct (j <? 64) eqn:?;
  rewrite ?Z.land_spec, ?Z.lor_spec, ?Z.lxor_spec, ?Z.ldiff_spec.

(** X4: [And], [Or], [Xor], [AndNot] and [Not] act bit by bit on the
    128-bit number: they are the conjunction, disjunction, exclusive or and
    difference of the two numbers and the complement to [2^128 - 1]; [Not]
    is an involution, and [And64], [Or64], [Xor64] are the operations with
    the word promoted to 128 bits (so [And64] clears the high word). *)
Theorem u128_bitwise (a b : Uint128.t) (n : Z) :
  Uint128.wf a -> Uint128.wf b -> 0 <= n < 2 ^ 64 ->
  (Uint128.wf (Uint128.And a b) /\ Uint128.wf (Uint128.Or a b) /\
   Uint128.wf (Uint128.Xor a b) /\ Uint128.wf (Uint128.AndNot a b) /\
   Uint128.wf (Uint128.Not a)) /\
  Uint128.toZ (Uint128.And a b) = Z.land (Uint128.toZ a) (Uint128.toZ b) /\
  Uint128.toZ (Uint128.Or a b) = Z.lor (Uint128.toZ a) (Uint128.toZ b) /\
  Uint128.toZ (Uint128.Xor a b) = Z.lxor (Uint128.toZ a) (Uint128.toZ b) /\
  Uint128.toZ (Uint128.AndNot a b) = Z.ldiff (Uint128.toZ a) (Uint128.toZ b) /\
  Uint128.toZ (Uint128.Not a) = 2 ^ 128 - 1 - Uint128.toZ a /\
  Uint128.Not (Uint128.Not a) = a /\
  Uint128.And64 a n = Uint128.And a (Uint128.Uint128From64 n) /\
  Uint128.Or64 a n = Uint128.Or a (Uint128.Uint128From64 n) /\
  Uint128.Xor64 a n = Uint128.Xor a (Uint128.Uint128From64 n).
Proof.
  intros Ha Hb Hn.
  pose proof Ha as [Hah Hal]. pose proof Hb as [Hbh Hbl].
  assert (Wand : Uint128.wf (Uint128.And a b)) by (apply u128_And_spec; assumption).
  assert (Wor : Uint128.wf (Uint128.Or a b))
    by (apply u128_wf_mk; apply lor_range64; assumption).
  assert (Wxor : Uint128.wf (Uint128.Xor a b))
    by (apply u128_wf_mk; apply lxor_range64; assumption).
  assert (Wandnot : Uint128.wf (Uint128.AndNot a b))
    by (apply u128_wf_mk; apply andnot64_range; assumption).
  assert (Wnot : Uint128.wf (Uint128.Not a))
    by (apply u128_wf_mk; apply not64_range; assumption).
  refine (conj (conj Wand (conj Wor (conj Wxor (conj Wandnot Wnot)))) _).
  refine (conj _ (conj _ (conj _ (conj _ (conj _ (conj _ (conj _ (conj _ _)))))))).
  - apply u128_And_spec; assumption.
  - u128_bits; reflexivity.
  - u128_bits; reflexivity.
  - u128_bits; unfold andnot64; rewrite Z.land_spec, not64_testbit by lia.
    + match goal with H : (j <? 64) = true |- _ => rewrite H end. reflexivity.
    + destruct (Z.ltb_spec (j - 64) 64); [reflexivity|].
      rewrite (testbit_high64 (Uint128.hi a)) by lia. reflexivity.
  - unfold Uint128.Not, Uint128.toZ, not64, maxUint64. cbn [Uint128.hi Uint128.lo].
    pow_consts. lia.
  - unfold Uint128.Not, not64, maxUint64. destruct a as [h l]. cbn [Uint128.hi Uint128.lo].
    f_equal; lia.
  - unfold Uint128.And64, Uint128.And, Uint128.Uint128From64. cbn [Uint128.hi Uint128.lo].
    rewrite Z.land_0_r. reflexivity.
  - unfold Uint128.Or64, Uint128.Or, Uint128.Uint128From64.
    cbn [Uint128.hi Uint128.lo]. rewrite Z.lor_0_r. reflexivity.
  - reflexivity.
Qed.

Lemma u128_bitwise_witness :
  let a := Uint128.mk 5 12 in
  let b := Uint128.mk 3 10 in
  let n := 6 in
  (Uint128.wf (Uint128.And a b) /\ Uint128.wf (Uint128.Or a b) /\
   Uint128.wf (Uint128.Xor a b) /\ Uint128.wf (Uint128.AndNot a b) /\
   Uint128.wf (Uint128.Not a)) /\
  Uint128.toZ (Uint128.And a b) = Z.land (Uint128.toZ a) (Uint128.toZ b) /\
  Uint128.toZ (Uint128.Or a b) = Z.lor (Uint128.toZ a) (Uint128.toZ b) /\
  Uint128.toZ (Uint128.Xor a b) = Z.lxor (Uint128.toZ a) (Uint128.toZ b) /\
  Uint128.toZ (Uint128.AndNot a b) = Z.ldiff (Uint128.toZ a) (Uint128.toZ b) /\
  Uint128.toZ (Uint128.Not a) = 2 ^ 128 - 1 - Uint128.toZ a /\
  Uint128.Not (Uint128.Not a) = a /\
  Uint128.And64 a n = Uint128.And a (Uint128.Uint128From64 n) /\
  Uint128.Or64 a n = Uint128.Or a (Uint128.Uint128From64 n) /\
  Uint128.Xor64 a n = Uint128.Xor a (Uint128.Uint128From64 n).
Proof.
  apply (u128_bitwise (Uint128.mk 5 12) (Uint128.mk 3 10) 6);
    unfold Uint128.wf; simpl; lia.
Defined.

Lemma land_1_testbit x : Z.land x 1 = Z.b2z (Z.testbit x 0).
Proof.
  change 1 with (Z.ones 1). rewrite Z.land_ones by lia.
  change (2 ^ 1) with 2. rewrite Zmod_odd, Z.bit0_odd.
  destruct (Z.odd x); reflexivity.
Qed.

Lemma shl64_one s : 0 <= s < 64 -> shl64 1 s = 2 ^ s.
Proof.
  intros Hs. rewrite shl64_small; try lia.
  assert (2 ^ s < 2 ^ 64) by (apply Z.pow_lt_mono_r; lia). lia.
Qed.

(** X5: [Bit] and [SetBit] panic exactly on an index outside [[0, 128)]
    ([SetBit] also on a bit value other than 0 and 1).  In range, [Bit]
    reads the bit of that index of the number, and [SetBit] returns a value
    whose bit at the index is the one given and whose other bits are
    unchanged. *)
Theorem u128_bit_setbit (u : Uint128.t) (i b : Z) :
  Uint128.wf u ->
  (Uint128.Bit u i = None <-> i < 0 \/ 128 <= i) /\
  (0 <= i < 128 -> Uint128.Bit u i = Some (Z.b2z (Z.testbit (Uint128.toZ u) i))) /\
  (Uint128.SetBit u i b = None <-> (i < 0 \/ 128 <= i) \/ (b <> 0 /\ b <> 1)) /\
  (0 <= i < 128 -> b = 0 \/ b = 1 ->
     exists v, Uint128.SetBit u i b = Some v /\ Uint128.wf v /\
       Uint128.Bit v i = Some b /\
       forall j, 0 <= j < 128 -> j <> i -> Uint128.Bit v j = Uint128.Bit u j).
Proof.
  intros Hu. pose proof Hu as [Hh Hl].
  assert (Hbit : forall w k, Uint128.wf w -> 0 <= k < 128 ->
            Uint128.Bit w k = Some (Z.b2z (Z.testbit (Uint128.toZ w) k))).
  { intros w k Hw Hk. unfold Uint128.Bit.
    destruct (Z.ltb_spec k 0); [lia|]. destruct (Z.leb_spec 128 k); [lia|].
    cbn [orb]. rewrite u128_testbit by (auto; lia).
    destruct (Z.leb_spec 64 k); destruct (Z.ltb_spec k 64); try lia.
    - rewrite wrap64_small by lia. rewrite land_1_testbit, shr64_testbit by lia.
      destruct (Z.leb_spec 64 (k - 64)); [lia|]. reflexivity.
    - rewrite wrap64_small by lia. rewrite land_1_testbit, shr64_testbit by lia.
      destruct (Z.leb_spec 64 k); [lia|]. reflexivity. }
  refine (conj _ (conj _ (conj _ _))).
  - unfold Uint128.Bit.
    destruct (Z.ltb_spec i 0); destruct (Z.leb_spec 128 i); cbn [orb];
      try (split; [intros _; lia | reflexivity]).
    destruct (64 <=? i); split; intros; try discriminate; lia.
  - intros Hi. apply Hbit; assumption.
  - unfold Uint128.SetBit.
    destruct (Z.ltb_spec i 0); destruct (Z.leb_spec 128 i); cbn [orb];
      try (split; [intros _; lia | reflexivity]).
    destruct (Z.eqb_spec b 0); [destruct (64 <=? i); split; intros; try discriminate; lia|].
    destruct (Z.eqb_spec b 1); [destruct (64 <=? i); split; intros; try discriminate; lia|].
    split; [intros _; right; lia | reflexivity].
  - intros Hi Hb.
    assert (Hset : exists v, Uint128.SetBit u i b = Some v /\ Uint128.wf v /\
              forall j, 0 <= j < 128 ->
                Z.testbit (Uint128.toZ v) j
                = if j =? i then (b =? 1) else Z.testbit (Uint128.toZ u) j).
    { unfold Uint128.SetBit.
      destruct (Z.ltb_spec i 0); [lia|]. destruct (Z.leb_spec 128 i); [lia|]. cbn [orb].
      destruct Hb as [-> | ->]; cbn [Z.eqb]; change (1 =? 0) with false; cbv iota.
      - destruct (Z.leb_spec 64 i).
        + rewrite wrap64_small, shl64_one by lia.
          eexists; split; [reflexivity|].
          assert (W : Uint128.wf (Uint128.mk (andnot64 (Uint128.hi u) (2 ^ (i - 64))) (Uint128.lo u))).
          { apply u128_wf_mk; [|assumption]. apply andnot64_range; [assumption|].
            split; [apply Z.pow_nonneg; lia | apply Z.pow_lt_mono_r; lia]. }
          split; [exact W|]. intros j Hj. rewrite !u128_testbit by (auto; lia).
          cbn [Uint128.hi Uint128.lo]. unfold andnot64.
          destruct (Z.ltb_spec j 64).
          * destruct (Z.eqb_spec j i); [lia|reflexivity].
          * rewrite Z.land_spec, not64_testbit, Z.pow2_bits_eqb; try lia.
            2:{ split; [apply Z.pow_nonneg; lia | apply Z.pow_lt_mono_r; lia]. }
            destruct (Z.ltb_spec (j - 64) 64); [|lia].
            destruct (Z.eqb_spec (i - 64) (j - 64)); destruct (Z.eqb_spec j i); try lia;
              cbn [negb andb]; rewrite ?Bool.andb_false_r, ?Bool.andb_true_r; reflexivity.
        + rewrite wrap64_small, shl64_one by lia.
          eexists; split; [reflexivity|].
          assert (W : Uint128.wf (Uint128.mk (Uint128.hi u) (andnot64 (Uint128.lo u) (2 ^ i)))).
          { apply u128_wf_mk; [assumption|]. apply andnot64_range; [assumption|].
            split; [apply Z.pow_nonneg; lia | apply Z.pow_lt_mono_r; lia]. }
          split; [exact W|]. intros j Hj. rewrite !u128_testbit by (auto; lia).
          cbn [Uint128.hi Uint128.lo]. unfold andnot64.
          destruct (Z.ltb_spec j 64).
          * rewrite Z.land_spec, not64_testbit, Z.pow2_bits_eqb; try lia.
            2:{ split; [apply Z.pow_nonneg; lia | apply Z.pow_lt_mono_r; lia]. }
            destruct (Z.ltb_spec j 64); [|lia].
            destruct (Z.eqb_spec i j); destruct (Z.eqb_spec j i); try lia;
              cbn [negb andb]; rewrite ?Bool.andb_false_r, ?Bool.andb_true_r; reflexivity.
          * destruct (Z.eqb_spec j i); [lia|reflexivity].
      - destruct (Z.leb_spec 64 i).
        + rewrite wrap64_small, shl64_one by lia.
          eexists; split; [reflexivity|].
          assert (W : Uint128.wf (Uint128.mk (Z.lor (Uint128.hi u) (2 ^ (i - 64))) (Uint128.lo u))).
          { apply u128_wf_mk; [|assumption]. apply lor_range64; [assumption|].
            split; [apply Z.pow_nonneg; lia | apply Z.pow_lt_mono_r; lia]. }
          split; [exact W|]. intros j Hj. rewrite !u128_testbit by (auto; lia).
          cbn [Uint128.hi Uint128.lo].
          destruct (Z.ltb_spec j 64).
          * destruct (Z.eqb_spec j i); [lia|reflexivity].
          * rewrite Z.lor_spec, Z.pow2_bits_eqb by lia.
            destruct (Z.eqb_spec (i - 64) (j - 64)); destruct (Z.eqb_spec j i); try lia;
              rewrite ?Bool.orb_false_r, ?Bool.orb_true_r; reflexivity.
        + rewrite wrap64_small, shl64_one by lia.
          eexists; split; [reflexivity|].
          assert (W : Uint128.wf (Uint128.mk (Uint128.hi u) (Z.lor (Uint128.lo u) (2 ^ i)))).
          { apply u128_wf_mk; [assumption|]. apply lor_range64; [assumption|].
            split; [apply Z.pow_nonneg; lia | apply Z.pow_lt_mono_r; lia]. }
          split; [exact W|]. intros j Hj. rewrite !u128_testbit by (auto; lia).
          cbn [Uint128.hi Uint128.lo].
          destruct (Z.ltb_spec j 64).
          * rewrite Z.lor_spec, Z.pow2_bits_eqb by lia.
            destruct (Z.eqb_spec i j); destruct (Z.eqb_spec j i); try lia;
              rewrite ?Bool.orb_false_r, ?Bool.orb_true_r; reflexivity.
          * destruct (Z.eqb_spec j i); [lia|reflexivity]. }
    destruct Hset as (v & Ev & Wv & Hv).
    exists v. refine (conj Ev (conj Wv (conj _ _))).
    + rewrite Hbit, Hv by assumption. rewrite Z.eqb_refl.
      destruct Hb as [-> | ->]; reflexivity.
    + intros j Hj Hne. rewrite !Hbit, Hv by assumption.
      destruct (Z.eqb_spec j i); [lia|reflexivity].
Qed.

Lemma u128_bit_setbit_witness :
  let u := Uint128.mk 5 12 in
  let i := 70 in
  let b := 1 in
  (Uint128.Bit u i = None <-> i < 0 \/ 128 <= i) /\
  (0 <= i < 128 -> Uint128.Bit u i = Some (Z.b2z (Z.testbit (Uint128.toZ u) i))) /\
  (Uint128.SetBit u i b = None <-> (i < 0 \/ 128 <= i) \/ (b <> 0 /\ b <> 1)) /\
  (0 <= i < 128 -> b = 0 \/ b = 1 ->
     exists v, Uint128.SetBit u i b = Some v /\ Uint128.wf v /\
       Uint128.Bit v i = Some b /\
       forall j, 0 <= j < 128 -> j <> i -> Uint128.Bit v j = Uint128.Bit u j).
Proof.
  apply (u128_bit_setbit (Uint128.mk 5 12) 70 1); unfold Uint128.wf; simpl; lia.
Defined.

(** ** Shifts, multiplication and bit counts *)

(** X6: for every shift count, [Lsh] multiplies by [2^n] modulo [2^128]
    and [Rsh] divides by [2^n] rounding down; a count of 128 or more gives
    zero, and shifting right undoes a left shift that lost no bits. *)
Theorem u128_shifts (u : Uint128.t) (n : Z) :
  Uint128.wf u -> 0 <= n < 2 ^ 64 ->
  Uint128.wf (Uint128.Lsh u n) /\ Uint128.wf (Uint128.Rsh u n) /\
  Uint128.toZ (Uint128.Lsh u n) = (Uint128.toZ u * 2 ^ n) mod 2 ^ 128 /\
  Uint128.toZ (Uint128.Rsh u n) = Uint128.toZ u / 2 ^ n /\
  (128 <= n ->
     Uint128.Lsh u n = Uint128.zeroUint128 /\ Uint128.Rsh u n = Uint128.zeroUint128) /\
  (Uint128.toZ u * 2 ^ n < 2 ^ 128 -> Uint128.Rsh (Uint128.Lsh u n) n = u).
Proof.
  intros Hu Hn.
  assert (Wl : Uint128.wf (Uint128.Lsh u n)) by (apply u128_Lsh_wf; [assumption|lia]).
  assert (Wr : Uint128.wf (Uint128.Rsh u n)) by (apply u128_Rsh_wf; [assumption|lia]).
  pose proof (u128_Lsh_spec u n Hu Hn) as El.
  pose proof (u128_Rsh_spec u n Hu Hn) as Er.
  pose proof (u128_toZ_range u Hu) as Ru.
  assert (Hp : 0 < 2 ^ n) by (apply Z.pow_pos_nonneg; lia).
  refine (conj Wl (conj Wr (conj El (conj Er (conj _ _))))).
  - intros Hbig.
    assert (E2 : 2 ^ n = 2 ^ (n - 128) * 2 ^ 128).
    { rewrite <- Z.pow_add_r by lia. f_equal. lia. }
    assert (0 < 2 ^ (n - 128)) by (apply Z.pow_pos_nonneg; lia).
    split; apply u128_toZ_inj; auto using u128_wf_zero;
      change (Uint128.toZ Uint128.zeroUint128) with 0.
    + rewrite El, E2, Z.mul_assoc. apply Z.mod_mul. lia.
    + rewrite Er. apply Z.div_small. nia.
  - intros Hfit.
    assert (Wrl : Uint128.wf (Uint128.Rsh (Uint128.Lsh u n) n))
      by (apply u128_Rsh_wf; [assumption|lia]).
    apply u128_toZ_inj; auto.
    rewrite (u128_Rsh_spec _ n Wl Hn), El.
    rewrite Z.mod_small by nia.
    apply Z.div_mul. lia.
Qed.

Lemma u128_shifts_witness :
  let u := Uint128.mk 1 (2 ^ 63) in
  let n := 65 in
  Uint128.wf (Uint128.Lsh u n) /\ Uint128.wf (Uint128.Rsh u n) /\
  Uint128.toZ (Uint128.Lsh u n) = (Uint128.toZ u * 2 ^ n) mod 2 ^ 128 /\
  Uint128.toZ (Uint128.Rsh u n) = Uint128.toZ u / 2 ^ n /\
  (128 <= n ->
     Uint128.Lsh u n = Uint128.zeroUint128 /\ Uint128.Rsh u n = Uint128.zeroUint128) /\
  (Uint128.toZ u * 2 ^ n < 2 ^ 128 -> Uint128.Rsh (Uint128.Lsh u n) n = u).
Proof.
  apply (u128_shifts (Uint128.mk 1 (2 ^ 63)) 65); unfold Uint128.wf; simpl; lia.
Defined.

(** X7: [Uint128.Mul] is multiplication modulo [2^128] and is
    commutative; [Mul64] is [Mul] by the word promoted to 128 bits. *)
Theorem u128_mul_wraps (a b : Uint128.t) (n : Z) :
  Uint128.wf a -> Uint128.wf b -> 0 <= n < 2 ^ 64 ->
  Uint128.wf (Uint128.Mul a b) /\
  Uint128.toZ (Uint128.Mul a b) = (Uint128.toZ a * Uint128.toZ b) mod 2 ^ 128 /\
  Uint128.Mul a b = Uint128.Mul b a /\
  Uint128.Mul64 a n = Uint128.Mul a (Uint128.Uint128From64 n) /\
  Uint128.toZ (Uint128.Mul64 a n) = (Uint128.toZ a * n) mod 2 ^ 128.
Proof.
  intros Ha Hb Hn.
  destruct (u128_Mul_spec a b Ha Hb) as [Wab Eab].
  destruct (u128_Mul_spec b a Hb Ha) as [Wba Eba].
  assert (Wn : Uint128.wf (Uint128.Uint128From64 n)) by (split; cbn; lia).
  destruct (u128_Mul_spec a _ Ha Wn) as [Wan Ean].
  assert (E64 : Uint128.Mul64 a n = Uint128.Mul a (Uint128.Uint128From64 n)).
  { unfold Uint128.Mul64, Uint128.Mul, Uint128.Uint128From64. cbn [Uint128.hi Uint128.lo].
    destruct (Bits.Mul64 (Uint128.lo a) n) as [h l].
    rewrite Z.mul_0_r. change (wrap64 0) with 0. rewrite Z.add_0_r, wrap64_idem.
    reflexivity. }
  refine (conj Wab (conj Eab (conj _ (conj E64 _)))).
  - apply u128_toZ_inj; auto. rewrite Eab, Eba. f_equal. lia.
  - rewrite E64, Ean. reflexivity.
Qed.

Lemma u128_mul_wraps_witness :
  let a := Uint128.mk (2 ^ 63) 3 in
  let b := Uint128.mk 5 7 in
  let n := 11 in
  Uint128.wf (Uint128.Mul a b) /\
  Uint128.toZ (Uint128.Mul a b) = (Uint128.toZ a * Uint128.toZ b) mod 2 ^ 128 /\
  Uint128.Mul a b = Uint128.Mul b a /\
  Uint128.Mul64 a n = Uint128.Mul a (Uint128.Uint128From64 n) /\
  Uint128.toZ (Uint128.Mul64 a n) = (Uint128.toZ a * n) mod 2 ^ 128.
Proof.
  apply (u128_mul_wraps (Uint128.mk (2 ^ 63) 3) (Uint128.mk 5 7) 11);
    unfold Uint128.wf; simpl; lia.
Defined.

Lemma Len64_range x : 0 <= x < 2 ^ 64 -> 0 <= Len64 x <= 64.
Proof.
  intros Hx. unfold Len64. destruct (Z.leb_spec x 0); [lia|].
  assert (Z.log2 x < 64) by (apply Z.log2_lt_pow2; lia).
  pose proof (Z.log2_nonneg x). lia.
Qed.

(** X8: [BitLen] and [LeadingZeros] always add up to 128; on zero,
    [BitLen] is 0 and [LeadingZeros] and [TrailingZeros] are 128; on a
    nonzero number, [BitLen] is the position above its top bit and
    [TrailingZeros] is the index of its lowest set bit. *)
Theorem u128_bit_counts (u : Uint128.t) :
  Uint128.wf u ->
  Uint128.BitLen u + Uint128.LeadingZeros u = 128 /\
  (Uint128.toZ u = 0 ->
     Uint128.BitLen u = 0 /\ Uint128.LeadingZeros u = 128 /\
     Uint128.TrailingZeros u = 128) /\
  (Uint128.toZ u <> 0 ->
     1 <= Uint128.BitLen u <= 128 /\
     2 ^ (Uint128.BitLen u - 1) <= Uint128.toZ u < 2 ^ Uint128.BitLen u /\
     0 <= Uint128.TrailingZeros u < Uint128.BitLen u /\
     Z.testbit (Uint128.toZ u) (Uint128.TrailingZeros u) = true /\
     (forall j, 0 <= j < Uint128.TrailingZeros u ->
        Z.testbit (Uint128.toZ u) j = false)).
Proof.
  intros Hu. pose proof Hu as [Hh Hl].
  assert (Hsum : Uint128.BitLen u + Uint128.LeadingZeros u = 128).
  { unfold Uint128.BitLen, Uint128.LeadingZeros, LeadingZeros64.
    pose proof (Len64_range _ Hh). pose proof (Len64_range _ Hl).
    destruct (Z.ltb_spec 0 (Uint128.hi u)); destruct (Z.eqb_spec (Uint128.hi u) 0);
      try lia.
    rewrite wrap64_small by lia. lia. }
  refine (conj Hsum (conj _ _)).
  - intros Hz.
    assert (Uint128.hi u = 0 /\ Uint128.lo u = 0) as [Eh El].
    { unfold Uint128.toZ in Hz. pow_consts. lia. }
    unfold Uint128.BitLen, Uint128.LeadingZeros, Uint128.TrailingZeros.
    rewrite Eh, El. repeat split.
  - intros Hnz.
    destruct (u128_LeadingZeros_spec u Hu Hnz) as [Rlz Blz].
    destruct (u128_TrailingZeros_spec u Hu Hnz) as [Rtz (m & Em & Hm)].
    assert (Ebl : Uint128.BitLen u = 128 - Uint128.LeadingZeros u) by lia.
    pose proof (u128_toZ_range u Hu) as Ru.
    assert (Hpt : 0 < 2 ^ Uint128.TrailingZeros u) by (apply Z.pow_pos_nonneg; lia).
    refine (conj _ (conj _ (conj _ (conj _ _)))).
    + lia.
    + rewrite Ebl. replace (128 - Uint128.LeadingZeros u - 1)
        with (127 - Uint128.LeadingZeros u) by lia. exact Blz.
    + split; [lia|]. rewrite Ebl.
      apply (Z.pow_lt_mono_r_iff 2); try lia; nia.
    + rewrite Em, Z.mul_comm, Z.mul_pow2_bits by lia.
      rewrite Z.sub_diag, Z.bit0_odd, Z.add_comm, Z.odd_add_mul_2. reflexivity.
    + intros j Hj. rewrite Em, Z.mul_comm, Z.mul_pow2_bits_low by lia. reflexivity.
Qed.

Lemma u128_bit_counts_witness :
  let u := Uint128.mk 1 8 in
  Uint128.BitLen u + Uint128.LeadingZeros u = 128 /\
  (Uint128.toZ u = 0 ->
     Uint128.BitLen u = 0 /\ Uint128.LeadingZeros u = 128 /\
     Uint128.TrailingZeros u = 128) /\
  (Uint128.toZ u <> 0 ->
     1 <= Uint128.BitLen u <= 128 /\
     2 ^ (Uint128.BitLen u - 1) <= Uint128.toZ u < 2 ^ Uint128.BitLen u /\
     0 <= Uint128.TrailingZeros u < Uint128.BitLen u /\
     Z.testbit (Uint128.toZ u) (Uint128.TrailingZeros u) = true /\
     (forall j, 0 <= j < Uint128.TrailingZeros u ->
        Z.testbit (Uint128.toZ u) j = false)).
Proof.
  apply (u128_bit_counts (Uint128.mk 1 8)); unfold Uint128.wf; simpl; lia.
Defined.

Lemma count_ones_range n z : 0 <= count_ones n z <= Z.of_nat n.
Proof.
  induction n as [|n IH]; cbn [count_ones]; [lia|].
  destruct (Z.testbit z (Z.of_nat n)); cbn [Z.b2z]; lia.
Qed.

Lemma count_ones_ext n z z' :
  (forall j, 0 <= j < Z.of_nat n -> Z.testbit z j = Z.testbit z' j) ->
  count_ones n z = count_ones n z'.
Proof.
  induction n as [|n IH]; intros H; cbn [count_ones]; [reflexivity|].
  rewrite H by lia. rewrite IH; [reflexivity|]. intros j Hj. apply H. lia.
Qed.

Lemma count_ones_low n z :
  count_ones (S n) z = Z.b2z (Z.testbit z 0) + count_ones n (z / 2).
Proof.
  induction n as [|n IH]; [cbn; lia|].
  change (count_ones (S (S n)) z)
    with (Z.b2z (Z.testbit z (Z.of_nat (S n))) + count_ones (S n) z).
  rewrite IH.
  assert (E : Z.testbit (z / 2) (Z.of_nat n) = Z.testbit z (Z.of_nat (S n))).
  { rewrite Nat2Z.inj_succ. apply Z.div2_bits. lia. }
  cbn [count_ones]. rewrite E. lia.
Qed.

Lemma count_ones_zero n : count_ones n 0 = 0.
Proof. induction n as [|n IH]; cbn [count_ones]; [reflexivity|]. rewrite Z.testbit_0_l, IH. reflexivity. Qed.

Lemma count_ones_split n m z :
  count_ones (n + m) z = count_ones n z + count_ones m (z / 2 ^ Z.of_nat n).
Proof.
  revert z. induction n as [|n IH]; intros z.
  - cbn [Nat.add count_ones]. change (2 ^ Z.of_nat 0) with 1. rewrite Z.div_1_r. lia.
  - change (S n + m)%nat with (S (n + m)). rewrite !count_ones_low, IH.
    rewrite Nat2Z.inj_succ, Z.pow_succ_r by lia.
    rewrite Z.div_div by (try lia; apply Z.pow_pos_nonneg; lia). lia.
Qed.

Lemma popcount_pos_spec n : forall p,
  Zpos p < 2 ^ Z.of_nat n -> popcount_pos p = count_ones n (Zpos p).
Proof.
  induction n as [|n IH]; intros p Hp.
  - change (2 ^ Z.of_nat 0) with 1 in Hp. lia.
  - rewrite count_ones_low. rewrite Nat2Z.inj_succ, Z.pow_succ_r in Hp by lia.
    destruct p as [p|p|]; cbn [popcount_pos].
    + rewrite IH by lia.
      replace (Z.pos p~1 / 2) with (Z.pos p) by (rewrite Pos2Z.inj_xI; Z.div_mod_to_equations; lia).
      rewrite Z.bit0_odd. change (Z.odd (Z.pos p~1)) with true. cbn [Z.b2z]. lia.
    + rewrite IH by lia.
      replace (Z.pos p~0 / 2) with (Z.pos p) by (rewrite Pos2Z.inj_xO; Z.div_mod_to_equations; lia).
      rewrite Z.bit0_odd. change (Z.odd (Z.pos p~0)) with false. cbn [Z.b2z]. lia.
    + change (1 / 2) with 0. rewrite count_ones_zero. reflexivity.
Qed.

Lemma OnesCount64_spec x : 0 <= x < 2 ^ 64 -> OnesCount64 x = count_ones 64 x.
Proof.
  intros Hx. destruct x as [|p|p]; [| |lia].
  - symmetry. apply (count_ones_zero 64).
  - apply (popcount_pos_spec 64). exact (proj2 Hx).
Qed.

Lemma count_ones_full n z :
  count_ones n z = Z.of_nat n <->
  (forall j, 0 <= j < Z.of_nat n -> Z.testbit z j = true).
Proof.
  induction n as [|n IH]; cbn [count_ones].
  - split; [intros _ j Hj; lia | reflexivity].
  - pose proof (count_ones_range n z) as R. rewrite Nat2Z.inj_succ. split.
    + intros H j Hj.
      destruct (Z.testbit z (Z.of_nat n)) eqn:E; cbn [Z.b2z] in H; [|lia].
      destruct (Z.eq_dec j (Z.of_nat n)) as [->|]; [exact E|].
      apply IH; lia.
    + intros H. rewrite (H (Z.of_nat n)) by lia. cbn [Z.b2z].
      assert (count_ones n z = Z.of_nat n) by (apply IH; intros; apply H; lia). lia.
Qed.

Lemma u128_count_ones u :
  Uint128.wf u ->
  count_ones 128 (Uint128.toZ u)
  = count_ones 64 (Uint128.lo u) + count_ones 64 (Uint128.hi u).
Proof.
  intros Hu. pose proof Hu as [Hh Hl].
  change 128%nat with (64 + 64)%nat. rewrite count_ones_split.
  f_equal.
  - apply count_ones_ext. intros j Hj. rewrite u128_testbit by (auto; lia).
    destruct (Z.ltb_spec j 64); [reflexivity|lia].
  - f_equal. symmetry. apply (u128_hi_lo u Hu).
Qed.

(** X9: [OnesCount] never undercounts.  It is the number of one bits of
    the value when the high word is zero; when the high word is nonzero it
    is the count of the high word plus 64, whatever the low word holds,
    which is the number of one bits only if the low word is all ones. *)
Theorem u128_onescount (u : Uint128.t) :
  Uint128.wf u ->
  count_ones 128 (Uint128.toZ u) <= Uint128.OnesCount u /\
  (Uint128.hi u = 0 -> Uint128.OnesCount u = count_ones 128 (Uint128.toZ u)) /\
  (Uint128.hi u <> 0 ->
     Uint128.OnesCount u = count_ones 64 (Uint128.hi u) + 64 /\
     (Uint128.OnesCount u = count_ones 128 (Uint128.toZ u)
      <-> Uint128.lo u = maxUint64)).
Proof.
  intros Hu. pose proof Hu as [Hh Hl].
  rewrite (u128_count_ones u Hu).
  pose proof (count_ones_range 64 (Uint128.lo u)) as Rl.
  pose proof (count_ones_range 64 (Uint128.hi u)) as Rh.
  change (Z.of_nat 64) with 64 in Rl, Rh.
  unfold Uint128.OnesCount.
  rewrite !OnesCount64_spec by assumption.
  refine (conj _ (conj _ _)).
  - destruct (Z.ltb_spec 0 (Uint128.hi u)); [lia|].
    replace (Uint128.hi u) with 0 by lia. rewrite (count_ones_zero 64). lia.
  - intros ->. cbn [Z.ltb Z.compare]. rewrite (count_ones_zero 64). lia.
  - intros Hnz. destruct (Z.ltb_spec 0 (Uint128.hi u)); [|lia].
    split; [reflexivity|].
    assert (Hfull : count_ones 64 (Uint128.lo u) = 64 <-> Uint128.lo u = maxUint64).
    { change 64 with (Z.of_nat 64) at 1. rewrite count_ones_full. split.
      - intros Hb. change maxUint64 with (Z.ones 64).
        apply Z.bits_inj'. intros j Hj. rewrite Z.testbit_ones_nonneg by lia.
        destruct (Z.ltb_spec j 64).
        + apply Hb. change (Z.of_nat 64) with 64. lia.
        + apply testbit_high64; assumption.
      - intros -> j Hj. change maxUint64 with (Z.ones 64).
        rewrite Z.testbit_ones_nonneg by lia. apply Z.ltb_lt. exact (proj2 Hj). }
    split; intros H0.
    + apply Hfull. lia.
    + apply Hfull in H0. lia.
Qed.

Lemma u128_onescount_witness :
  let u := Uint128.mk 1 0 in
  count_ones 128 (Uint128.toZ u) <= Uint128.OnesCount u /\
  (Uint128.hi u = 0 -> Uint128.OnesCount u = count_ones 128 (Uint128.toZ u)) /\
  (Uint128.hi u <> 0 ->
     Uint128.OnesCount u = count_ones 64 (Uint128.hi u) + 64 /\
     (Uint128.OnesCount u = count_ones 128 (Uint128.toZ u)
      <-> Uint128.lo u = maxUint64)).
Proof.
  apply (u128_onescount (Uint128.mk 1 0)); unfold Uint128.wf; simpl; lia.
Defined.

(** ** Bit and byte reversal *)

Lemma reverse_bits_testbit n : forall x acc j,
  0 <= j ->
  Z.testbit (reverse_bits n x acc) j
  = if j <? Z.of_nat n then Z.testbit x (Z.of_nat n - 1 - j)
    else Z.testbit acc (j - Z.of_nat n).
Proof.
  induction n as [|n IH]; intros x acc j Hj.
  - cbn [reverse_bits]. change (Z.of_nat 0) with 0.
    destruct (Z.ltb_spec j 0); [lia|]. f_equal. lia.
  - cbn [reverse_bits]. rewrite IH by lia. rewrite Nat2Z.inj_succ.
    destruct (Z.ltb_spec j (Z.of_nat n)); destruct (Z.ltb_spec j (Z.succ (Z.of_nat n)));
      try lia.
    + rewrite Z.shiftr_spec by lia. f_equal. lia.
    + replace (j - Z.of_nat n) with 0 by lia.
      rewrite Z.lor_spec, Z.shiftl_spec, Z.land_spec by lia.
      rewrite (Z.testbit_neg_r acc) by lia.
      change (Z.testbit 1 0) with true. rewrite Bool.andb_true_r. cbn [orb].
      f_equal. lia.
    + rewrite Z.lor_spec, Z.shiftl_spec, Z.land_spec by lia.
      change 1 with (2 ^ 0) at 2. rewrite Z.pow2_bits_false by lia.
      rewrite Bool.andb_false_r, Bool.orb_false_r. f_equal. lia.
Qed.

Lemma Reverse64_testbit x j :
  0 <= j ->
  Z.testbit (Reverse64 x) j = (j <? 64) && Z.testbit x (63 - j).
Proof.
  intros Hj. unfold Reverse64. rewrite reverse_bits_testbit by lia.
  change (Z.of_nat 64) with 64.
  destruct (Z.ltb_spec j 64); cbn [andb]; [f_equal; lia|apply Z.testbit_0_l].
Qed.

Lemma reverse_bits_nonneg n : forall x acc, 0 <= acc -> 0 <= reverse_bits n x acc.
Proof.
  induction n as [|n IH]; intros x acc Ha; cbn [reverse_bits]; [assumption|].
  apply IH. apply Z.lor_nonneg. split.
  - apply Z.shiftl_nonneg. assumption.
  - apply Z.land_nonneg. right. lia.
Qed.

Lemma bits_range64 z :
  0 <= z -> (forall j, 64 <= j -> Z.testbit z j = false) -> 0 <= z < 2 ^ 64.
Proof.
  intros Hz Hb. split; [assumption|].
  replace z with (z mod 2 ^ 64); [apply Z.mod_pos_bound; lia|].
  apply Z.bits_inj'. intros j Hj. rewrite Z.testbit_mod_pow2 by lia.
  destruct (Z.ltb_spec j 64); cbn [andb]; [reflexivity|].
  symmetry. apply Hb. assumption.
Qed.

Lemma Reverse64_range x : 0 <= Reverse64 x < 2 ^ 64.
Proof.
  apply bits_range64.
  - apply reverse_bits_nonneg. lia.
  - intros j Hj. rewrite Reverse64_testbit by lia.
    destruct (Z.ltb_spec j 64); [lia|reflexivity].
Qed.

(** X10: [Reverse] mirrors the 128 bits of the number (bit [j] of the
    result is bit [127 - j] of the operand) and is an involution. *)
Theorem u128_reverse (u : Uint128.t) :
  Uint128.wf u ->
  Uint128.wf (Uint128.Reverse u) /\
  (forall j, 0 <= j < 128 ->
     Z.testbit (Uint128.toZ (Uint128.Reverse u)) j
     = Z.testbit (Uint128.toZ u) (127 - j)) /\
  Uint128.Reverse (Uint128.Reverse u) = u.
Proof.
  intros Hu.
  assert (Hwf : forall v, Uint128.wf (Uint128.Reverse v)).
  { intros v. split; apply Reverse64_range. }
  assert (Hbits : forall v j, Uint128.wf v -> 0 <= j < 128 ->
            Z.testbit (Uint128.toZ (Uint128.Reverse v)) j
            = Z.testbit (Uint128.toZ v) (127 - j)).
  { intros v j Hv Hj. rewrite !u128_testbit by (auto; lia).
    unfold Uint128.Reverse. cbn [Uint128.hi Uint128.lo].
    destruct (Z.ltb_spec j 64); destruct (Z.ltb_spec (127 - j) 64); try lia;
      rewrite Reverse64_testbit by lia.
    - destruct (Z.ltb_spec j 64); [|lia]. cbn [andb]. f_equal. lia.
    - destruct (Z.ltb_spec (j - 64) 64); [|lia]. cbn [andb]. f_equal. lia. }
  refine (conj (Hwf u) (conj (fun j Hj => Hbits u j Hu Hj) _)).
  apply u128_bits_ext; auto.
  intros j Hj. rewrite Hbits, Hbits by (auto; lia). f_equal. lia.
Qed.

Lemma u128_reverse_witness :
  let u := Uint128.mk 1 6 in
  Uint128.wf (Uint128.Reverse u) /\
  (forall j, 0 <= j < 128 ->
     Z.testbit (Uint128.toZ (Uint128.Reverse u)) j
     = Z.testbit (Uint128.toZ u) (127 - j)) /\
  Uint128.Reverse (Uint128.Reverse u) = u.
Proof.
  apply (u128_reverse (Uint128.mk 1 6)); unfold Uint128.wf; simpl; lia.
Defined.

Lemma byte_mod x : byte x = x mod 256.
Proof. unfold byte. change 255 with (Z.ones 8). rewrite Z.land_ones by lia. reflexivity. Qed.

Lemma lor_shifted A b s :
  0 <= s < 64 -> 0 <= A < 2 ^ s -> 0 <= b -> b * 2 ^ s < 2 ^ 64 ->
  Z.lor A (shl64 b s) = A + b * 2 ^ s.
Proof.
  intros Hs HA Hb Hfit. rewrite shl64_small by lia.
  apply Z.or_to_plus.
  apply Z.bits_inj'. intros j Hj. rewrite Z.land_spec, Z.testbit_0_l.
  destruct (Z.ltb_spec j s).
  - rewrite Z.mul_pow2_bits_low by lia. apply andb_false_r.
  - rewrite (testbit_above A s j) by lia. reflexivity.
Qed.

Lemma or8_sum a0 a1 a2 a3 a4 a5 a6 a7 :
  0 <= a0 < 256 -> 0 <= a1 < 256 -> 0 <= a2 < 256 -> 0 <= a3 < 256 ->
  0 <= a4 < 256 -> 0 <= a5 < 256 -> 0 <= a6 < 256 -> 0 <= a7 < 256 ->
  Uint128.or8 a0 a1 a2 a3 a4 a5 a6 a7
  = a0 + a1 * 2 ^ 8 + a2 * 2 ^ 16 + a3 * 2 ^ 24 + a4 * 2 ^ 32 + a5 * 2 ^ 40
    + a6 * 2 ^ 48 + a7 * 2 ^ 56.
Proof.
  intros H0 H1 H2 H3 H4 H5 H6 H7. unfold Uint128.or8.
  rewrite (lor_shifted a0 a1 8) by lia.
  rewrite (lor_shifted _ a2 16) by lia.
  rewrite (lor_shifted _ a3 24) by lia.
  rewrite (lor_shifted _ a4 32) by lia.
  rewrite (lor_shifted _ a5 40) by lia.
  rewrite (lor_shifted _ a6 48) by lia.
  rewrite (lor_shifted _ a7 56) by lia.
  reflexivity.
Qed.

Lemma ReverseBytes64_sum x :
  0 <= x < 2 ^ 64 ->
  ReverseBytes64 x
  = (x / 2 ^ 56) mod 256 + (x / 2 ^ 48) mod 256 * 2 ^ 8
    + (x / 2 ^ 40) mod 256 * 2 ^ 16 + (x / 2 ^ 32) mod 256 * 2 ^ 24
    + (x / 2 ^ 24) mod 256 * 2 ^ 32 + (x / 2 ^ 16) mod 256 * 2 ^ 40
    + (x / 2 ^ 8) mod 256 * 2 ^ 48 + x mod 256 * 2 ^ 56.
Proof.
  intros Hx.
  change (ReverseBytes64 x) with
    (Uint128.or8 (byte (shr64 x 56)) (byte (shr64 x 48)) (byte (shr64 x 40))
       (byte (shr64 x 32)) (byte (shr64 x 24)) (byte (shr64 x 16))
       (byte (shr64 x 8)) (byte x)).
  rewrite or8_sum by apply byte_range.
  rewrite !byte_mod, !shr64_div by lia. reflexivity.
Qed.

Lemma digit_extract S L a H P :
  0 < P -> 0 <= L < P -> 0 <= a < 256 -> S = L + P * (a + 256 * H) ->
  (S / P) mod 256 = a.
Proof.
  intros HP HL Ha ->.
  rewrite Z.mul_comm, Z.div_add by lia.
  rewrite (Z.div_small L P) by lia. rewrite Z.add_0_l.
  rewrite (Z.mul_comm 256 H), Z.mod_add by lia.
  apply Z.mod_small. lia.
Qed.

Lemma bytes_sum_digits a0 a1 a2 a3 a4 a5 a6 a7 S :
  0 <= a0 < 256 -> 0 <= a1 < 256 -> 0 <= a2 < 256 -> 0 <= a3 < 256 ->
  0 <= a4 < 256 -> 0 <= a5 < 256 -> 0 <= a6 < 256 -> 0 <= a7 < 256 ->
  S = a0 + a1 * 2 ^ 8 + a2 * 2 ^ 16 + a3 * 2 ^ 24 + a4 * 2 ^ 32 + a5 * 2 ^ 40
      + a6 * 2 ^ 48 + a7 * 2 ^ 56 ->
  0 <= S < 2 ^ 64 /\
  S mod 256 = a0 /\ (S / 2 ^ 8) mod 256 = a1 /\ (S / 2 ^ 16) mod 256 = a2 /\
  (S / 2 ^ 24) mod 256 = a3 /\ (S / 2 ^ 32) mod 256 = a4 /\
  (S / 2 ^ 40) mod 256 = a5 /\ (S / 2 ^ 48) mod 256 = a6 /\
  (S / 2 ^ 56) mod 256 = a7.
Proof.
  intros H0 H1 H2 H3 H4 H5 H6 H7 ->. byte_consts.
  split; [lia|].
  refine (conj _ (conj _ (conj _ (conj _ (conj _ (conj _ (conj _ _))))))).
  - match goal with |- ?S mod 256 = _ => rewrite <- (Z.div_1_r S) end.
    apply (digit_extract _ 0 a0
             (a1 + a2 * 256 + a3 * 65536 + a4 * 16777216 + a5 * 4294967296
              + a6 * 1099511627776 + a7 * 281474976710656)); lia.
  - apply (digit_extract _ a0 a1
             (a2 + a3 * 256 + a4 * 65536 + a5 * 16777216 + a6 * 4294967296
              + a7 * 1099511627776)); lia.
  - apply (digit_extract _ (a0 + a1 * 256) a2
             (a3 + a4 * 256 + a5 * 65536 + a6 * 16777216 + a7 * 4294967296)); lia.
  - apply (digit_extract _ (a0 + a1 * 256 + a2 * 65536) a3
             (a4 + a5 * 256 + a6 * 65536 + a7 * 16777216)); lia.
  - apply (digit_extract _ (a0 + a1 * 256 + a2 * 65536 + a3 * 16777216) a4
             (a5 + a6 * 256 + a7 * 65536)); lia.
  - apply (digit_extract _ (a0 + a1 * 256 + a2 * 65536 + a3 * 16777216
                            + a4 * 4294967296) a5 (a6 + a7 * 256)); lia.
  - apply (digit_extract _ (a0 + a1 * 256 + a2 * 65536 + a3 * 16777216
                            + a4 * 4294967296 + a5 * 1099511627776) a6 a7); lia.
  - apply (digit_extract _ (a0 + a1 * 256 + a2 * 65536 + a3 * 16777216
                            + a4 * 4294967296 + a5 * 1099511627776
                            + a6 * 281474976710656) a7 0); lia.
Qed.

Lemma ReverseBytes64_spec x :
  0 <= x < 2 ^ 64 ->
  0 <= ReverseBytes64 x < 2 ^ 64 /\
  (byte (ReverseBytes64 x) = byte (shr64 x 56) /\
   byte (shr64 (ReverseBytes64 x) 8) = byte (shr64 x 48) /\
   byte (shr64 (ReverseBytes64 x) 16) = byte (shr64 x 40) /\
   byte (shr64 (ReverseBytes64 x) 24) = byte (shr64 x 32) /\
   byte (shr64 (ReverseBytes64 x) 32) = byte (shr64 x 24) /\
   byte (shr64 (ReverseBytes64 x) 40) = byte (shr64 x 16) /\
   byte (shr64 (ReverseBytes64 x) 48) = byte (shr64 x 8) /\
   byte (shr64 (ReverseBytes64 x) 56) = byte x) /\
  ReverseBytes64 (ReverseBytes64 x) = x.
Proof.
  intros Hx.
  assert (E : forall y, ReverseBytes64 y =
    Uint128.or8 (byte (shr64 y 56)) (byte (shr64 y 48)) (byte (shr64 y 40))
      (byte (shr64 y 32)) (byte (shr64 y 24)) (byte (shr64 y 16))
      (byte (shr64 y 8)) (byte y)) by reflexivity.
  pose proof (or8_sum _ _ _ _ _ _ _ _
    (byte_range (shr64 x 56)) (byte_range (shr64 x 48)) (byte_range (shr64 x 40))
    (byte_range (shr64 x 32)) (byte_range (shr64 x 24)) (byte_range (shr64 x 16))
    (byte_range (shr64 x 8)) (byte_range x)) as Hsum.
  rewrite <- E in Hsum.
  destruct (bytes_sum_digits _ _ _ _ _ _ _ _ _
    (byte_range (shr64 x 56)) (byte_range (shr64 x 48)) (byte_range (shr64 x 40))
    (byte_range (shr64 x 32)) (byte_range (shr64 x 24)) (byte_range (shr64 x 16))
    (byte_range (shr64 x 8)) (byte_range x) Hsum)
    as (R & B0 & B1 & B2 & B3 & B4 & B5 & B6 & B7).
  assert (Hb : byte (ReverseBytes64 x) = byte (shr64 x 56) /\
   byte (shr64 (ReverseBytes64 x) 8) = byte (shr64 x 48) /\
   byte (shr64 (ReverseBytes64 x) 16) = byte (shr64 x 40) /\
   byte (shr64 (ReverseBytes64 x) 24) = byte (shr64 x 32) /\
   byte (shr64 (ReverseBytes64 x) 32) = byte (shr64 x 24) /\
   byte (shr64 (ReverseBytes64 x) 40) = byte (shr64 x 16) /\
   byte (shr64 (ReverseBytes64 x) 48) = byte (shr64 x 8) /\
   byte (shr64 (ReverseBytes64 x) 56) = byte x).
  { rewrite !(shr64_div (ReverseBytes64 x)) by lia.
    rewrite !(byte_mod (ReverseBytes64 x / _)), (byte_mod (ReverseBytes64 x)).
    repeat split; assumption. }
  refine (conj R (conj Hb _)).
  destruct Hb as (C0 & C1 & C2 & C3 & C4 & C5 & C6 & C7).
  rewrite (E (ReverseBytes64 x)), C0, C1, C2, C3, C4, C5, C6, C7.
  apply or8_bytes. assumption.
Qed.

(** X11: [ReverseBytes] is an involution that swaps the two byte orders:
    the big-endian encoding of the reversed value is the little-endian
    encoding of the value, and conversely, on any buffer. *)
Theorem u128_reverse_bytes (u : Uint128.t) (b : list Z) :
  Uint128.wf u ->
  Uint128.wf (Uint128.ReverseBytes u) /\
  Uint128.ReverseBytes (Uint128.ReverseBytes u) = u /\
  Uint128.PutBigEndian (Uint128.ReverseBytes u) b = Uint128.PutLittleEndian u b /\
  Uint128.PutLittleEndian (Uint128.ReverseBytes u) b = Uint128.PutBigEndian u b.
Proof.
  intros [Hh Hl].
  destruct (ReverseBytes64_spec _ Hh) as (Rh & (H0 & H1 & H2 & H3 & H4 & H5 & H6 & H7) & Ih).
  destruct (ReverseBytes64_spec _ Hl) as (Rl & (L0 & L1 & L2 & L3 & L4 & L5 & L6 & L7) & Il).
  refine (conj _ (conj _ (conj _ _))).
  - split; assumption.
  - unfold Uint128.ReverseBytes. cbn [Uint128.hi Uint128.lo].
    rewrite Ih, Il. destruct u; reflexivity.
  - unfold Uint128.PutBigEndian, Uint128.PutLittleEndian, Uint128.ReverseBytes.
    cbn [Uint128.hi Uint128.lo].
    rewrite H0, H1, H2, H3, H4, H5, H6, H7, L0, L1, L2, L3, L4, L5, L6, L7.
    reflexivity.
  - unfold Uint128.PutBigEndian, Uint128.PutLittleEndian, Uint128.ReverseBytes.
    cbn [Uint128.hi Uint128.lo].
    rewrite H0, H1, H2, H3, H4, H5, H6, H7, L0, L1, L2, L3, L4, L5, L6, L7.
    reflexivity.
Qed.

Lemma u128_reverse_bytes_witness :
  let u := Uint128.mk 0x0102030405060708 0x090a0b0c0d0e0f10 in
  let b := repeat 0 16 in
  Uint128.wf (Uint128.ReverseBytes u) /\
  Uint128.ReverseBytes (Uint128.ReverseBytes u) = u /\
  Uint128.PutBigEndian (Uint128.ReverseBytes u) b = Uint128.PutLittleEndian u b /\
  Uint128.PutLittleEndian (Uint128.ReverseBytes u) b = Uint128.PutBigEndian u b.
Proof.
  apply (u128_reverse_bytes (Uint128.mk 0x0102030405060708 0x090a0b0c0d0e0f10));
    unfold Uint128.wf; simpl; lia.
Defined.

(** ** Unsigned conversions, difference and 64-bit division *)

(** X12: [MustUint128FromI64] panics exactly on a negative [int64] and
    otherwise returns the number itself; [IsUint64] holds exactly below
    [2^64], where [MustUint64] returns the number, and [MustUint64] panics
    exactly from [2^64] on; [AsUint64] is the number modulo [2^64];
    [IsZero] holds exactly on zero; [Uint128FromRaw] undoes [Raw]. *)
Theorem u128_word_conversions (u : Uint128.t) (v : Z) :
  Uint128.wf u -> - 2 ^ 63 <= v < 2 ^ 63 ->
  (Uint128.MustUint128FromI64 v = None <-> v < 0) /\
  (0 <= v ->
     exists w, Uint128.MustUint128FromI64 v = Some w /\
               Uint128.Uint128FromI64 v = (w, true) /\
               Uint128.wf w /\ Uint128.toZ w = v) /\
  (v < 0 -> Uint128.Uint128FromI64 v = (Uint128.zeroUint128, false)) /\
  Uint128.IsUint64 u = (Uint128.toZ u <? 2 ^ 64) /\
  Uint128.AsUint64 u = Uint128.toZ u mod 2 ^ 64 /\
  (Uint128.MustUint64 u = None <-> 2 ^ 64 <= Uint128.toZ u) /\
  (Uint128.toZ u < 2 ^ 64 -> Uint128.MustUint64 u = Some (Uint128.toZ u)) /\
  Uint128.IsZero u = (Uint128.toZ u =? 0) /\
  Uint128.Uint128FromRaw (fst (Uint128.Raw u)) (snd (Uint128.Raw u)) = u.
Proof.
  intros [Hh Hl] Hv.
  unfold Uint128.MustUint128FromI64, Uint128.Uint128FromI64, Uint128.IsUint64,
    Uint128.AsUint64, Uint128.MustUint64, Uint128.IsZero, Uint128.Raw,
    Uint128.Uint128FromRaw, Uint128.toZ.
  destruct u as [h l]; cbn [Uint128.hi Uint128.lo fst snd] in *.
  refine (conj _ (conj _ (conj _ (conj _ (conj _ (conj _ (conj _ (conj _ _)))))))).
  - destruct (Z.ltb_spec v 0); cbn [negb]; split; intros; try discriminate; try lia.
    reflexivity.
  - intros Hpos. destruct (Z.ltb_spec v 0); [lia|]. cbn [negb].
    eexists; split; [reflexivity|]. split; [reflexivity|].
    rewrite wrap64_small by (pow_consts; lia).
    split; [split; cbn [Uint128.hi Uint128.lo]; pow_consts; lia|].
    unfold Uint128.toZ. cbn [Uint128.hi Uint128.lo]. lia.
  - intros Hneg. destruct (Z.ltb_spec v 0); [reflexivity|lia].
  - pow_consts. cases_lia.
  - pow_consts. Z.div_mod_to_equations. lia.
  - pow_consts. destruct (Z.eqb_spec h 0); cbn [negb]; split; intros; try discriminate; try lia.
    reflexivity.
  - pow_consts. intros Hs. destruct (Z.eqb_spec h 0); cbn [negb]; [|lia].
    f_equal. lia.
  - pow_consts. cases_lia.
  - reflexivity.
Qed.

Lemma u128_word_conversions_witness :
  let u := Uint128.mk 0 77 in
  let v := 12 in
  (Uint128.MustUint128FromI64 v = None <-> v < 0) /\
  (0 <= v ->
     exists w, Uint128.MustUint128FromI64 v = Some w /\
               Uint128.Uint128FromI64 v = (w, true) /\
               Uint128.wf w /\ Uint128.toZ w = v) /\
  (v < 0 -> Uint128.Uint128FromI64 v = (Uint128.zeroUint128, false)) /\
  Uint128.IsUint64 u = (Uint128.toZ u <? 2 ^ 64) /\
  Uint128.AsUint64 u = Uint128.toZ u mod 2 ^ 64 /\
  (Uint128.MustUint64 u = None <-> 2 ^ 64 <= Uint128.toZ u) /\
  (Uint128.toZ u < 2 ^ 64 -> Uint128.MustUint64 u = Some (Uint128.toZ u)) /\
  Uint128.IsZero u = (Uint128.toZ u =? 0) /\
  Uint128.Uint128FromRaw (fst (Uint128.Raw u)) (snd (Uint128.Raw u)) = u.
Proof.
  apply (u128_word_conversions (Uint128.mk 0 77) 12); unfold Uint128.wf; simpl; lia.
Defined.

(** X13: [DifferenceUint128] is the absolute difference of the two
    numbers, [LargerUint128] their maximum and [SmallerUint128] their
    minimum (each one of the operands), and the difference is the larger
    minus the smaller. *)
Theorem u128_difference_larger_smaller (a b : Uint128.t) :
  Uint128.wf a -> Uint128.wf b ->
  Uint128.wf (Uint128.DifferenceUint128 a b) /\
  Uint128.toZ (Uint128.DifferenceUint128 a b) = Z.abs (Uint128.toZ a - Uint128.toZ b) /\
  Uint128.toZ (Uint128.LargerUint128 a b) = Z.max (Uint128.toZ a) (Uint128.toZ b) /\
  Uint128.toZ (Uint128.SmallerUint128 a b) = Z.min (Uint128.toZ a) (Uint128.toZ b) /\
  (Uint128.LargerUint128 a b = a \/ Uint128.LargerUint128 a b = b) /\
  (Uint128.SmallerUint128 a b = a \/ Uint128.SmallerUint128 a b = b) /\
  Uint128.DifferenceUint128 a b
  = Uint128.Sub (Uint128.LargerUint128 a b) (Uint128.SmallerUint128 a b).
Proof.
  intros Ha Hb. pose proof Ha as [Hah Hal]. pose proof Hb as [Hbh Hbl].
  destruct (u128_Sub_spec a b Ha Hb) as [Wab Eab].
  destruct (u128_Sub_spec b a Hb Ha) as [Wba Eba].
  pose proof (u128_toZ_range a Ha) as Ra. pose proof (u128_toZ_range b Hb) as Rb.
  assert (Hlt : Uint128.toZ a < Uint128.toZ b ->
            Uint128.toZ (Uint128.Sub b a) = Uint128.toZ b - Uint128.toZ a).
  { intros. rewrite Eba. apply Z.mod_small. lia. }
  assert (Hgt : Uint128.toZ b < Uint128.toZ a ->
            Uint128.toZ (Uint128.Sub a b) = Uint128.toZ a - Uint128.toZ b).
  { intros. rewrite Eab. apply Z.mod_small. lia. }
  assert (Hself : Uint128.Sub a a = Uint128.mk 0 0).
  { apply u128_toZ_inj; auto using u128_wf_zero.
    - apply u128_Sub_spec; assumption.
    - destruct (u128_Sub_spec a a Ha Ha) as [_ E]. rewrite E, Z.sub_diag. reflexivity. }
  unfold Uint128.DifferenceUint128, Uint128.LargerUint128, Uint128.SmallerUint128.
  unfold Uint128.toZ in Hlt, Hgt, Ra, Rb |- *. pow_consts.
  destruct (Z.ltb_spec (Uint128.hi b) (Uint128.hi a));
    [|destruct (Z.ltb_spec (Uint128.hi a) (Uint128.hi b));
      [|destruct (Z.ltb_spec (Uint128.lo b) (Uint128.lo a));
        [|destruct (Z.ltb_spec (Uint128.lo a) (Uint128.lo b))]]].
  all: repeat match goal with
       | |- context [Z.ltb ?x ?y] => destruct (Z.ltb_spec x y); try lia
       end.
  all: refine (conj _ (conj _ (conj _ (conj _ (conj _ (conj _ _)))))); auto using u128_wf_zero.
  all: try (rewrite Hgt by lia); try (rewrite Hlt by lia); try lia.
  all: try (cbn [Uint128.hi Uint128.lo]; lia).
  all: try (symmetry; exact Hself).
Qed.

Lemma u128_difference_larger_smaller_witness :
  let a := Uint128.mk 1 2 in
  let b := Uint128.mk 3 1 in
  Uint128.wf (Uint128.DifferenceUint128 a b) /\
  Uint128.toZ (Uint128.DifferenceUint128 a b) = Z.abs (Uint128.toZ a - Uint128.toZ b) /\
  Uint128.toZ (Uint128.LargerUint128 a b) = Z.max (Uint128.toZ a) (Uint128.toZ b) /\
  Uint128.toZ (Uint128.SmallerUint128 a b) = Z.min (Uint128.toZ a) (Uint128.toZ b) /\
  (Uint128.LargerUint128 a b = a \/ Uint128.LargerUint128 a b = b) /\
  (Uint128.SmallerUint128 a b = a \/ Uint128.SmallerUint128 a b = b) /\
  Uint128.DifferenceUint128 a b
  = Uint128.Sub (Uint128.LargerUint128 a b) (Uint128.SmallerUint128 a b).
Proof.
  apply (u128_difference_larger_smaller (Uint128.mk 1 2) (Uint128.mk 3 1));
    unfold Uint128.wf; simpl; lia.
Defined.

(** X14: for a nonzero 64-bit divisor, [Uint128.QuoRem64] returns the
    quotient and remainder of the number by the word, [Quo64] and [Rem64]
    return the same components, and the result is the one [QuoRem] gives
    for the divisor promoted to 128 bits. *)
Theorem u128_quorem64_correct (u : Uint128.t) (m : Z) :
  Uint128.wf u -> 0 < m < 2 ^ 64 ->
  exists q r,
    Uint128.QuoRem64 u m = Some (q, r) /\
    Uint128.wf q /\ Uint128.wf r /\
    Uint128.toZ q = Uint128.toZ u / m /\
    Uint128.toZ r = Uint128.toZ u mod m /\
    Uint128.Quo64 u m = Some q /\
    Uint128.Rem64 u m = Some r /\
    Uint128.QuoRem u (Uint128.Uint128From64 m) = Some (q, r).
Proof.
  intros Hu Hm.
  destruct (u128_div64_spec u m Hu Hm) as (q & r & E & Wq & Wr & Eq & Er & EQ & ER).
  exists q, r. repeat (split; [assumption|]).
  assert (Wm : Uint128.wf (Uint128.Uint128From64 m)) by (split; cbn; lia).
  assert (Em : Uint128.toZ (Uint128.Uint128From64 m) = m) by reflexivity.
  destruct (u128_QuoRem_spec u _ Hu Wm ltac:(rewrite Em; lia)) as (q' & r' & E' & D & _).
  pose proof D as (Wq' & Wr' & _).
  destruct (divides_as_unique _ _ _ _ D) as (_ & Eq' & Er').
  rewrite Em in Eq', Er'.
  rewrite E'. f_equal. f_equal; apply u128_toZ_inj; auto; congruence.
Qed.

Lemma u128_quorem64_correct_witness :
  exists q r,
    Uint128.QuoRem64 (Uint128.mk 5 9) 7 = Some (q, r) /\
    Uint128.wf q /\ Uint128.wf r /\
    Uint128.toZ q = Uint128.toZ (Uint128.mk 5 9) / 7 /\
    Uint128.toZ r = Uint128.toZ (Uint128.mk 5 9) mod 7 /\
    Uint128.Quo64 (Uint128.mk 5 9) 7 = Some q /\
    Uint128.Rem64 (Uint128.mk 5 9) 7 = Some r /\
    Uint128.QuoRem (Uint128.mk 5 9) (Uint128.Uint128From64 7) = Some (q, r).
Proof.
  apply (u128_quorem64_correct (Uint128.mk 5 9) 7); unfold Uint128.wf; simpl; lia.
Defined.

Lemma i128_toZ_raw i :
  Int128.wf i ->
  Int128.toZ i
  = (Int128.hi i * 2 ^ 64 + Int128.lo i + 2 ^ 127) mod 2 ^ 128 - 2 ^ 127.
Proof.
  intros [Hh Hl]. unfold Int128.toZ. pow_consts.
  destruct (Z.ltb_spec (Int128.hi i * 18446744073709551616 + Int128.lo i)
              170141183460469231731687303715884105728);
    Z.div_mod_to_equations; lia.
Qed.

(** ** Signed conversions and sign *)

(** X15: [Int128FromInt64] represents every [int64] exactly and [AsInt64]
    reads it back; [IsInt64] holds exactly for the numbers of the [int64]
    range, where [AsInt64] and [MustInt64] return the number; in general
    [AsInt64] keeps the low 64 bits as a two's-complement word, and
    [MustInt64] panics exactly when [IsInt64] fails. *)
Theorem i128_int64_conversions (i : Int128.t) (v : Z) :
  Int128.wf i -> - 2 ^ 63 <= v < 2 ^ 63 ->
  Int128.wf (Int128.Int128FromInt64 v) /\
  Int128.toZ (Int128.Int128FromInt64 v) = v /\
  Int128.AsInt64 (Int128.Int128FromInt64 v) = v /\
  Int128.IsInt64 i = (- 2 ^ 63 <=? Int128.toZ i) && (Int128.toZ i <? 2 ^ 63) /\
  Int128.AsInt64 i = (Int128.toZ i + 2 ^ 63) mod 2 ^ 64 - 2 ^ 63 /\
  (Int128.IsInt64 i = true ->
     Int128.AsInt64 i = Int128.toZ i /\ Int128.MustInt64 i = Some (Int128.toZ i)) /\
  (Int128.IsInt64 i = false -> Int128.MustInt64 i = None).
Proof.
  intros Hi Hv. pose proof Hi as [Hh Hl].
  assert (Has : forall w, Int128.wf w ->
            Int128.AsInt64 w = (Int128.toZ w + 2 ^ 63) mod 2 ^ 64 - 2 ^ 63).
  { intros [h l] [Hwh Hwl]. unfold Int128.AsInt64.
    cbn [Int128.hi Int128.lo] in *. rewrite signbit_land by assumption.
    i128_words.
    destruct (Z.ltb_spec h 9223372036854775808); cbn [Z.eqb negb];
      destruct (Z.ltb_spec (h * 18446744073709551616 + l)
                  170141183460469231731687303715884105728); try lia;
      Z.div_mod_to_equations; lia. }
  assert (Hfrom : Int128.wf (Int128.Int128FromInt64 v) /\
                  Int128.toZ (Int128.Int128FromInt64 v) = v).
  { unfold Int128.Int128FromInt64. i128_words.
    destruct (Z.ltb_spec v 0); cbn [Int128.hi Int128.lo].
    - assert (v mod 18446744073709551616 = v + 18446744073709551616)
        by (Z.div_mod_to_equations; lia).
      split; [lia|]. case_test; lia.
    - assert (v mod 18446744073709551616 = v) by (Z.div_mod_to_equations; lia).
      split; [lia|]. case_test; lia. }
  destruct Hfrom as [Wf Ef].
  assert (His : Int128.IsInt64 i
                = (- 2 ^ 63 <=? Int128.toZ i) && (Int128.toZ i <? 2 ^ 63)).
  { unfold Int128.IsInt64. rewrite signbit_land by assumption.
    destruct i as [h l]. i128_words. cases_lia. }
  refine (conj Wf (conj Ef (conj _ (conj His (conj (Has i Hi) (conj _ _)))))).
  - rewrite Has, Ef by assumption. pow_consts. Z.div_mod_to_equations. lia.
  - intros Ht. rewrite His in Ht. apply andb_prop in Ht. destruct Ht as [H1 H2].
    apply Z.leb_le in H1. apply Z.ltb_lt in H2.
    assert (Eas : Int128.AsInt64 i = Int128.toZ i).
    { rewrite Has by assumption. pow_consts. Z.div_mod_to_equations. lia. }
    split; [exact Eas|].
    unfold Int128.MustInt64. fold (Int128.AsInt64 i).
    unfold Int128.IsInt64 in His.
    destruct (negb (Z.land (Int128.hi i) Int128.int128SignBit =? 0)) eqn:Es.
    + unfold Int128.AsInt64 in Eas. rewrite Es in Eas. rewrite Eas.
      rewrite His.
      destruct (Z.leb_spec (- 2 ^ 63) (Int128.toZ i)); [|lia].
      destruct (Z.ltb_spec (Int128.toZ i) (2 ^ 63)); [|lia]. reflexivity.
    + unfold Int128.AsInt64 in Eas. rewrite Es in Eas. rewrite Eas.
      rewrite His.
      destruct (Z.leb_spec (- 2 ^ 63) (Int128.toZ i)); [|lia].
      destruct (Z.ltb_spec (Int128.toZ i) (2 ^ 63)); [|lia]. reflexivity.
  - intros Hf. unfold Int128.MustInt64. unfold Int128.IsInt64 in Hf.
    destruct (negb (Z.land (Int128.hi i) Int128.int128SignBit =? 0));
      rewrite Hf; reflexivity.
Qed.

Lemma i128_int64_conversions_witness :
  let i := Int128.mk 0xFFFFFFFFFFFFFFFF 0xFFFFFFFFFFFFFFF9 in
  let v := -7 in
  Int128.wf (Int128.Int128FromInt64 v) /\
  Int128.toZ (Int128.Int128FromInt64 v) = v /\
  Int128.AsInt64 (Int128.Int128FromInt64 v) = v /\
  Int128.IsInt64 i = (- 2 ^ 63 <=? Int128.toZ i) && (Int128.toZ i <? 2 ^ 63) /\
  Int128.AsInt64 i = (Int128.toZ i + 2 ^ 63) mod 2 ^ 64 - 2 ^ 63 /\
  (Int128.IsInt64 i = true ->
     Int128.AsInt64 i = Int128.toZ i /\ Int128.MustInt64 i = Some (Int128.toZ i)) /\
  (Int128.IsInt64 i = false -> Int128.MustInt64 i = None).
Proof.
  apply (i128_int64_conversions (Int128.mk 0xFFFFFFFFFFFFFFFF 0xFFFFFFFFFFFFFFF9) (-7));
    unfold Int128.wf; simpl; lia.
Defined.

(** X16: the casts between the two types keep the 128 bits:
    [AsUint128] gives the number modulo [2^128] and [AsInt128] its
    two's-complement reading, each undoing the other; [IsUint128] holds
    exactly for nonnegative numbers and [IsInt128] exactly below [2^127].
    [Int128FromUint64] represents a word exactly, [Int128.IsUint64] holds
    exactly on [[0, 2^64)], where [MustUint64] returns the number, and
    [MustUint64] panics otherwise. *)
Theorem i128_u128_casts (i : Int128.t) (u : Uint128.t) (x : Z) :
  Int128.wf i -> Uint128.wf u -> 0 <= x < 2 ^ 64 ->
  Int128.IsUint128 i = (0 <=? Int128.toZ i) /\
  Uint128.toZ (Int128.AsUint128 i) = Int128.toZ i mod 2 ^ 128 /\
  Int128.AsInt128 (Int128.AsUint128 i) = i /\
  Int128.IsInt128 u = (Uint128.toZ u <? 2 ^ 127) /\
  Int128.toZ (Int128.AsInt128 u)
  = (if Int128.IsInt128 u then Uint128.toZ u else Uint128.toZ u - 2 ^ 128) /\
  Int128.AsUint128 (Int128.AsInt128 u) = u /\
  Int128.toZ (Int128.Int128FromUint64 x) = x /\
  Int128.IsUint64 i = (0 <=? Int128.toZ i) && (Int128.toZ i <? 2 ^ 64) /\
  Int128.AsUint64 i = Int128.toZ i mod 2 ^ 64 /\
  (Int128.IsUint64 i = true -> Int128.MustUint64 i = Some (Int128.toZ i)) /\
  (Int128.IsUint64 i = false -> Int128.MustUint64 i = None).
Proof.
  intros Hi Hu Hx. pose proof Hi as [Hih Hil]. pose proof Hu as [Huh Hul].
  unfold Int128.IsUint128, Int128.IsInt128, Int128.IsUint64, Int128.AsUint64,
    Int128.MustUint64, Int128.AsUint128, Int128.AsInt128, Int128.Int128FromUint64.
  rewrite !signbit_land by assumption.
  destruct i as [h l], u as [uh ul]. i128_words.
  refine (conj _ (conj _ (conj _ (conj _ (conj _ (conj _
            (conj _ (conj _ (conj _ (conj _ _)))))))))).
  - cases_lia.
  - case_test; Z.div_mod_to_equations; lia.
  - reflexivity.
  - cases_lia.
  - cases_lia.
  - reflexivity.
  - cases_lia.
  - cases_lia.
  - case_test; Z.div_mod_to_equations; lia.
  - destruct (Z.eqb_spec h 0); [|discriminate]. intros _. cbn [negb]. subst h.
    f_equal. case_test; lia.
  - destruct (Z.eqb_spec h 0); [discriminate|]. reflexivity.
Qed.

Lemma i128_u128_casts_witness :
  let i := Int128.mk 0xFFFFFFFFFFFFFFFF 3 in
  let u := Uint128.mk 0x8000000000000000 1 in
  let x := 5 in
  Int128.IsUint128 i = (0 <=? Int128.toZ i) /\
  Uint128.toZ (Int128.AsUint128 i) = Int128.toZ i mod 2 ^ 128 /\
  Int128.AsInt128 (Int128.AsUint128 i) = i /\
  Int128.IsInt128 u = (Uint128.toZ u <? 2 ^ 127) /\
  Int128.toZ (Int128.AsInt128 u)
  = (if Int128.IsInt128 u then Uint128.toZ u else Uint128.toZ u - 2 ^ 128) /\
  Int128.AsUint128 (Int128.AsInt128 u) = u /\
  Int128.toZ (Int128.Int128FromUint64 x) = x /\
  Int128.IsUint64 i = (0 <=? Int128.toZ i) && (Int128.toZ i <? 2 ^ 64) /\
  Int128.AsUint64 i = Int128.toZ i mod 2 ^ 64 /\
  (Int128.IsUint64 i = true -> Int128.MustUint64 i = Some (Int128.toZ i)) /\
  (Int128.IsUint64 i = false -> Int128.MustUint64 i = None).
Proof.
  apply (i128_u128_casts (Int128.mk 0xFFFFFFFFFFFFFFFF 3)
           (Uint128.mk 0x8000000000000000 1) 5);
    unfold Int128.wf, Uint128.wf; simpl; lia.
Defined.

(** X17: [Sign] is the sign of the number (-1, 0 or 1), [IsZero] holds
    exactly on zero, and [Sign] is -1 exactly when the value is
    [LessThan] zero. *)
Theorem i128_sign (i : Int128.t) :
  Int128.wf i ->
  Int128.Sign i = Z.sgn (Int128.toZ i) /\
  Int128.IsZero i = (Int128.toZ i =? 0) /\
  (Int128.Sign i = -1 <-> Int128.LessThan i Int128.zeroInt128 = true).
Proof.
  intros Hi. pose proof Hi as [Hh Hl].
  assert (Es : Int128.Sign i = Z.sgn (Int128.toZ i)).
  { unfold Int128.Sign, Int128.eqb, Int128.zeroInt128.
    rewrite signbit_land by assumption.
    destruct i as [h l]. i128_words.
    repeat case_test; cbn [andb]; try (exfalso; lia);
      first [ rewrite Z.sgn_pos by lia | rewrite Z.sgn_neg by lia
            | rewrite Z.sgn_null by lia ]; reflexivity. }
  refine (conj Es (conj _ _)).
  - unfold Int128.IsZero. destruct i as [h l]. i128_words. cases_lia.
  - rewrite Es. destruct (i128_sign_test i Hi) as [_ ->].
    rewrite Z.ltb_lt. split.
    + intros H. destruct (Z.sgn_spec (Int128.toZ i)) as [[? ?]|[[? ?]|[? ?]]]; lia.
    + intros H. apply Z.sgn_neg. assumption.
Qed.

Lemma i128_sign_witness :
  let i := Int128.mk 0xFFFFFFFFFFFFFFFF 3 in
  Int128.Sign i = Z.sgn (Int128.toZ i) /\
  Int128.IsZero i = (Int128.toZ i =? 0) /\
  (Int128.Sign i = -1 <-> Int128.LessThan i Int128.zeroInt128 = true).
Proof.
  apply (i128_sign (Int128.mk 0xFFFFFFFFFFFFFFFF 3)); unfold Int128.wf; simpl; lia.
Defined.

(** ** Signed addition, subtraction, increment and decrement *)

Lemma i128_toZ_AsInt128 u :
  Uint128.wf u ->
  Int128.wf (Int128.AsInt128 u) /\
  Int128.toZ (Int128.AsInt128 u) = (Uint128.toZ u + 2 ^ 127) mod 2 ^ 128 - 2 ^ 127.
Proof.
  intros Hu. assert (W : Int128.wf (Int128.AsInt128 u)) by exact Hu.
  split; [exact W|]. rewrite i128_toZ_raw by exact W. reflexivity.
Qed.

Lemma i128_AsUint128_toZ i :
  Int128.wf i ->
  (Uint128.toZ (Int128.AsUint128 i) + 2 ^ 127) mod 2 ^ 128 - 2 ^ 127 = Int128.toZ i.
Proof. intros Hi. rewrite (i128_toZ_raw i Hi). reflexivity. Qed.

Lemma swrap_mod z m :
  (z mod 2 ^ 128 + m) mod 2 ^ 128 = (z + m) mod 2 ^ 128.
Proof. apply Zplus_mod_idemp_l. Qed.

Lemma i128_Add_as_u128 a b :
  Int128.Add a b = Int128.AsInt128 (Uint128.Add (Int128.AsUint128 a) (Int128.AsUint128 b)).
Proof. reflexivity. Qed.

Lemma i128_Sub_as_u128 a b :
  Int128.Sub a b = Int128.AsInt128 (Uint128.Sub (Int128.AsUint128 a) (Int128.AsUint128 b)).
Proof. reflexivity. Qed.

Lemma i128_Mul_as_u128 a b :
  Int128.Mul a b = Int128.AsInt128 (Uint128.Mul (Int128.AsUint128 a) (Int128.AsUint128 b)).
Proof. reflexivity. Qed.

Lemma i128_Add_spec a b :
  Int128.wf a -> Int128.wf b ->
  Int128.wf (Int128.Add a b) /\
  Int128.toZ (Int128.Add a b)
  = (Int128.toZ a + Int128.toZ b + 2 ^ 127) mod 2 ^ 128 - 2 ^ 127.
Proof.
  intros Ha Hb. rewrite i128_Add_as_u128.
  destruct (u128_Add_spec (Int128.AsUint128 a) (Int128.AsUint128 b) Ha Hb) as [W E].
  destruct (i128_toZ_AsInt128 _ W) as [W' E']. split; [exact W'|].
  rewrite E', E, swrap_mod.
  rewrite <- (i128_AsUint128_toZ a Ha), <- (i128_AsUint128_toZ b Hb).
  pow_consts. Z.div_mod_to_equations. lia.
Qed.

Lemma i128_Sub_spec a b :
  Int128.wf a -> Int128.wf b ->
  Int128.wf (Int128.Sub a b) /\
  Int128.toZ (Int128.Sub a b)
  = (Int128.toZ a - Int128.toZ b + 2 ^ 127) mod 2 ^ 128 - 2 ^ 127.
Proof.
  intros Ha Hb. rewrite i128_Sub_as_u128.
  destruct (u128_Sub_spec (Int128.AsUint128 a) (Int128.AsUint128 b) Ha Hb) as [W E].
  destruct (i128_toZ_AsInt128 _ W) as [W' E']. split; [exact W'|].
  rewrite E', E, swrap_mod.
  rewrite <- (i128_AsUint128_toZ a Ha), <- (i128_AsUint128_toZ b Hb).
  pow_consts. Z.div_mod_to_equations. lia.
Qed.

Lemma i128_add_sub_inverse a b :
  Int128.wf a -> Int128.wf b ->
  Int128.Sub (Int128.Add a b) b = a /\ Int128.Add (Int128.Sub a b) b = a.
Proof.
  intros Ha Hb.
  destruct (i128_Add_spec a b Ha Hb) as [Wadd Eadd].
  destruct (i128_Sub_spec a b Ha Hb) as [Wsub Esub].
  destruct (i128_Sub_spec _ b Wadd Hb) as [W1 E1].
  destruct (i128_Add_spec _ b Wsub Hb) as [W2 E2].
  pose proof (i128_toZ_range a Ha) as Ra.
  pose proof (i128_toZ_range b Hb) as Rb.
  split.
  - apply i128_toZ_inj; auto. rewrite E1, Eadd. pow_consts.
    Z.div_mod_to_equations. lia.
  - apply i128_toZ_inj; auto. rewrite E2, Esub. pow_consts.
    Z.div_mod_to_equations. lia.
Qed.

Lemma i128_Inc_as_Add i :
  Int128.wf i -> Int128.Inc i = Int128.Add i (Int128.mk 0 1).
Proof.
  intros [Hh Hl].
  unfold Int128.Inc, Int128.Add, Geometry.Add64, Bits.Add64.
  destruct i as [h l]. cbn [Int128.hi Int128.lo] in *. unfold wrap64. pow_consts.
  case_test; f_equal; Z.div_mod_to_equations; lia.
Qed.

Lemma i128_Dec_as_Sub i :
  Int128.wf i -> Int128.Dec i = Int128.Sub i (Int128.mk 0 1).
Proof.
  intros [Hh Hl].
  unfold Int128.Dec, Int128.Sub, Geometry.Sub64, Bits.Sub64.
  destruct i as [h l]. cbn [Int128.hi Int128.lo] in *. unfold wrap64. pow_consts.
  repeat case_test; f_equal; Z.div_mod_to_equations; lia.
Qed.

(** X18: [Int128.Add] and [Int128.Sub] are addition and subtraction
    wrapped into [[-2^127, 2^127)]: exact when the result is in range, and
    inverse to each other on every pair of operands. *)
Theorem i128_add_sub_wrap (a b : Int128.t) :
  Int128.wf a -> Int128.wf b ->
  Int128.wf (Int128.Add a b) /\ Int128.wf (Int128.Sub a b) /\
  Int128.toZ (Int128.Add a b)
  = (Int128.toZ a + Int128.toZ b + 2 ^ 127) mod 2 ^ 128 - 2 ^ 127 /\
  Int128.toZ (Int128.Sub a b)
  = (Int128.toZ a - Int128.toZ b + 2 ^ 127) mod 2 ^ 128 - 2 ^ 127 /\
  (- 2 ^ 127 <= Int128.toZ a + Int128.toZ b < 2 ^ 127 ->
     Int128.toZ (Int128.Add a b) = Int128.toZ a + Int128.toZ b) /\
  (- 2 ^ 127 <= Int128.toZ a - Int128.toZ b < 2 ^ 127 ->
     Int128.toZ (Int128.Sub a b) = Int128.toZ a - Int128.toZ b) /\
  Int128.Sub (Int128.Add a b) b = a /\
  Int128.Add (Int128.Sub a b) b = a.
Proof.
  intros Ha Hb.
  destruct (i128_Add_spec a b Ha Hb) as [Wadd Eadd].
  destruct (i128_Sub_spec a b Ha Hb) as [Wsub Esub].
  destruct (i128_Sub_spec _ b Wadd Hb) as [W1 E1].
  destruct (i128_Add_spec _ b Wsub Hb) as [W2 E2].
  pose proof (i128_toZ_range a Ha) as Ra.
  pose proof (i128_toZ_range b Hb) as Rb.
  refine (conj Wadd (conj Wsub (conj Eadd (conj Esub (conj _ (conj _ _)))))).
  - intros Hr. rewrite Eadd. pow_consts. Z.div_mod_to_equations. lia.
  - intros Hr. rewrite Esub. pow_consts. Z.div_mod_to_equations. lia.
  - apply i128_add_sub_inverse; assumption.
Qed.

Lemma i128_add_sub_wrap_witness :
  let a := Int128.MaxInt128 in
  let b := Int128.mk 0 1 in
  Int128.wf (Int128.Add a b) /\ Int128.wf (Int128.Sub a b) /\
  Int128.toZ (Int128.Add a b)
  = (Int128.toZ a + Int128.toZ b + 2 ^ 127) mod 2 ^ 128 - 2 ^ 127 /\
  Int128.toZ (Int128.Sub a b)
  = (Int128.toZ a - Int128.toZ b + 2 ^ 127) mod 2 ^ 128 - 2 ^ 127 /\
  (- 2 ^ 127 <= Int128.toZ a + Int128.toZ b < 2 ^ 127 ->
     Int128.toZ (Int128.Add a b) = Int128.toZ a + Int128.toZ b) /\
  (- 2 ^ 127 <= Int128.toZ a - Int128.toZ b < 2 ^ 127 ->
     Int128.toZ (Int128.Sub a b) = Int128.toZ a - Int128.toZ b) /\
  Int128.Sub (Int128.Add a b) b = a /\
  Int128.Add (Int128.Sub a b) b = a.
Proof.
  apply (i128_add_sub_wrap Int128.MaxInt128 (Int128.mk 0 1));
    unfold Int128.wf; simpl; lia.
Defined.

(** X19: [Int128.Inc] and [Int128.Dec] are [Add] and [Sub] of one: they
    step by one, wrapping from [MaxInt128] to [MinInt128] and back, and
    are inverse to each other. *)
Theorem i128_inc_dec (i : Int128.t) :
  Int128.wf i ->
  Int128.Inc i = Int128.Add i (Int128.mk 0 1) /\
  Int128.Dec i = Int128.Sub i (Int128.mk 0 1) /\
  Int128.toZ (Int128.Inc i)
  = (if Int128.toZ i =? 2 ^ 127 - 1 then - 2 ^ 127 else Int128.toZ i + 1) /\
  Int128.toZ (Int128.Dec i)
  = (if Int128.toZ i =? - 2 ^ 127 then 2 ^ 127 - 1 else Int128.toZ i - 1) /\
  Int128.Dec (Int128.Inc i) = i /\
  Int128.Inc (Int128.Dec i) = i.
Proof.
  intros Hi.
  assert (W1 : Int128.wf (Int128.mk 0 1)) by (split; cbn; lia).
  assert (T1 : Int128.toZ (Int128.mk 0 1) = 1) by reflexivity.
  pose proof (i128_Inc_as_Add i Hi) as Einc.
  pose proof (i128_Dec_as_Sub i Hi) as Edec.
  destruct (i128_Add_spec i _ Hi W1) as [Wa Ea].
  destruct (i128_Sub_spec i _ Hi W1) as [Ws Es].
  pose proof (i128_toZ_range i Hi) as Ri.
  rewrite T1 in Ea, Es.
  destruct (i128_add_sub_inverse i _ Hi W1) as [I1 I2].
  refine (conj Einc (conj Edec (conj _ (conj _ (conj _ _))))).
  - rewrite Einc, Ea. pow_consts. case_test; Z.div_mod_to_equations; lia.
  - rewrite Edec, Es. pow_consts. case_test; Z.div_mod_to_equations; lia.
  - rewrite Einc, (i128_Dec_as_Sub _ Wa). exact I1.
  - rewrite Edec, (i128_Inc_as_Add _ Ws). exact I2.
Qed.

Lemma i128_inc_dec_witness :
  let i := Int128.MaxInt128 in
  Int128.Inc i = Int128.Add i (Int128.mk 0 1) /\
  Int128.Dec i = Int128.Sub i (Int128.mk 0 1) /\
  Int128.toZ (Int128.Inc i)
  = (if Int128.toZ i =? 2 ^ 127 - 1 then - 2 ^ 127 else Int128.toZ i + 1) /\
  Int128.toZ (Int128.Dec i)
  = (if Int128.toZ i =? - 2 ^ 127 then 2 ^ 127 - 1 else Int128.toZ i - 1) /\
  Int128.Dec (Int128.Inc i) = i /\
  Int128.Inc (Int128.Dec i) = i.
Proof.
  apply (i128_inc_dec Int128.MaxInt128); unfold Int128.wf; simpl; lia.
Defined.

(** ** Absolute value, signed ordering, multiplication, difference *)

(** X20: [AbsUint128] is the absolute value of the number as an unsigned
    value, for every input; [Abs] is [Neg] on negative inputs and the
    identity otherwise, so it is the absolute value except on
    [MinInt128], which it returns unchanged; the two agree bit for bit. *)
Theorem i128_abs (i : Int128.t) :
  Int128.wf i ->
  Uint128.wf (Int128.AbsUint128 i) /\
  Uint128.toZ (Int128.AbsUint128 i) = Z.abs (Int128.toZ i) /\
  Int128.wf (Int128.Abs i) /\
  Int128.Abs i = (if Int128.toZ i <? 0 then Int128.Neg i else i) /\
  (i <> Int128.MinInt128 -> Int128.toZ (Int128.Abs i) = Z.abs (Int128.toZ i)) /\
  Int128.Abs Int128.MinInt128 = Int128.MinInt128 /\
  Int128.AsUint128 (Int128.Abs i) = Int128.AbsUint128 i.
Proof.
  intros Hi. pose proof Hi as [Hh Hl].
  pose proof (i128_toZ_range i Hi) as Ri.
  assert (Eabs : Int128.Abs i = (if Int128.toZ i <? 0 then Int128.Neg i else i)).
  { unfold Int128.Abs, Int128.Neg, Int128.eqb, Int128.MinInt128, Int128.zeroInt128.
    rewrite signbit_land by assumption.
    destruct i as [h l]. i128_words.
    cbn [Int128.hi Int128.lo].
    repeat (case_test; cbn [negb andb orb Int128.hi Int128.lo]);
      try reflexivity; try (exfalso; lia);
      try (apply i128_eq; cbn [Int128.hi Int128.lo]; Z.div_mod_to_equations; lia). }
  assert (Eau : Int128.AsUint128 (Int128.Abs i) = Int128.AbsUint128 i).
  { unfold Int128.Abs, Int128.AbsUint128, Int128.AsUint128, Int128.eqb,
      Int128.MinInt128, Int128.minInt128AsUint128.
    rewrite signbit_land by assumption.
    destruct i as [h l]. i128_words.
    cbn [Int128.hi Int128.lo].
    repeat (case_test; cbn [negb andb orb Int128.hi Int128.lo]);
      try reflexivity; try (exfalso; lia);
      try (apply u128_eq; cbn [Uint128.hi Uint128.lo]; Z.div_mod_to_equations; lia). }
  destruct (i128_magnitude i Hi) as [Wm Em]. cbv zeta in Wm, Em.
  rewrite <- Eabs in Wm, Em. rewrite Eau in Wm, Em.
  assert (Wabs : Int128.wf (Int128.Abs i)).
  { rewrite Eabs. destruct (Int128.toZ i <? 0); [apply i128_Neg_spec|]; assumption. }
  refine (conj Wm (conj Em (conj Wabs (conj Eabs (conj _ (conj _ Eau)))))).
  - intros Hne. rewrite Eabs. destruct (Z.ltb_spec (Int128.toZ i) 0).
    + rewrite i128_Neg_toZ by assumption. lia.
    + lia.
  - reflexivity.
Qed.

Lemma i128_abs_witness :
  let i := Int128.mk 0xFFFFFFFFFFFFFFFF 0xFFFFFFFFFFFFFFF9 in
  Uint128.wf (Int128.AbsUint128 i) /\
  Uint128.toZ (Int128.AbsUint128 i) = Z.abs (Int128.toZ i) /\
  Int128.wf (Int128.Abs i) /\
  Int128.Abs i = (if Int128.toZ i <? 0 then Int128.Neg i else i) /\
  (i <> Int128.MinInt128 -> Int128.toZ (Int128.Abs i) = Z.abs (Int128.toZ i)) /\
  Int128.Abs Int128.MinInt128 = Int128.MinInt128 /\
  Int128.AsUint128 (Int128.Abs i) = Int128.AbsUint128 i.
Proof.
  apply (i128_abs (Int128.mk 0xFFFFFFFFFFFFFFFF 0xFFFFFFFFFFFFFFF9));
    unfold Int128.wf; simpl; lia.
Defined.

Lemma i128_toZ_hi i :
  Int128.wf i ->
  Int128.toZ i
  = if Int128.hi i <? 2 ^ 63 then Int128.hi i * 2 ^ 64 + Int128.lo i
    else Int128.hi i * 2 ^ 64 + Int128.lo i - 2 ^ 128.
Proof.
  intros [Hh Hl]. unfold Int128.toZ. pow_consts. repeat case_test; lia.
Qed.

Lemma i128_order_spec (a b : Int128.t) :
  Int128.wf a -> Int128.wf b ->
  Int128.Cmp a b = Z.sgn (Int128.toZ a - Int128.toZ b) /\
  Int128.Equal a b = (Int128.toZ a =? Int128.toZ b) /\
  Int128.GreaterThan a b = (Int128.toZ b <? Int128.toZ a) /\
  Int128.GreaterOrEqualTo a b = (Int128.toZ b <=? Int128.toZ a) /\
  Int128.LessThan a b = (Int128.toZ a <? Int128.toZ b) /\
  Int128.LessOrEqualTo a b = (Int128.toZ a <=? Int128.toZ b).
Proof.
  intros Ha Hb. pose proof Ha as [Hah Hal]. pose proof Hb as [Hbh Hbl].
  unfold Int128.Cmp, Int128.Equal, Int128.GreaterThan, Int128.GreaterOrEqualTo,
    Int128.LessThan, Int128.LessOrEqualTo.
  rewrite !signbit_land by assumption.
  rewrite (i128_toZ_hi a Ha), (i128_toZ_hi b Hb).
  destruct a as [ah al], b as [bh bl].
  cbn [Int128.hi Int128.lo] in *. pow_consts.
  destruct (Z.ltb_spec ah 9223372036854775808);
    destruct (Z.ltb_spec bh 9223372036854775808);
    cbn [Z.eqb Pos.eqb];
    (refine (conj _ (conj _ (conj _ (conj _ (conj _ _)))));
     [ repeat (case_test; cbn [andb orb negb]); try (exfalso; lia);
       first [ rewrite Z.sgn_pos by lia | rewrite Z.sgn_neg by lia
             | rewrite Z.sgn_null by lia ]; reflexivity
     | cases_lia .. ]).
Qed.

Lemma i128_promote n :
  - 2 ^ 63 <= n < 2 ^ 63 ->
  Int128.wf (Int128.Int128FromInt64 n) /\ Int128.toZ (Int128.Int128FromInt64 n) = n.
Proof.
  intros Hn. unfold Int128.Int128FromInt64. i128_words.
  destruct (Z.ltb_spec n 0); cbn [Int128.hi Int128.lo].
  - assert (n mod 18446744073709551616 = n + 18446744073709551616)
      by (Z.div_mod_to_equations; lia).
    split; [lia|]. case_test; lia.
  - assert (n mod 18446744073709551616 = n) by (Z.div_mod_to_equations; lia).
    split; [lia|]. case_test; lia.
Qed.

Lemma i128_order64_spec (i : Int128.t) (n : Z) :
  Int128.wf i -> - 2 ^ 63 <= n < 2 ^ 63 ->
  Int128.Equal64 i n = (Int128.toZ i =? n) /\
  Int128.GreaterThan64 i n = (n <? Int128.toZ i) /\
  Int128.GreaterOrEqualTo64 i n = (n <=? Int128.toZ i) /\
  Int128.LessThan64 i n = (Int128.toZ i <? n) /\
  Int128.LessOrEqualTo64 i n = (Int128.toZ i <=? n) /\
  Int128.Cmp64 i n = Z.sgn (Int128.toZ i - n).
Proof.
  intros Hi Hn.
  destruct (i128_promote n Hn) as [Wn En].
  assert (E1 : Int128.Equal64 i n = Int128.Equal i (Int128.Int128FromInt64 n))
    by reflexivity.
  assert (E2 : Int128.GreaterThan64 i n
               = Int128.GreaterThan i (Int128.Int128FromInt64 n)) by reflexivity.
  assert (E3 : Int128.GreaterOrEqualTo64 i n
               = Int128.GreaterOrEqualTo i (Int128.Int128FromInt64 n)) by reflexivity.
  assert (E4 : Int128.LessThan64 i n
               = Int128.LessThan i (Int128.Int128FromInt64 n)) by reflexivity.
  assert (E5 : Int128.LessOrEqualTo64 i n
               = Int128.LessOrEqualTo i (Int128.Int128FromInt64 n)) by reflexivity.
  assert (E6 : Int128.Cmp64 i n = Int128.Cmp i (Int128.Int128FromInt64 n))
    by reflexivity.
  destruct (i128_order_spec i _ Hi Wn) as (C & Q & G & GE & L & LE).
  rewrite En in C, Q, G, GE, L, LE.
  rewrite E1, E2, E3, E4, E5, E6.
  repeat split; assumption.
Qed.

(** X21: on [Int128], [Cmp] is the sign of the difference of the two
    numbers, and [Equal], [GreaterThan], [GreaterOrEqualTo], [LessThan] and
    [LessOrEqualTo] decide the corresponding relations of the signed
    order; their [int64] variants, and [Cmp64], decide the same relations
    against the [int64]. *)
Theorem i128_order_predicates (a b : Int128.t) (n : Z) :
  Int128.wf a -> Int128.wf b -> - 2 ^ 63 <= n < 2 ^ 63 ->
  Int128.Cmp a b = Z.sgn (Int128.toZ a - Int128.toZ b) /\
  Int128.Equal a b = (Int128.toZ a =? Int128.toZ b) /\
  Int128.GreaterThan a b = (Int128.toZ b <? Int128.toZ a) /\
  Int128.GreaterOrEqualTo a b = (Int128.toZ b <=? Int128.toZ a) /\
  Int128.LessThan a b = (Int128.toZ a <? Int128.toZ b) /\
  Int128.LessOrEqualTo a b = (Int128.toZ a <=? Int128.toZ b) /\
  Int128.Cmp64 a n = Z.sgn (Int128.toZ a - n) /\
  Int128.Equal64 a n = (Int128.toZ a =? n) /\
  Int128.GreaterThan64 a n = (n <? Int128.toZ a) /\
  Int128.GreaterOrEqualTo64 a n = (n <=? Int128.toZ a) /\
  Int128.LessThan64 a n = (Int128.toZ a <? n) /\
  Int128.LessOrEqualTo64 a n = (Int128.toZ a <=? n).
Proof.
  intros Ha Hb Hn.
  destruct (i128_order_spec a b Ha Hb) as (C & E & G & GE & L & LE).
  destruct (i128_order64_spec a n Ha Hn) as (E6 & G6 & GE6 & L6 & LE6 & C6).
  refine (conj C (conj E (conj G (conj GE (conj L (conj LE
            (conj C6 (conj E6 (conj G6 (conj GE6 (conj L6 LE6))))))))))).
Qed.

Lemma i128_order_predicates_witness :
  let a := Int128.mk 0xFFFFFFFFFFFFFFFF 3 in
  let b := Int128.mk 0 2 in
  let n := -5 in
  Int128.Cmp a b = Z.sgn (Int128.toZ a - Int128.toZ b) /\
  Int128.Equal a b = (Int128.toZ a =? Int128.toZ b) /\
  Int128.GreaterThan a b = (Int128.toZ b <? Int128.toZ a) /\
  Int128.GreaterOrEqualTo a b = (Int128.toZ b <=? Int128.toZ a) /\
  Int128.LessThan a b = (Int128.toZ a <? Int128.toZ b) /\
  Int128.LessOrEqualTo a b = (Int128.toZ a <=? Int128.toZ b) /\
  Int128.Cmp64 a n = Z.sgn (Int128.toZ a - n) /\
  Int128.Equal64 a n = (Int128.toZ a =? n) /\
  Int128.GreaterThan64 a n = (n <? Int128.toZ a) /\
  Int128.GreaterOrEqualTo64 a n = (n <=? Int128.toZ a) /\
  Int128.LessThan64 a n = (Int128.toZ a <? n) /\
  Int128.LessOrEqualTo64 a n = (Int128.toZ a <=? n).
Proof.
  apply (i128_order_predicates (Int128.mk 0xFFFFFFFFFFFFFFFF 3) (Int128.mk 0 2) (-5));
    unfold Int128.wf; simpl; lia.
Defined.

Lemma i128_Mul_spec a b :
  Int128.wf a -> Int128.wf b ->
  Int128.wf (Int128.Mul a b) /\
  Int128.toZ (Int128.Mul a b)
  = (Int128.toZ a * Int128.toZ b + 2 ^ 127) mod 2 ^ 128 - 2 ^ 127.
Proof.
  intros Ha Hb. rewrite i128_Mul_as_u128.
  destruct (u128_Mul_spec (Int128.AsUint128 a) (Int128.AsUint128 b) Ha Hb) as [W E].
  destruct (i128_toZ_AsInt128 _ W) as [W' E']. split; [exact W'|].
  rewrite E', E, swrap_mod.
  rewrite <- (i128_AsUint128_toZ a Ha), <- (i128_AsUint128_toZ b Hb).
  set (A := Uint128.toZ (Int128.AsUint128 a)).
  set (B := Uint128.toZ (Int128.AsUint128 b)).
  assert (Hk : forall X, exists k, (X + 2 ^ 127) mod 2 ^ 128 - 2 ^ 127 = X + k * 2 ^ 128).
  { intros X. exists (- ((X + 2 ^ 127) / 2 ^ 128)).
    pose proof (Z.div_mod (X + 2 ^ 127) (2 ^ 128) ltac:(lia)). lia. }
  destruct (Hk A) as [k ->]. destruct (Hk B) as [l ->].
  f_equal.
  replace ((A + k * 2 ^ 128) * (B + l * 2 ^ 128) + 2 ^ 127)
    with (A * B + 2 ^ 127 + (k * B + l * A + k * l * 2 ^ 128) * 2 ^ 128) by ring.
  rewrite Z.mod_add by lia. reflexivity.
Qed.

(** X22: [Int128.Mul] is multiplication wrapped into [[-2^127, 2^127)]:
    exact when the product is in range, and commutative; [Mul64] is [Mul]
    by the [int64] promoted to 128 bits. *)
Theorem i128_mul_wraps (a b : Int128.t) (n : Z) :
  Int128.wf a -> Int128.wf b -> - 2 ^ 63 <= n < 2 ^ 63 ->
  Int128.wf (Int128.Mul a b) /\
  Int128.toZ (Int128.Mul a b)
  = (Int128.toZ a * Int128.toZ b + 2 ^ 127) mod 2 ^ 128 - 2 ^ 127 /\
  (- 2 ^ 127 <= Int128.toZ a * Int128.toZ b < 2 ^ 127 ->
     Int128.toZ (Int128.Mul a b) = Int128.toZ a * Int128.toZ b) /\
  Int128.Mul a b = Int128.Mul b a /\
  Int128.Mul64 a n = Int128.Mul a (Int128.Int128FromInt64 n) /\
  Int128.toZ (Int128.Mul64 a n)
  = (Int128.toZ a * n + 2 ^ 127) mod 2 ^ 128 - 2 ^ 127.
Proof.
  intros Ha Hb Hn.
  destruct (i128_Mul_spec a b Ha Hb) as [Wab Eab].
  destruct (i128_Mul_spec b a Hb Ha) as [Wba Eba].
  destruct (i128_promote n Hn) as [Wn En].
  destruct (i128_Mul_spec a _ Ha Wn) as [Wan Ean].
  assert (E64 : Int128.Mul64 a n = Int128.Mul a (Int128.Int128FromInt64 n))
    by reflexivity.
  refine (conj Wab (conj Eab (conj _ (conj _ (conj E64 _))))).
  - intros Hr. rewrite Eab. pow_consts. Z.div_mod_to_equations. lia.
  - apply i128_toZ_inj; auto. rewrite Eab, Eba. do 3 f_equal. lia.
  - rewrite E64, Ean, En. reflexivity.
Qed.

Lemma i128_mul_wraps_witness :
  let a := Int128.mk 0xFFFFFFFFFFFFFFFF 0xFFFFFFFFFFFFFFF9 in
  let b := Int128.mk 0 3 in
  let n := -2 in
  Int128.wf (Int128.Mul a b) /\
  Int128.toZ (Int128.Mul a b)
  = (Int128.toZ a * Int128.toZ b + 2 ^ 127) mod 2 ^ 128 - 2 ^ 127 /\
  (- 2 ^ 127 <= Int128.toZ a * Int128.toZ b < 2 ^ 127 ->
     Int128.toZ (Int128.Mul a b) = Int128.toZ a * Int128.toZ b) /\
  Int128.Mul a b = Int128.Mul b a /\
  Int128.Mul64 a n = Int128.Mul a (Int128.Int128FromInt64 n) /\
  Int128.toZ (Int128.Mul64 a n)
  = (Int128.toZ a * n + 2 ^ 127) mod 2 ^ 128 - 2 ^ 127.
Proof.
  apply (i128_mul_wraps (Int128.mk 0xFFFFFFFFFFFFFFFF 0xFFFFFFFFFFFFFFF9)
           (Int128.mk 0 3) (-2));
    unfold Int128.wf; simpl; lia.
Defined.

(** X23: [DifferenceInt128] orders its operands by their bit patterns
    read as unsigned words.  For operands of the same sign the result is
    their absolute difference; for operands of opposite sign it subtracts
    the nonnegative one from the negative one, so the result is minus the
    absolute difference whenever that fits. *)
Theorem i128_difference (a b : Int128.t) :
  Int128.wf a -> Int128.wf b ->
  Int128.wf (Int128.DifferenceInt128 a b) /\
  ((0 <= Int128.toZ a /\ 0 <= Int128.toZ b) \/
   (Int128.toZ a < 0 /\ Int128.toZ b < 0) ->
     Int128.toZ (Int128.DifferenceInt128 a b)
     = Z.abs (Int128.toZ a - Int128.toZ b)) /\
  (Int128.toZ a < 0 <= Int128.toZ b ->
     Int128.DifferenceInt128 a b = Int128.Sub a b /\
     (Int128.toZ b - Int128.toZ a <= 2 ^ 127 ->
        Int128.toZ (Int128.DifferenceInt128 a b)
        = - Z.abs (Int128.toZ a - Int128.toZ b))) /\
  (Int128.toZ b < 0 <= Int128.toZ a ->
     Int128.DifferenceInt128 a b = Int128.Sub b a /\
     (Int128.toZ a - Int128.toZ b <= 2 ^ 127 ->
        Int128.toZ (Int128.DifferenceInt128 a b)
        = - Z.abs (Int128.toZ a - Int128.toZ b))).
Proof.
  intros Ha Hb. pose proof Ha as [Hah Hal]. pose proof Hb as [Hbh Hbl].
  destruct (i128_Sub_spec a b Ha Hb) as [Wab Eab].
  destruct (i128_Sub_spec b a Hb Ha) as [Wba Eba].
  pose proof (i128_toZ_range a Ha) as Ra. pose proof (i128_toZ_range b Hb) as Rb.
  assert (Wz : Int128.wf (Int128.mk 0 0)) by (split; cbn; lia).
  assert (Tz : Int128.toZ (Int128.mk 0 0) = 0) by reflexivity.
  assert (Ta : Int128.toZ a
               = if Int128.hi a * 2 ^ 64 + Int128.lo a <? 2 ^ 127
                 then Int128.hi a * 2 ^ 64 + Int128.lo a
                 else Int128.hi a * 2 ^ 64 + Int128.lo a - 2 ^ 128) by reflexivity.
  assert (Tb : Int128.toZ b
               = if Int128.hi b * 2 ^ 64 + Int128.lo b <? 2 ^ 127
                 then Int128.hi b * 2 ^ 64 + Int128.lo b
                 else Int128.hi b * 2 ^ 64 + Int128.lo b - 2 ^ 128) by reflexivity.
  unfold Int128.DifferenceInt128.
  pow_consts.
  destruct (Z.ltb_spec (Int128.hi a * 18446744073709551616 + Int128.lo a)
              170141183460469231731687303715884105728);
  destruct (Z.ltb_spec (Int128.hi b * 18446744073709551616 + Int128.lo b)
              170141183460469231731687303715884105728);
  (destruct (Z.ltb_spec (Int128.hi b) (Int128.hi a));
    [|destruct (Z.ltb_spec (Int128.hi a) (Int128.hi b));
      [|destruct (Z.ltb_spec (Int128.lo b) (Int128.lo a));
        [|destruct (Z.ltb_spec (Int128.lo a) (Int128.lo b))]]]);
  try (exfalso; lia);
  (refine (conj _ (conj _ (conj _ _))); [assumption | | | ]);
  try (intros; exfalso; lia);
  try (intros _; rewrite ?Eab, ?Eba, ?Tz; Z.div_mod_to_equations; lia);
  try (intros _; split; [reflexivity|]; intros; rewrite ?Eab, ?Eba;
       Z.div_mod_to_equations; lia).
Qed.

Lemma i128_difference_witness :
  let a := Int128.mk 0xFFFFFFFFFFFFFFFF 0xFFFFFFFFFFFFFFFF in
  let b := Int128.mk 0 1 in
  Int128.wf (Int128.DifferenceInt128 a b) /\
  ((0 <= Int128.toZ a /\ 0 <= Int128.toZ b) \/
   (Int128.toZ a < 0 /\ Int128.toZ b < 0) ->
     Int128.toZ (Int128.DifferenceInt128 a b)
     = Z.abs (Int128.toZ a - Int128.toZ b)) /\
  (Int128.toZ a < 0 <= Int128.toZ b ->
     Int128.DifferenceInt128 a b = Int128.Sub a b /\
     (Int128.toZ b - Int128.toZ a <= 2 ^ 127 ->
        Int128.toZ (Int128.DifferenceInt128 a b)
        = - Z.abs (Int128.toZ a - Int128.toZ b))) /\
  (Int128.toZ b < 0 <= Int128.toZ a ->
     Int128.DifferenceInt128 a b = Int128.Sub b a /\
     (Int128.toZ a - Int128.toZ b <= 2 ^ 127 ->
        Int128.toZ (Int128.DifferenceInt128 a b)
        = - Z.abs (Int128.toZ a - Int128.toZ b))).
Proof.
  apply (i128_difference (Int128.mk 0xFFFFFFFFFFFFFFFF 0xFFFFFFFFFFFFFFFF)
           (Int128.mk 0 1));
    unfold Int128.wf; simpl; lia.
Defined.

(** ** Signed quotient and remainder methods *)

(** X30: for every nonzero divisor, the separately written [Int128.Quo]
    returns the quotient that [QuoRem] returns and [Rem] its remainder,
    and [Quo64] and [Rem64] return the two components of [QuoRem64]; the
    remainder is that of truncated division, and so is the quotient
    except for [MinInt128] divided by -1. *)
Theorem i128_quo_rem_components (a b : Int128.t) (n : Z) :
  Int128.wf a -> Int128.wf b -> Int128.toZ b <> 0 ->
  - 2 ^ 63 <= n < 2 ^ 63 -> n <> 0 ->
  (exists q r,
     Int128.QuoRem a b = Some (q, r) /\
     Int128.Quo a b = Some q /\ Int128.Rem a b = Some r /\
     Int128.toZ r = Z.rem (Int128.toZ a) (Int128.toZ b) /\
     (~ (Int128.toZ a = - 2 ^ 127 /\ Int128.toZ b = -1) ->
        Int128.toZ q = Z.quot (Int128.toZ a) (Int128.toZ b))) /\
  (exists q r,
     Int128.QuoRem64 a n = Some (q, r) /\
     Int128.Quo64 a n = Some q /\ Int128.Rem64 a n = Some r /\
     Int128.toZ r = Z.rem (Int128.toZ a) n /\
     (~ (Int128.toZ a = - 2 ^ 127 /\ n = -1) ->
        Int128.toZ q = Z.quot (Int128.toZ a) n)).
Proof.
  intros Ha Hb Hnz Hn Hn0. split.
  - destruct (i128_QuoRem_spec a b Ha Hb Hnz) as (q & r & E & _ & _ & Er & _ & Eq & EQ).
    exists q, r. refine (conj E (conj EQ (conj _ (conj Er Eq)))).
    unfold Int128.Rem. rewrite E. reflexivity.
  - destruct (i128_QuoRem64_spec a n Ha Hn Hn0)
      as (q & r & E & _ & _ & Er & _ & Eq & EQ & ER).
    exists q, r. exact (conj E (conj EQ (conj ER (conj Er Eq)))).
Qed.

Lemma i128_quo_rem_components_witness :
  let a := Int128.mk 0xFFFFFFFFFFFFFFFF 0xFFFFFFFFFFFFFFF9 in
  let b := Int128.mk 0 2 in
  let n := -3 in
  (exists q r,
     Int128.QuoRem a b = Some (q, r) /\
     Int128.Quo a b = Some q /\ Int128.Rem a b = Some r /\
     Int128.toZ r = Z.rem (Int128.toZ a) (Int128.toZ b) /\
     (~ (Int128.toZ a = - 2 ^ 127 /\ Int128.toZ b = -1) ->
        Int128.toZ q = Z.quot (Int128.toZ a) (Int128.toZ b))) /\
  (exists q r,
     Int128.QuoRem64 a n = Some (q, r) /\
     Int128.Quo64 a n = Some q /\ Int128.Rem64 a n = Some r /\
     Int128.toZ r = Z.rem (Int128.toZ a) n /\
     (~ (Int128.toZ a = - 2 ^ 127 /\ n = -1) ->
        Int128.toZ q = Z.quot (Int128.toZ a) n)).
Proof.
  apply (i128_quo_rem_components (Int128.mk 0xFFFFFFFFFFFFFFFF 0xFFFFFFFFFFFFFFF9)
           (Int128.mk 0 2) (-3)).
  - unfold Int128.wf; simpl; lia.
  - unfold Int128.wf; simpl; lia.
  - vm_compute. discriminate.
  - lia.
  - lia.
Defined.

(** ** Big integers, decimal text and scanning *)

Lemma parse_digits_acc d : forall acc,
  parse_digits (NilEmpty.string_of_uint d) (Zpos acc)
  = Some (Zpos (Pos.of_uint_acc d acc)).
Proof.
  induction d; intros acc;
    cbn [NilEmpty.string_of_uint parse_digits Pos.of_uint_acc];
    try reflexivity;
    match goal with
    | |- context [digit_of ?c] =>
      let v := eval vm_compute in (digit_of c) in change (digit_of c) with v
    end;
    cbv iota; rewrite <- IHd; f_equal; lia.
Qed.

Lemma parse_digits_zero d :
  parse_digits (NilEmpty.string_of_uint d) 0 = Some (Z.of_N (Pos.of_uint d)).
Proof.
  induction d;
    cbn [NilEmpty.string_of_uint parse_digits Pos.of_uint];
    try reflexivity;
    match goal with
    | |- context [digit_of ?c] =>
      let v := eval vm_compute in (digit_of c) in change (digit_of c) with v
    end;
    cbv iota; [exact IHd | apply parse_digits_acc ..].
Qed.

Lemma SetString10_uint d :
  d <> Decimal.Nil ->
  SetString10 (NilEmpty.string_of_uint d) = Some (Z.of_N (Pos.of_uint d)) /\
  SetString10 (String.String "-" (NilEmpty.string_of_uint d))
  = Some (- Z.of_N (Pos.of_uint d)).
Proof.
  intros Hd. pose proof (parse_digits_zero d) as Hp.
  destruct d; [contradiction| ..];
    cbn [NilEmpty.string_of_uint] in *;
    unfold SetString10; cbv beta iota; rewrite Hp; split; reflexivity.
Qed.

Lemma SetString10_BigString v : SetString10 (BigString v) = Some v.
Proof.
  unfold BigString. destruct v as [|p|p]; [reflexivity| |].
  - cbn [Z.to_int NilZero.string_of_int]. unfold NilZero.string_of_uint.
    pose proof (DecimalPos.Unsigned.to_uint_nonnil p) as Hn.
    destruct (SetString10_uint _ Hn) as [E _].
    rewrite DecimalPos.Unsigned.of_to in E.
    destruct (Pos.to_uint p); [contradiction | exact E ..].
  - cbn [Z.to_int NilZero.string_of_int]. unfold NilZero.string_of_uint.
    pose proof (DecimalPos.Unsigned.to_uint_nonnil p) as Hn.
    destruct (SetString10_uint _ Hn) as [_ E].
    rewrite DecimalPos.Unsigned.of_to in E.
    destruct (Pos.to_uint p); [contradiction | exact E ..].
Qed.

Lemma u128_ofZ_wf v : Uint128.wf (Uint128.ofZ v).
Proof. split; apply wrap64_range. Qed.

Lemma u128_ofZ_of_toZ u : Uint128.wf u -> Uint128.ofZ (Uint128.toZ u) = u.
Proof.
  intros Hu. apply u128_toZ_inj; [apply u128_ofZ_wf | assumption |].
  apply u128_ofZ_toZ. apply u128_toZ_range. assumption.
Qed.

(** X24: [Uint128FromBigInt] returns the number itself with [inRange]
    set on [[0, 2^128)], zero without [inRange] on a negative number and
    [MaxUint128] without [inRange] from [2^128] on;
    [MustUint128FromBigInt] panics exactly outside the range; [AsBigInt]
    is the number, and converting it back returns the value. *)
Theorem u128_from_bigint (v : Z) (u : Uint128.t) :
  Uint128.wf u ->
  (v < 0 -> Uint128.Uint128FromBigInt v = (Uint128.zeroUint128, false)) /\
  (2 ^ 128 <= v -> Uint128.Uint128FromBigInt v = (Uint128.MaxUint128, false)) /\
  (0 <= v < 2 ^ 128 ->
     exists w, Uint128.Uint128FromBigInt v = (w, true) /\
               Uint128.wf w /\ Uint128.toZ w = v) /\
  (Uint128.MustUint128FromBigInt v = None <-> v < 0 \/ 2 ^ 128 <= v) /\
  Uint128.AsBigInt u = Uint128.toZ u /\
  Uint128.Uint128FromBigInt (Uint128.AsBigInt u) = (u, true) /\
  Uint128.MustUint128FromBigInt (Uint128.AsBigInt u) = Some u.
Proof.
  intros Hu. pose proof (u128_toZ_range u Hu) as Ru.
  pose proof (Uint128FromBigInt_spec v) as S.
  assert (Eu : Uint128.Uint128FromBigInt (Uint128.AsBigInt u) = (u, true)).
  { rewrite u128_AsBigInt by assumption. rewrite Uint128FromBigInt_spec.
    destruct (Z.ltb_spec (Uint128.toZ u) 0); [lia|].
    destruct (Z.ltb_spec (Uint128.toZ u) (2 ^ 128)); [|lia].
    rewrite u128_ofZ_of_toZ by assumption. reflexivity. }
  refine (conj _ (conj _ (conj _ (conj _ (conj _ (conj Eu _)))))).
  - intros H. rewrite S. destruct (Z.ltb_spec v 0); [reflexivity|lia].
  - intros H. rewrite S. destruct (Z.ltb_spec v 0); [lia|].
    destruct (Z.ltb_spec v (2 ^ 128)); [lia|reflexivity].
  - intros H. rewrite S. destruct (Z.ltb_spec v 0); [lia|].
    destruct (Z.ltb_spec v (2 ^ 128)); [|lia].
    eexists; split; [reflexivity|]. split; [apply u128_ofZ_wf | apply u128_ofZ_toZ; lia].
  - unfold Uint128.MustUint128FromBigInt. rewrite S.
    destruct (Z.ltb_spec v 0); [split; [intros _; lia | reflexivity]|].
    destruct (Z.ltb_spec v (2 ^ 128)); cbn [negb].
    + split; [discriminate | lia].
    + split; [intros _; lia | reflexivity].
  - apply u128_AsBigInt. assumption.
  - unfold Uint128.MustUint128FromBigInt. rewrite Eu. reflexivity.
Qed.

Lemma u128_from_bigint_witness :
  let v := 2 ^ 100 in
  let u := Uint128.mk 7 9 in
  (v < 0 -> Uint128.Uint128FromBigInt v = (Uint128.zeroUint128, false)) /\
  (2 ^ 128 <= v -> Uint128.Uint128FromBigInt v = (Uint128.MaxUint128, false)) /\
  (0 <= v < 2 ^ 128 ->
     exists w, Uint128.Uint128FromBigInt v = (w, true) /\
               Uint128.wf w /\ Uint128.toZ w = v) /\
  (Uint128.MustUint128FromBigInt v = None <-> v < 0 \/ 2 ^ 128 <= v) /\
  Uint128.AsBigInt u = Uint128.toZ u /\
  Uint128.Uint128FromBigInt (Uint128.AsBigInt u) = (u, true) /\
  Uint128.MustUint128FromBigInt (Uint128.AsBigInt u) = Some u.
Proof.
  apply (u128_from_bigint (2 ^ 100) (Uint128.mk 7 9)); unfold Uint128.wf; simpl; lia.
Defined.

Lemma u128_String_decimal u :
  Uint128.wf u -> Uint128.String u = BigString (Uint128.toZ u).
Proof.
  intros Hu. pose proof Hu as [Hh Hl]. unfold Uint128.String.
  destruct (Z.eqb_spec (Uint128.lo u) 0) as [El|Nl];
    destruct (Z.eqb_spec (Uint128.hi u) 0) as [Eh|Nh]; cbn [andb].
  - unfold Uint128.toZ. rewrite El, Eh. reflexivity.
  - rewrite u128_AsBigInt by assumption. reflexivity.
  - unfold Uint128.toZ. rewrite Eh. reflexivity.
  - rewrite u128_AsBigInt by assumption. reflexivity.
Qed.

Lemma unquote_quoted s :
  String.get (String.length (Uint128.quoted s) - 1) (Uint128.quoted s)
  = Some Uint128.quote /\
  (String.length (Uint128.quoted s) <? 2)%nat = false /\
  Uint128.strip_ends (Uint128.quoted s) = s.
Proof.
  assert (L : String.length (Uint128.quoted s) = S (S (String.length s))).
  { unfold Uint128.quoted. cbn [String.length]. f_equal.
    induction s as [|c s IH]; cbn [String.append String.length]; [reflexivity|].
    rewrite IH. reflexivity. }
  unfold Uint128.strip_ends. rewrite L.
  replace (S (S (String.length s)) - 1)%nat with (S (String.length s)) by lia.
  replace (S (S (String.length s)) - 2)%nat with (String.length s) by lia.
  unfold Uint128.quoted. clear L.
  refine (conj _ (conj _ _)).
  - cbn [String.get].
    induction s as [|c s IH]; cbn [String.append String.length String.get];
      [reflexivity | exact IH].
  - reflexivity.
  - cbn [substring].
    induction s as [|c s IH]; cbn [String.append String.length substring];
      [reflexivity | rewrite IH; reflexivity].
Qed.

Lemma u128_decode_spec s v :
  SetString10 s = Some v ->
  Uint128.Uint128FromString s
  = Some (if v <? 0 then (Uint128.zeroUint128, false)
          else if v <? 2 ^ 128 then (Uint128.ofZ v, true)
          else (Uint128.MaxUint128, false)).
Proof.
  intros Hs. unfold Uint128.Uint128FromString. rewrite Hs, Uint128FromBigInt_spec.
  reflexivity.
Qed.

(** X25: the text of a [Uint128] decodes to the same value: [String]
    parses as the number, and [UnmarshalText] after [MarshalText],
    [UnmarshalJSON] after [MarshalJSON] (and after the unquoted text),
    [MustUint128FromString] and [Scan] all return the value. *)
Theorem u128_text_round_trip (u : Uint128.t) :
  Uint128.wf u ->
  SetString10 (Uint128.String u) = Some (Uint128.toZ u) /\
  Uint128.Uint128FromString (Uint128.String u) = Some (u, true) /\
  Uint128.UnmarshalText (Uint128.MarshalText u) = Decoded u /\
  Uint128.UnmarshalJSON (Uint128.MarshalJSON u) = Decoded u /\
  Uint128.UnmarshalJSON (Uint128.MarshalText u) = Decoded u /\
  Uint128.MustUint128FromString (Uint128.String u) = Some u /\
  Uint128.Scan (Some (Uint128.String u)) = Decoded u.
Proof.
  intros Hu. pose proof (u128_toZ_range u Hu) as Ru.
  assert (Es : SetString10 (Uint128.String u) = Some (Uint128.toZ u)).
  { rewrite u128_String_decimal by assumption. apply SetString10_BigString. }
  assert (Ef : Uint128.Uint128FromString (Uint128.String u) = Some (u, true)).
  { rewrite (u128_decode_spec _ _ Es).
    destruct (Z.ltb_spec (Uint128.toZ u) 0); [lia|].
    destruct (Z.ltb_spec (Uint128.toZ u) (2 ^ 128)); [|lia].
    rewrite u128_ofZ_of_toZ by assumption. reflexivity. }
  assert (Et : Uint128.UnmarshalText (Uint128.String u) = Decoded u).
  { unfold Uint128.UnmarshalText. rewrite Ef. reflexivity. }
  destruct (unquote_quoted (Uint128.String u)) as (Q1 & Q2 & Q3).
  refine (conj Es (conj Ef (conj Et (conj _ (conj _ (conj _ _)))))).
  - unfold Uint128.MarshalJSON, Uint128.UnmarshalJSON.
    rewrite Q1, Q2, Q3.
    unfold Uint128.quoted at 1. rewrite Ascii.eqb_refl. cbn [negb]. exact Et.
  - unfold Uint128.MarshalText, Uint128.UnmarshalJSON.
    rewrite u128_String_decimal by assumption.
    rewrite u128_String_decimal in Et by assumption.
    unfold BigString in *.
    destruct (Uint128.toZ u) as [|p|p]; [exact Et| |lia].
    cbn [Z.to_int NilZero.string_of_int] in *. unfold NilZero.string_of_uint in *.
    pose proof (DecimalPos.Unsigned.to_uint_nonnil p) as Hn.
    destruct (Pos.to_uint p); [contradiction | exact Et ..].
  - unfold Uint128.MustUint128FromString. rewrite Ef. reflexivity.
  - unfold Uint128.Scan. rewrite Ef. reflexivity.
Qed.

Lemma u128_text_round_trip_witness :
  let u := Uint128.mk 3 4 in
  SetString10 (Uint128.String u) = Some (Uint128.toZ u) /\
  Uint128.Uint128FromString (Uint128.String u) = Some (u, true) /\
  Uint128.UnmarshalText (Uint128.MarshalText u) = Decoded u /\
  Uint128.UnmarshalJSON (Uint128.MarshalJSON u) = Decoded u /\
  Uint128.UnmarshalJSON (Uint128.MarshalText u) = Decoded u /\
  Uint128.MustUint128FromString (Uint128.String u) = Some u /\
  Uint128.Scan (Some (Uint128.String u)) = Decoded u.
Proof.
  apply (u128_text_round_trip (Uint128.mk 3 4)); unfold Uint128.wf; simpl; lia.
Defined.

(** X26: [Uint128.Scan] and [MustUint128FromString] check the range that
    [UnmarshalText] drops.  On text that is no decimal number all three
    fail; on a number of [[0, 2^128)] all three return it; on a number
    outside, [Scan] fails and [MustUint128FromString] panics while
    [UnmarshalText] decodes the clamped value.  [Scan] also fails when the
    scanner yields no token. *)
Theorem u128_scan_checks_range (s : string) (v : Z) :
  Uint128.Scan None = Failed /\
  (SetString10 s = None ->
     Uint128.Scan (Some s) = Failed /\ Uint128.MustUint128FromString s = None /\
     Uint128.UnmarshalText s = Failed) /\
  (SetString10 s = Some v -> 0 <= v < 2 ^ 128 ->
     exists u, Uint128.wf u /\ Uint128.toZ u = v /\
       Uint128.Scan (Some s) = Decoded u /\
       Uint128.MustUint128FromString s = Some u /\
       Uint128.UnmarshalText s = Decoded u) /\
  (SetString10 s = Some v -> ~ (0 <= v < 2 ^ 128) ->
     Uint128.Scan (Some s) = Failed /\ Uint128.MustUint128FromString s = None /\
     Uint128.UnmarshalText s
     = Decoded (if v <? 0 then Uint128.zeroUint128 else Uint128.MaxUint128)).
Proof.
  refine (conj eq_refl (conj _ (conj _ _))).
  - intros Hs. unfold Uint128.Scan, Uint128.MustUint128FromString, Uint128.UnmarshalText,
      Uint128.Uint128FromString. rewrite Hs. repeat split.
  - intros Hs Hv. exists (Uint128.ofZ v).
    unfold Uint128.Scan, Uint128.MustUint128FromString, Uint128.UnmarshalText.
    rewrite (u128_decode_spec _ _ Hs).
    destruct (Z.ltb_spec v 0); [lia|]. destruct (Z.ltb_spec v (2 ^ 128)); [|lia].
    cbn [negb].
    refine (conj (u128_ofZ_wf v) (conj (u128_ofZ_toZ v Hv) (conj eq_refl (conj eq_refl eq_refl)))).
  - intros Hs Hv.
    unfold Uint128.Scan, Uint128.MustUint128FromString, Uint128.UnmarshalText.
    rewrite (u128_decode_spec _ _ Hs).
    destruct (Z.ltb_spec v 0); [repeat split|].
    destruct (Z.ltb_spec v (2 ^ 128)); [lia|]. repeat split.
Qed.

Lemma u128_scan_checks_range_witness :
  let s := "300"%string in
  let v := 300 in
  Uint128.Scan None = Failed /\
  (SetString10 s = None ->
     Uint128.Scan (Some s) = Failed /\ Uint128.MustUint128FromString s = None /\
     Uint128.UnmarshalText s = Failed) /\
  (SetString10 s = Some v -> 0 <= v < 2 ^ 128 ->
     exists u, Uint128.wf u /\ Uint128.toZ u = v /\
       Uint128.Scan (Some s) = Decoded u /\
       Uint128.MustUint128FromString s = Some u /\
       Uint128.UnmarshalText s = Decoded u) /\
  (SetString10 s = Some v -> ~ (0 <= v < 2 ^ 128) ->
     Uint128.Scan (Some s) = Failed /\ Uint128.MustUint128FromString s = None /\
     Uint128.UnmarshalText s
     = Decoded (if v <? 0 then Uint128.zeroUint128 else Uint128.MaxUint128)).
Proof.
  exact (u128_scan_checks_range "300"%string 300).
Defined.

Lemma Int128FromBigInt_abs v :
  Int128.Int128FromBigInt v =
  let '(u, accurate) := Uint128.Uint128FromBigInt (Z.abs v) in
  if negb (v <? 0) then
    let cmp := Uint128.Cmp u Int128.maxInt128AsUint128 in
    if cmp =? 0 then (Int128.MaxInt128, accurate)
    else if 0 <? cmp then (Int128.MaxInt128, false)
    else (Int128.AsInt128 u, accurate)
  else
    let cmp := Uint128.Cmp u Int128.minInt128AsAbsUint128 in
    if cmp =? 0 then (Int128.MinInt128, accurate)
    else if 0 <? cmp then (Int128.MinInt128, false)
    else (Int128.Neg (Int128.AsInt128 u), accurate).
Proof.
  unfold Int128.Int128FromBigInt, Uint128.Uint128FromBigInt.
  pose proof (Z.abs_nonneg v).
  destruct (Z.ltb_spec (Z.abs v) 0); [lia|].
  assert (E1 : words_len (Z.abs v) = words_len v).
  { unfold words_len. rewrite Z.abs_idemp.
    destruct (Z.eqb_spec v 0); destruct (Z.eqb_spec (Z.abs v) 0); try reflexivity; lia. }
  assert (E2 : forall k, word_at (Z.abs v) k = word_at v k).
  { intros k. unfold word_at. rewrite Z.abs_idemp. reflexivity. }
  rewrite E1, !E2.
  destruct (words_len v =? 0); [reflexivity|].
  destruct (words_len v =? 1); [reflexivity|].
  destruct (words_len v =? 2); reflexivity.
Qed.

Lemma Int128FromBigInt_spec v :
  (- 2 ^ 127 <= v < 2 ^ 127 ->
     exists i, Int128.Int128FromBigInt v = (i, true) /\
               Int128.wf i /\ Int128.toZ i = v) /\
  (2 ^ 127 <= v -> Int128.Int128FromBigInt v = (Int128.MaxInt128, false)) /\
  (v < - 2 ^ 127 -> Int128.Int128FromBigInt v = (Int128.MinInt128, false)).
Proof.
  rewrite Int128FromBigInt_abs, Uint128FromBigInt_spec.
  pose proof (Z.abs_nonneg v) as Habs.
  destruct (Z.ltb_spec (Z.abs v) 0); [lia|].
  assert (Wmax : Uint128.wf Int128.maxInt128AsUint128) by (split; cbn; lia).
  assert (Wmin : Uint128.wf Int128.minInt128AsAbsUint128) by (split; cbn; lia).
  assert (Tmax : Uint128.toZ Int128.maxInt128AsUint128 = 2 ^ 127 - 1) by reflexivity.
  assert (Tmin : Uint128.toZ Int128.minInt128AsAbsUint128 = 2 ^ 127) by reflexivity.
  assert (WM : Uint128.wf Uint128.MaxUint128) by (split; cbn; lia).
  assert (TM : Uint128.toZ Uint128.MaxUint128 = 2 ^ 128 - 1) by reflexivity.
  assert (Hcmp : forall a b, Uint128.wf a -> Uint128.wf b ->
            (Uint128.Cmp a b = -1 /\ Uint128.toZ a < Uint128.toZ b) \/
            (Uint128.Cmp a b = 0 /\ Uint128.toZ a = Uint128.toZ b) \/
            (Uint128.Cmp a b = 1 /\ Uint128.toZ b < Uint128.toZ a)).
  { intros a b Wa Wb. destruct (u128_Cmp_spec a b) as [?|[?|[?|Hn]]]; auto.
    exfalso. apply Hn. split; assumption. }
  destruct (Z.ltb_spec (Z.abs v) (2 ^ 128)) as [Hlt|Hge].
  - pose proof (u128_ofZ_wf (Z.abs v)) as Wu.
    pose proof (u128_ofZ_toZ (Z.abs v) ltac:(lia)) as Tu.
    destruct (Z.ltb_spec v 0) as [Hneg|Hpos]; cbn [negb]; cbv zeta.
    + destruct (Hcmp _ _ Wu Wmin) as [[-> Hc]|[[-> Hc]|[-> Hc]]];
        rewrite Tu, Tmin in Hc; cbn [Z.eqb Z.ltb Z.compare];
        refine (conj _ (conj _ _)); intros Hr; try lia.
      * eexists; split; [reflexivity|].
        destruct (i128_toZ_AsInt128 _ Wu) as [Wi Ti].
        assert (Ti' : Int128.toZ (Int128.AsInt128 (Uint128.ofZ (Z.abs v))) = Z.abs v).
        { rewrite Ti, Tu. pow_consts. Z.div_mod_to_equations. lia. }
        split; [apply i128_Neg_spec; assumption|].
        rewrite i128_Neg_toZ; [lia | assumption |].
        intros E. rewrite E in Ti'. change (Int128.toZ Int128.MinInt128) with (- 2 ^ 127) in Ti'.
        lia.
      * exists Int128.MinInt128. split; [reflexivity|].
        split; [split; cbn; lia|]. change (Int128.toZ Int128.MinInt128) with (- 2 ^ 127). lia.
      * reflexivity.
    + destruct (Hcmp _ _ Wu Wmax) as [[-> Hc]|[[-> Hc]|[-> Hc]]];
        rewrite Tu, Tmax in Hc; cbn [Z.eqb Z.ltb Z.compare];
        refine (conj _ (conj _ _)); intros Hr; try lia.
      * eexists; split; [reflexivity|].
        destruct (i128_toZ_AsInt128 _ Wu) as [Wi Ti].
        split; [assumption|]. rewrite Ti, Tu. pow_consts. Z.div_mod_to_equations. lia.
      * exists Int128.MaxInt128. split; [reflexivity|].
        split; [split; cbn; lia|]. change (Int128.toZ Int128.MaxInt128) with (2 ^ 127 - 1). lia.
      * reflexivity.
  - destruct (Z.ltb_spec v 0) as [Hneg|Hpos]; cbn [negb]; cbv zeta.
    + destruct (Hcmp _ _ WM Wmin) as [[-> Hc]|[[-> Hc]|[-> Hc]]];
        rewrite TM, Tmin in Hc; try (exfalso; pow_consts; lia).
      cbn [Z.eqb Z.ltb Z.compare].
      refine (conj _ (conj _ _)); intros Hr; try (pow_consts; lia). reflexivity.
    + destruct (Hcmp _ _ WM Wmax) as [[-> Hc]|[[-> Hc]|[-> Hc]]];
        rewrite TM, Tmax in Hc; try (exfalso; pow_consts; lia).
      cbn [Z.eqb Z.ltb Z.compare].
      refine (conj _ (conj _ _)); intros Hr; try (pow_consts; lia). reflexivity.
Qed.

Lemma i128_from_own_value i :
  Int128.wf i -> Int128.Int128FromBigInt (Int128.toZ i) = (i, true).
Proof.
  intros Hi. pose proof (i128_toZ_range i Hi) as Ri.
  destruct (Int128FromBigInt_spec (Int128.toZ i)) as [H _].
  destruct (H Ri) as (j & E & Wj & Tj). rewrite E. f_equal.
  apply i128_toZ_inj; assumption.
Qed.

(** X27: [Int128FromBigInt] returns the number itself with [accurate]
    set on [[-2^127, 2^127)], [MaxInt128] without [accurate] above and
    [MinInt128] without [accurate] below; [MustInt128FromBigInt] panics
    exactly outside the range; [AsBigInt] is the number, and converting it
    back returns the value. *)
Theorem i128_from_bigint (v : Z) (i : Int128.t) :
  Int128.wf i ->
  (- 2 ^ 127 <= v < 2 ^ 127 ->
     exists j, Int128.Int128FromBigInt v = (j, true) /\
               Int128.wf j /\ Int128.toZ j = v) /\
  (2 ^ 127 <= v -> Int128.Int128FromBigInt v = (Int128.MaxInt128, false)) /\
  (v < - 2 ^ 127 -> Int128.Int128FromBigInt v = (Int128.MinInt128, false)) /\
  (Int128.MustInt128FromBigInt v = None <-> v < - 2 ^ 127 \/ 2 ^ 127 <= v) /\
  Int128.AsBigInt i = Int128.toZ i /\
  Int128.Int128FromBigInt (Int128.AsBigInt i) = (i, true) /\
  Int128.MustInt128FromBigInt (Int128.AsBigInt i) = Some i.
Proof.
  intros Hi.
  destruct (Int128FromBigInt_spec v) as (S1 & S2 & S3).
  pose proof (i128_AsBigInt i Hi) as Eb.
  pose proof (i128_from_own_value i Hi) as Eo.
  refine (conj S1 (conj S2 (conj S3 (conj _ (conj Eb (conj _ _)))))).
  - unfold Int128.MustInt128FromBigInt.
    destruct (Z.lt_ge_cases v (- 2 ^ 127)) as [Hlo|Hlo].
    + rewrite (S3 Hlo). split; [intros _; lia | reflexivity].
    + destruct (Z.lt_ge_cases v (2 ^ 127)) as [Hhi|Hhi].
      * destruct (S1 (conj Hlo Hhi)) as (j & E & _). rewrite E.
        split; [discriminate | lia].
      * rewrite (S2 Hhi). split; [intros _; lia | reflexivity].
  - rewrite Eb. exact Eo.
  - unfold Int128.MustInt128FromBigInt. rewrite Eb, Eo. reflexivity.
Qed.

Lemma i128_from_bigint_witness :
  let v := - 2 ^ 100 in
  let i := Int128.mk 0xFFFFFFFFFFFFFFFF 9 in
  (- 2 ^ 127 <= v < 2 ^ 127 ->
     exists j, Int128.Int128FromBigInt v = (j, true) /\
               Int128.wf j /\ Int128.toZ j = v) /\
  (2 ^ 127 <= v -> Int128.Int128FromBigInt v = (Int128.MaxInt128, false)) /\
  (v < - 2 ^ 127 -> Int128.Int128FromBigInt v = (Int128.MinInt128, false)) /\
  (Int128.MustInt128FromBigInt v = None <-> v < - 2 ^ 127 \/ 2 ^ 127 <= v) /\
  Int128.AsBigInt i = Int128.toZ i /\
  Int128.Int128FromBigInt (Int128.AsBigInt i) = (i, true) /\
  Int128.MustInt128FromBigInt (Int128.AsBigInt i) = Some i.
Proof.
  apply (i128_from_bigint (- 2 ^ 100) (Int128.mk 0xFFFFFFFFFFFFFFFF 9));
    unfold Int128.wf; simpl; lia.
Defined.

(** X28: the text of an [Int128] decodes to the same value: [String]
    parses as the number, and [UnmarshalText] after [MarshalText],
    [UnmarshalJSON] after [MarshalJSON], [MustInt128FromString] and [Scan]
    all return the value. *)
Theorem i128_text_round_trip (i : Int128.t) :
  Int128.wf i ->
  SetString10 (Int128.String i) = Some (Int128.toZ i) /\
  Int128.Int128FromString (Int128.String i) = Some (i, true) /\
  Int128.UnmarshalText (Int128.MarshalText i) = Decoded i /\
  Int128.UnmarshalJSON (Int128.MarshalJSON i) = Decoded i /\
  Int128.MustInt128FromString (Int128.String i) = Some i /\
  Int128.Scan (Some (Int128.String i)) = Decoded i.
Proof.
  intros Hi.
  assert (Es : SetString10 (Int128.String i) = Some (Int128.toZ i)).
  { unfold Int128.String. rewrite i128_AsBigInt by assumption.
    apply SetString10_BigString. }
  assert (Ef : Int128.Int128FromString (Int128.String i) = Some (i, true)).
  { unfold Int128.Int128FromString. rewrite Es, i128_from_own_value by assumption.
    reflexivity. }
  assert (Et : Int128.UnmarshalText (Int128.String i) = Decoded i).
  { unfold Int128.UnmarshalText. rewrite Ef. reflexivity. }
  destruct (unquote_quoted (Int128.String i)) as (Q1 & Q2 & Q3).
  refine (conj Es (conj Ef (conj Et (conj _ (conj _ _))))).
  - unfold Int128.MarshalJSON, Int128.UnmarshalJSON.
    rewrite Q1, Q2, Q3.
    unfold Uint128.quoted at 1. rewrite Ascii.eqb_refl. cbn [negb]. exact Et.
  - unfold Int128.MustInt128FromString. rewrite Ef. reflexivity.
  - unfold Int128.Scan. rewrite Ef. reflexivity.
Qed.

Lemma i128_text_round_trip_witness :
  let i := Int128.mk 0xFFFFFFFFFFFFFFFF 9 in
  SetString10 (Int128.String i) = Some (Int128.toZ i) /\
  Int128.Int128FromString (Int128.String i) = Some (i, true) /\
  Int128.UnmarshalText (Int128.MarshalText i) = Decoded i /\
  Int128.UnmarshalJSON (Int128.MarshalJSON i) = Decoded i /\
  Int128.MustInt128FromString (Int128.String i) = Some i /\
  Int128.Scan (Some (Int128.String i)) = Decoded i.
Proof.
  apply (i128_text_round_trip (Int128.mk 0xFFFFFFFFFFFFFFFF 9));
    unfold Int128.wf; simpl; lia.
Defined.

(** X29: [Int128.Scan] and [MustInt128FromString] check the range that
    [UnmarshalText] drops.  On text that is no decimal number all three
    fail; on a number of [[-2^127, 2^127)] all three return it; on a
    number outside, [Scan] fails and [MustInt128FromString] panics while
    [UnmarshalText] decodes the clamped value.  [Scan] also fails when the
    scanner yields no token. *)
Theorem i128_scan_checks_range (s : string) (v : Z) :
  Int128.Scan None = Failed /\
  (SetString10 s = None ->
     Int128.Scan (Some s) = Failed /\ Int128.MustInt128FromString s = None /\
     Int128.UnmarshalText s = Failed) /\
  (SetString10 s = Some v -> - 2 ^ 127 <= v < 2 ^ 127 ->
     exists i, Int128.wf i /\ Int128.toZ i = v /\
       Int128.Scan (Some s) = Decoded i /\
       Int128.MustInt128FromString s = Some i /\
       Int128.UnmarshalText s = Decoded i) /\
  (SetString10 s = Some v -> ~ (- 2 ^ 127 <= v < 2 ^ 127) ->
     Int128.Scan (Some s) = Failed /\ Int128.MustInt128FromString s = None /\
     Int128.UnmarshalText s
     = Decoded (if v <? 0 then Int128.MinInt128 else Int128.MaxInt128)).
Proof.
  destruct (Int128FromBigInt_spec v) as (S1 & S2 & S3).
  refine (conj eq_refl (conj _ (conj _ _))).
  - intros Hs. unfold Int128.Scan, Int128.MustInt128FromString, Int128.UnmarshalText,
      Int128.Int128FromString. rewrite Hs. repeat split.
  - intros Hs Hv. destruct (S1 Hv) as (i & E & Wi & Ti). exists i.
    unfold Int128.Scan, Int128.MustInt128FromString, Int128.UnmarshalText,
      Int128.Int128FromString. rewrite Hs, E. cbn [negb].
    refine (conj Wi (conj Ti (conj eq_refl (conj eq_refl eq_refl)))).
  - intros Hs Hv.
    unfold Int128.Scan, Int128.MustInt128FromString, Int128.UnmarshalText,
      Int128.Int128FromString. rewrite Hs.
    destruct (Z.lt_ge_cases v (- 2 ^ 127)) as [Hlo|Hlo].
    + rewrite (S3 Hlo). destruct (Z.ltb_spec v 0); [|pow_consts; lia]. repeat split.
    + rewrite (S2 ltac:(lia)). destruct (Z.ltb_spec v 0); [pow_consts; lia|]. repeat split.
Qed.

Lemma i128_scan_checks_range_witness :
  let s := "-300"%string in
  let v := -300 in
  Int128.Scan None = Failed /\
  (SetString10 s = None ->
     Int128.Scan (Some s) = Failed /\ Int128.MustInt128FromString s = None /\
     Int128.UnmarshalText s = Failed) /\
  (SetString10 s = Some v -> - 2 ^ 127 <= v < 2 ^ 127 ->
     exists i, Int128.wf i /\ Int128.toZ i = v /\
       Int128.Scan (Some s) = Decoded i /\
       Int128.MustInt128FromString s = Some i /\
       Int128.UnmarshalText s = Decoded i) /\
  (SetString10 s = Some v -> ~ (- 2 ^ 127 <= v < 2 ^ 127) ->
     Int128.Scan (Some s) = Failed /\ Int128.MustInt128FromString s = None /\
     Int128.UnmarshalText s
     = Decoded (if v <? 0 then Int128.MinInt128 else Int128.MaxInt128)).
Proof.
  exact (i128_scan_checks_range "-300"%string (-300)).
Defined.
